(** * CCTV dataset curation: duplicate grouping, cluster assignment and
      leakage-free train/val/test allocation

    A shallow embedding of the algorithmic core of the repository's scripts

      - [scripts/split.py]               (module [Split]),
      - [scripts/dedupe_by_threshold.py] (modules [Dedupe] and [Normalize]),
      - [scripts/assign_clusters.py]     (module [Assign]),

    followed by the properties of the specification that concern them
    (modules [SplitFacts], [DedupeFacts], [AssignFacts], [NormalizeFacts]).

    Conventions of the embedding.
      - A Python [dict] keyed by strings is an association list in insertion
        order without repeated keys; a dict over the three fixed keys
        ['train'], ['val'], ['test'] is the record [per_split].
      - The global generator of Python's [random] module is an explicit state
        threaded through every call ([random.seed], [random.shuffle]).
      - Binary64 arithmetic of [split.py] (the deficits of step 2) is the
        kernel's primitive [float]; the float32 arrays of
        [assign_clusters.py] and of [l2_normalize] hold binary32 numbers
        of the kernel's specification of floating-point arithmetic.
      - What the index library and the linear algebra library compute is
        not in the repository: the range search of [dedupe_by_threshold.py]
        and the matrix product of [assign_clusters.py] are parameters, and
        a statement says what it needs of them.  The similarities the
        range search returns are rationals. *)

From Stdlib Require Import List String Ascii Bool Arith ZArith Lia Permutation.
From Stdlib Require Import PrimFloat Uint63 SpecFloat QArith Sorted.
Import ListNotations.

Close Scope Q_scope.

Set Warnings "-inexact-float".

(* ================================================================== *)
(** * Part I. The embedding *)
(* ================================================================== *)

(** ** scripts/split.py *)

Module Split.

Local Open Scope string_scope.
Local Open Scope list_scope.

(** ** The three partitions and dicts keyed by them *)

Inductive split : Type := train | val | test.

Definition splits_list : list split := [train; val; test].

Definition split_eqb (a b : split) : bool :=
  match a, b with
  | train, train | val, val | test, test => true
  | _, _ => false
  end.

(** A dict with exactly the keys ['train'], ['val'], ['test']. *)
Record per_split (A : Type) : Type :=
  PerSplit { at_train : A; at_val : A; at_test : A }.
Arguments PerSplit {A} _ _ _.
Arguments at_train {A} _.
Arguments at_val {A} _.
Arguments at_test {A} _.

Definition get {A} (m : per_split A) (s : split) : A :=
  match s with
  | train => at_train m
  | val => at_val m
  | test => at_test m
  end.

Definition set {A} (m : per_split A) (s : split) (x : A) : per_split A :=
  match s with
  | train => PerSplit x (at_val m) (at_test m)
  | val => PerSplit (at_train m) x (at_test m)
  | test => PerSplit (at_train m) (at_val m) x
  end.

Definition tabulate {A} (f : split -> A) : per_split A :=
  PerSplit (f train) (f val) (f test).

(** ** String-keyed dicts in insertion order *)

Definition dict (V : Type) : Type := list (string * V).

Definition keys {V} (d : dict V) : list string := map fst d.

Fixpoint lookup {V} (d : dict V) (k : string) : option V :=
  match d with
  | [] => None
  | (k', v) :: d' => if String.eqb k' k then Some v else lookup d' k
  end.

(** [mapping.setdefault(key, []).append(x)] *)
Fixpoint setdefault_append (d : dict (list string)) (k x : string)
  : dict (list string) :=
  match d with
  | [] => [(k, [x])]
  | (k', v) :: d' =>
      if String.eqb k' k then (k', v ++ [x]) :: d'
      else (k', v) :: setdefault_append d' k x
  end.

(** A row of [cluster_assignments.csv], restricted to the columns read. *)
Record row : Type := Row { image_path : string; cluster_unique_image : string }.

Definition build_cluster_to_images (assign_df : list row) : dict (list string) :=
  fold_left
    (fun mapping r =>
       setdefault_append mapping (cluster_unique_image r) (image_path r))
    assign_df [].

(** ** [os.path.basename]: what follows the last slash *)

Fixpoint has_slash (p : string) : bool :=
  match p with
  | EmptyString => false
  | String c r => Ascii.eqb c "/"%char || has_slash r
  end.

Fixpoint basename (p : string) : string :=
  match p with
  | EmptyString => EmptyString
  | String c r =>
      if Ascii.eqb c "/"%char || has_slash r then basename r else p
  end.

(** ** Step 0: capping *)

Section WithRandom.

(** The state of the module-level generator of Python's [random], with
    [random.seed] and [random.shuffle] acting on it. *)
Variable rng : Type.
Variable random_seed : Z -> rng.
Variable random_shuffle : rng -> list string -> list string * rng.

Definition cap_cluster (g : rng) (images : list string) (cap_size : nat)
    (seed : Z) : list string * rng :=
  let g := random_seed seed in
  let '(shuffled, g) := random_shuffle g images in
  (firstn cap_size shuffled, g).

Fixpoint apply_caps (g : rng) (cluster_to_images : dict (list string))
    (caps : dict nat) (seed : Z) : dict (list string) * rng :=
  match cluster_to_images with
  | [] => ([], g)
  | (cluster_key, images) :: rest =>
      match lookup caps (basename cluster_key) with
      | Some cap_size =>
          let '(capped_images, g) := cap_cluster g images cap_size seed in
          let '(capped, g) := apply_caps g rest caps seed in
          ((cluster_key, capped_images) :: capped, g)
      | None =>
          let '(capped, g) := apply_caps g rest caps seed in
          ((cluster_key, images) :: capped, g)
      end
  end.

End WithRandom.

(** A small concrete generator, used to run the definitions on examples:
    a linear congruential state, and a shuffle that rotates the list by
    an amount read off the state. *)
Definition lcg_seed (seed : Z) : Z := seed.

Definition lcg_shuffle (g : Z) (l : list string) : list string * Z :=
  let k := Z.to_nat (g mod Z.of_nat (List.length l)) in
  (skipn k l ++ firstn k l, (g * 1103515245 + 12345) mod 2147483648)%Z.

(** ** Steps 1 to 3: allocation of whole clusters *)

Record alloc_state : Type := AllocState {
  allocation : per_split (list string);
  counts : per_split nat;
  day_counts : per_split nat;
  night_counts : per_split nat
}.

Definition initial_state : alloc_state :=
  AllocState (PerSplit [] [] []) (PerSplit 0 0 0) (PerSplit 0 0 0) (PerSplit 0 0 0).

(** [(cluster_key, basename, size)] *)
Definition cluster : Type := (string * string * nat)%type.
Definition cluster_key (c : cluster) : string := fst (fst c).
Definition cluster_size (c : cluster) : nat := snd c.

(** The pin table, a literal of [allocate_exact_splits]. *)
Definition capped_assignment : dict split :=
  [("night_bg_003.jpg", train); ("night_bg_002.jpg", val);
   ("night_bg_005.jpg", test)].

(** [capped_assignment[basename]] when [basename in capped_assignment] *)
Definition pin_of (b : string) : option split := lookup capped_assignment b.

Definition is_night (b : string) : bool := String.prefix "night_bg_" b.

(** [allocation[s].append(k); counts[s] += size; night_counts[s] += size] *)
Definition add_night (st : alloc_state) (s : split) (k : string) (size : nat)
  : alloc_state :=
  AllocState (set (allocation st) s (get (allocation st) s ++ [k]))
             (set (counts st) s (get (counts st) s + size))
             (day_counts st)
             (set (night_counts st) s (get (night_counts st) s + size)).

(** [allocation[s].append(k); counts[s] += size; day_counts[s] += size] *)
Definition add_day (st : alloc_state) (s : split) (k : string) (size : nat)
  : alloc_state :=
  AllocState (set (allocation st) s (get (allocation st) s ++ [k]))
             (set (counts st) s (get (counts st) s + size))
             (set (day_counts st) s (get (day_counts st) s + size))
             (night_counts st).

(** The state of the first loop: running totals, then the two pools. *)
Definition pools : Type := (alloc_state * list cluster * list cluster)%type.

(** The body of the loop over [cluster_to_images.keys()]: a pinned cluster
    is counted as night whatever its name, any other cluster goes to the
    night pool when its basename starts with [night_bg_] and to the day
    pool otherwise. *)
Definition step1_body (acc : pools) (e : string * list string) : pools :=
  let '(st, day_clusters, night_clusters) := acc in
  let '(key, images) := e in
  let b := basename key in
  let size := List.length images in
  match pin_of b with
  | Some s => (add_night st s key size, day_clusters, night_clusters)
  | None =>
      if is_night b then (st, day_clusters, night_clusters ++ [(key, b, size)])
      else (st, day_clusters ++ [(key, b, size)], night_clusters)
  end.

Definition step1 (cluster_to_images : dict (list string)) : pools :=
  fold_left step1_body cluster_to_images (initial_state, [], []).

(** [list.sort(key=lambda x: x[2], reverse=True)]: stable, largest first. *)
Fixpoint insert_desc (c : cluster) (l : list cluster) : list cluster :=
  match l with
  | [] => [c]
  | c' :: l' =>
      if Nat.ltb (cluster_size c) (cluster_size c') then c' :: insert_desc c l'
      else c :: l
  end.

Definition sort_desc (l : list cluster) : list cluster :=
  fold_right insert_desc [] l.

(** [max(d, key=d.get)] over a dict with keys train, val, test: the first
    key, in that order, whose value no later value exceeds. *)
Definition max_key {K} (gt : K -> K -> bool) (d : per_split K) : split :=
  fold_left (fun best s => if gt (get d s) (get d best) then s else best)
            [val; test] train.

(** The operand of a true division [int / int]: exact below [2^53], far
    above any number of images. *)
Definition nat_to_float (n : nat) : float :=
  PrimFloat.of_uint63 (Uint63.of_Z (Z.of_nat n)).

Definition target_ratios : per_split float :=
  PerSplit 0.70%float 0.20%float 0.10%float.

Definition deficits (c : per_split nat) : per_split float :=
  let current_total := get c train + get c val + get c test in
  tabulate (fun s =>
    let current_ratio :=
      if Nat.ltb 0 current_total
      then PrimFloat.div (nat_to_float (get c s)) (nat_to_float current_total)
      else 0%float in
    PrimFloat.sub (get target_ratios s) current_ratio).

Definition step2_body (st : alloc_state) (c : cluster) : alloc_state :=
  let best_split := max_key (fun a b => PrimFloat.ltb b a) (deficits (counts st)) in
  add_night st best_split (cluster_key c) (cluster_size c).

Definition imbalances (st : alloc_state) : per_split Z :=
  tabulate (fun s =>
    (Z.of_nat (get (night_counts st) s) - Z.of_nat (get (day_counts st) s))%Z).

Definition step3_body (st : alloc_state) (c : cluster) : alloc_state :=
  let best_split := max_key Z.gtb (imbalances st) in
  add_day st best_split (cluster_key c) (cluster_size c).

Record stats : Type := Stats { day : nat; night : nat; total : nat }.

Definition split_stats (st : alloc_state) : per_split stats :=
  tabulate (fun s =>
    Stats (get (day_counts st) s) (get (night_counts st) s) (get (counts st) s)).

Definition allocate_state (cluster_to_images : dict (list string)) : alloc_state :=
  let '(st, day_clusters, night_clusters) := step1 cluster_to_images in
  let night_clusters := sort_desc night_clusters in
  let day_clusters := sort_desc day_clusters in
  let st := fold_left step2_body night_clusters st in
  fold_left step3_body day_clusters st.

Definition allocate_exact_splits (cluster_to_images : dict (list string))
  : per_split (list string) * per_split stats :=
  let st := allocate_state cluster_to_images in
  (allocation st, split_stats st).

(** ** Writing the three lists *)

Definition newline : string := String (ascii_of_nat 10) EmptyString.

(** ['\n'.join(images) + ('\n' if images else '')] *)
Definition file_content (images : list string) : string :=
  String.append (String.concat newline images)
                (match images with [] => EmptyString | _ => newline end).

(** [cluster_to_images[cluster_key]]; a missing key would be a [KeyError],
    which cannot happen for keys taken from the same dict
    (lemma [lookup_keys] below). *)
Definition images_of (d : dict (list string)) (k : string) : list string :=
  match lookup d k with Some l => l | None => [] end.

Definition gather (d : dict (list string)) (ks : list string) : list string :=
  flat_map (images_of d) ks.

Section WithRandomOutput.

Variable rng : Type.
Variable random_seed : Z -> rng.
Variable random_shuffle : rng -> list string -> list string * rng.

(** The image lists written to [train_capped.txt], [val_capped.txt] and
    [test_capped.txt], in the order of the lines. *)
Definition write_splits (g : rng) (alloc : per_split (list string))
    (cluster_to_images : dict (list string)) (seed : Z)
  : per_split (list string) * rng :=
  let g := random_seed seed in
  let '(tr, g) := random_shuffle g (gather cluster_to_images (get alloc train)) in
  let '(va, g) := random_shuffle g (gather cluster_to_images (get alloc val)) in
  let '(te, g) := random_shuffle g (gather cluster_to_images (get alloc test)) in
  (PerSplit tr va te, g).

Definition caps : dict nat :=
  [("night_bg_003.jpg", 500); ("night_bg_002.jpg", 400); ("night_bg_005.jpg", 400)].

Record run : Type := Run {
  run_allocation : per_split (list string);
  run_stats : per_split stats;
  run_lists : per_split (list string);
  run_files : per_split string
}.

(** [main], from the assignment table on: [g0] is whatever state the
    generator is in when the script starts. *)
Definition main (g0 : rng) (assign_df : list row) (seed : Z) : run :=
  let cluster_to_images := build_cluster_to_images assign_df in
  let '(cluster_to_images, g) :=
    apply_caps rng random_seed random_shuffle g0 cluster_to_images caps seed in
  let '(alloc, st) := allocate_exact_splits cluster_to_images in
  let '(lists, g) := write_splits g alloc cluster_to_images seed in
  Run alloc st lists
      (tabulate (fun s => file_content (get lists s))).

End WithRandomOutput.

(** ** Vocabulary of the statements *)

(** The clusters pinned to partition [s], those left to the night pool and
    those left to the day pool, each in the order of the inventory. *)
Definition pinned_to (s : split) (d : dict (list string)) : dict (list string) :=
  filter (fun e => match pin_of (basename (fst e)) with
                   | Some s' => split_eqb s' s
                   | None => false
                   end) d.

Definition night_pool (d : dict (list string)) : dict (list string) :=
  filter (fun e => match pin_of (basename (fst e)) with
                   | Some _ => false
                   | None => is_night (basename (fst e))
                   end) d.

Definition day_pool (d : dict (list string)) : dict (list string) :=
  filter (fun e => match pin_of (basename (fst e)) with
                   | Some _ => false
                   | None => negb (is_night (basename (fst e)))
                   end) d.

Definition as_cluster (e : string * list string) : cluster :=
  (fst e, basename (fst e), List.length (snd e)).

Definition size_of (e : string * list string) : nat := List.length (snd e).

(** The count a cluster contributes under each tag. *)
Definition night_count_of (e : string * list string) : nat :=
  if is_night (basename (fst e)) then size_of e else 0.

Definition day_count_of (e : string * list string) : nat :=
  if is_night (basename (fst e)) then 0 else size_of e.

(** All cluster keys owned by some partition. *)
Definition owned (a : per_split (list string)) : list string :=
  get a train ++ get a val ++ get a test.

Definition day_total (st : alloc_state) : nat :=
  get (day_counts st) train + get (day_counts st) val + get (day_counts st) test.

(** Every image path belongs to one cluster, as in a table that assigns
    each image to its nearest representative. *)
Definition images_disjoint (d : dict (list string)) : Prop :=
  forall k1 l1 k2 l2 x,
    In (k1, l1) d -> In (k2, l2) d -> In x l1 -> In x l2 -> k1 = k2.

(** The inventory of the specification's scenario C: one pinned cluster
    of 500 images, night clusters of 200, 300 and 100, day clusters of 100
    and 150. *)
Definition scenario_c : dict (list string) :=
  [("unique/night_bg_003.jpg", repeat "x.jpg" 500);
   ("unique/day_bg_001.jpg", repeat "x.jpg" 100);
   ("unique/night_bg_010.jpg", repeat "x.jpg" 200);
   ("unique/night_bg_011.jpg", repeat "x.jpg" 300);
   ("unique/day_bg_002.jpg", repeat "x.jpg" 150);
   ("unique/night_bg_012.jpg", repeat "x.jpg" 100)].

(** A small assignment table and the inventory built from it. *)
Definition example_table : list row :=
  [Row "n1.jpg" "unique/night_bg_003.jpg"; Row "d1.jpg" "unique/day_bg_001.jpg";
   Row "m1.jpg" "unique/night_bg_007.jpg"; Row "n2.jpg" "unique/night_bg_003.jpg";
   Row "m2.jpg" "unique/night_bg_007.jpg"; Row "m3.jpg" "unique/night_bg_007.jpg"].

Definition example_inventory : dict (list string) :=
  build_cluster_to_images example_table.

(** A table that lists one image under two clusters, neither of them in
    the cap table, and the inventory built from it. *)
Definition shared_table : list row :=
  [Row "x.jpg" "unique/night_bg_010.jpg"; Row "x.jpg" "unique/night_bg_011.jpg"].

Definition shared_inventory : dict (list string) :=
  build_cluster_to_images shared_table.

(** ** [main] with the two percentages it prints *)

(** How a run of [main] ends once the tables are loaded: normally, or in
    the [ZeroDivisionError] of one of its two unguarded percentages; the
    error carries the split files already written, if any. *)
Inductive outcome : Type :=
| Completed (r : run)
| ZeroDivisionError (written : option (per_split string)).

Section WithRandomMain.

Variable rng : Type.
Variable random_seed : Z -> rng.
Variable random_shuffle : rng -> list string -> list string * rng.

(** [main] again, with [total_after_capping/total_images*100] (before the
    allocation) and, in [print_statistics], [total_day/total_images*100]
    (after the files are written), [total_images] being there the sum of
    the three totals. *)
Definition main_outcome (g0 : rng) (assign_df : list row) (seed : Z) : outcome :=
  let cluster_to_images := build_cluster_to_images assign_df in
  let total_images := List.length assign_df in
  let '(cluster_to_images, g) :=
    apply_caps rng random_seed random_shuffle g0 cluster_to_images caps seed in
  if Nat.eqb total_images 0 then ZeroDivisionError None
  else
    let '(alloc, st) := allocate_exact_splits cluster_to_images in
    let '(lists, g) :=
      write_splits rng random_seed random_shuffle g alloc cluster_to_images seed in
    let files := tabulate (fun s => file_content (get lists s)) in
    let total_images :=
      total (get st train) + total (get st val) + total (get st test) in
    if Nat.eqb total_images 0 then ZeroDivisionError (Some files)
    else Completed (Run alloc st lists files).

End WithRandomMain.

(** ** Further vocabulary *)

(** The images a table assigns to cluster [k], in the order of its rows. *)
Definition images_assigned (assign_df : list row) (k : string) : list string :=
  map image_path
      (filter (fun r => String.eqb (cluster_unique_image r) k) assign_df).

(** The number of images of the clusters [ks] of an inventory. *)
Definition sizes_in (d : dict (list string)) (ks : list string) : nat :=
  list_sum (map (fun k => List.length (images_of d k)) ks).

(** The place of a partition in the order train, val, test. *)
Definition rank (s : split) : nat :=
  match s with train => 0 | val => 1 | test => 2 end.

(** Largest first. *)
Definition size_ge (a b : cluster) : Prop := cluster_size b <= cluster_size a.

(** Every total is the number of images of the clusters on the list, and
    is split into day and night. *)
Definition accounted (d : dict (list string)) (st : alloc_state) : Prop :=
  forall s,
    get (counts st) s = sizes_in d (get (allocation st) s) /\
    get (counts st) s = get (day_counts st) s + get (night_counts st) s.

End Split.

(** ** scripts/dedupe_by_threshold.py: greedy duplicate groups *)

Module Dedupe.

Local Open Scope list_scope.

(** An [N, D] array of embeddings, row by row. *)
Definition matrix : Type := list (list Q).

(** What [index.range_search(real, threshold)] returns: the neighbours of
    query [i] are [I[lims[i]:lims[i+1]]], their similarities
    [D[lims[i]:lims[i+1]]]. *)
Record range_result : Type := RangeResult {
  lims : list nat;
  D : list Q;
  I : list nat
}.

(** [l[start:stop]] *)
Definition slice {A} (l : list A) (start stop : nat) : list A :=
  firstn (stop - start) (skipn start l).

(** [zip(neigh_idx, neigh_sim)] for query [i]; [None] is the [IndexError]
    of [lims[i]], [lims[i + 1]]. *)
Definition neighbours (res : range_result) (i : nat) : option (list (nat * Q)) :=
  match nth_error (lims res) i, nth_error (lims res) (S i) with
  | Some start, Some stop =>
      Some (combine (slice (I res) start stop) (slice (D res) start stop))
  | _, _ => None
  end.

(** The inner loop over the neighbours of [i]; [None] is the [IndexError]
    of [assigned[j]]. *)
Fixpoint collect (assigned : list bool) (i : nat) (threshold : Q)
    (neigh : list (nat * Q)) (group : list nat) (sims : list Q)
  : option (list nat * list Q) :=
  match neigh with
  | [] => Some (group, sims)
  | (j, s) :: rest =>
      if Nat.eqb j i then collect assigned i threshold rest group sims
      else if Qle_bool threshold s then
        match nth_error assigned j with
        | None => None
        | Some true => collect assigned i threshold rest group sims
        | Some false =>
            collect assigned i threshold rest (group ++ [j]) (sims ++ [s])
        end
      else collect assigned i threshold rest group sims
  end.

(** [assigned[j] = True], for [j] within the array. *)
Fixpoint set_true (assigned : list bool) (j : nat) : list bool :=
  match assigned, j with
  | [], _ => []
  | _ :: a, O => true :: a
  | b :: a, S j' => b :: set_true a j'
  end.

Definition mark (assigned : list bool) (group : list nat) : list bool :=
  fold_left set_true group assigned.

(** The state of the outer loop: [assigned], [groups], [group_sims]. *)
Definition loop_state : Type :=
  (list bool * list (list nat) * list (list Q))%type.

Fixpoint outer (res : range_result) (threshold : Q) (indices : list nat)
    (st : loop_state) : option loop_state :=
  match indices with
  | [] => Some st
  | i :: indices' =>
      let '(assigned, groups, group_sims) := st in
      match nth_error assigned i with
      | None => None
      | Some true => outer res threshold indices' st
      | Some false =>
          match neighbours res i with
          | None => None
          | Some neigh =>
              match collect assigned i threshold neigh [i] [1%Q] with
              | None => None
              | Some (group, sims) =>
                  outer res threshold indices'
                        (mark assigned group, groups ++ [group], group_sims ++ [sims])
              end
          end
      end
  end.

(** The grouping that follows the range search. *)
Definition group_loop (n : nat) (res : range_result) (threshold : Q)
  : option (list (list nat) * list (list Q)) :=
  match outer res threshold (seq 0 n) (repeat false n, [], []) with
  | Some (_, groups, group_sims) => Some (groups, group_sims)
  | None => None
  end.

(** [dedupe_range_search], given the range search of the index library. *)
Definition dedupe_range_search (range_search : matrix -> Q -> range_result)
    (real : matrix) (threshold : Q)
  : option (list (list nat) * list (list Q)) :=
  group_loop (List.length real) (range_search real threshold) threshold.

(** ** The inner-product range search *)

Fixpoint dot (u v : list Q) : Q :=
  match u, v with
  | x :: u', y :: v' => (x * y + dot u' v')%Q
  | _, _ => 0%Q
  end.

(** The similarity of rows [i] and [j]. *)
Definition similarity (real : matrix) (i j : nat) : Q :=
  dot (nth i real []) (nth j real []).

Definition row_matches (real : matrix) (threshold : Q) (i : nat) : list (nat * Q) :=
  filter (fun p => Qle_bool threshold (snd p))
         (map (fun j => (j, similarity real i j)) (seq 0 (List.length real))).

Fixpoint offsets (start : nat) (blocks : list (list (nat * Q))) : list nat :=
  match blocks with
  | [] => [start]
  | b :: blocks' => start :: offsets (start + List.length b) blocks'
  end.

(** Modelled from the spec: the range search of the similarity index
    (FAISS [IndexFlatIP], not part of the repository).  For each query it
    returns the pairs (neighbour index, similarity) with similarity at
    least the threshold, the query itself included, by ascending index. *)
Definition range_search_ip (real : matrix) (threshold : Q) : range_result :=
  let blocks := map (row_matches real threshold) (seq 0 (List.length real)) in
  RangeResult (offsets 0 blocks)
              (map snd (List.concat blocks))
              (map fst (List.concat blocks)).

(** What the grouping relies on, whatever the order of the neighbours:
    each query below [n] has a neighbour list without repeated index, made
    of the rows at least [threshold]-similar to it. *)
Definition range_search_ok (real : matrix) (threshold : Q) (res : range_result)
  : Prop :=
  forall i, i < List.length real ->
    exists neigh,
      neighbours res i = Some neigh /\
      NoDup (map fst neigh) /\
      (forall j s, In (j, s) neigh <->
                   j < List.length real /\ s = similarity real i j /\
                   Qle_bool threshold s = true).

(** ** [write_outputs]: the membership table and the two lists *)

Record record : Type := Record_ {
  group_id : nat;
  representative : string;
  member_path : string;
  similarity_to_rep : Q;
  is_representative : nat
}.

Record outputs : Type := Outputs {
  records : list record;
  keep : list string;
  remove : list string
}.

(** The rows of one group, [k] counting from the position of the first
    pair handed in; [None] is the [IndexError] of [paths[j]]. *)
Fixpoint group_rows (paths : list string) (gid : nat) (rep_path : string)
    (k : nat) (members : list (nat * Q)) : option (list record * list string) :=
  match members with
  | [] => Some ([], [])
  | (j, s) :: members' =>
      match nth_error paths j, group_rows paths gid rep_path (S k) members' with
      | Some p, Some (rows, removed) =>
          Some (Record_ gid rep_path p s (if Nat.eqb k 0 then 1 else 0) :: rows,
                if Nat.ltb 0 k then p :: removed else removed)
      | _, _ => None
      end
  end.

(** The loop over [enumerate(zip(groups, group_sims), start=gid)]; [None]
    also stands for the [IndexError] of [idxs[0]] on an empty group. *)
Fixpoint write_groups (paths : list string) (gid : nat)
    (gs : list (list nat * list Q)) : option outputs :=
  match gs with
  | [] => Some (Outputs [] [] [])
  | (idxs, sims) :: gs' =>
      match idxs with
      | [] => None
      | rep :: _ =>
          match nth_error paths rep with
          | None => None
          | Some rep_path =>
              match group_rows paths gid rep_path 0 (combine idxs sims),
                    write_groups paths (S gid) gs' with
              | Some (rows, removed), Some out =>
                  Some (Outputs (rows ++ records out)
                                (rep_path :: keep out)
                                (removed ++ remove out))
              | _, _ => None
              end
          end
      end
  end.

Definition write_outputs (paths : list string) (groups : list (list nat))
    (group_sims : list (list Q)) : option outputs :=
  write_groups paths 1 (combine groups group_sims).

(** ** Vocabulary of the statements *)

(** The neighbours that join the group of [i]. *)
Definition accepted (assigned : list bool) (i : nat) (threshold : Q)
    (p : nat * Q) : bool :=
  negb (Nat.eqb (fst p) i) && Qle_bool threshold (snd p) &&
  match nth_error assigned (fst p) with
  | Some false => true
  | _ => false
  end.

Definition reps (groups : list (list nat)) : list nat := map (hd 0) groups.

(** [j] is returned for query [i] and passes the test [s >= threshold]. *)
Definition adj (res : range_result) (threshold : Q) (i j : nat) : Prop :=
  exists neigh s,
    neighbours res i = Some neigh /\ In (j, s) neigh /\
    Qle_bool threshold s = true.

(** A group and its similarities: representative first, with [1.0]. *)
Definition well_shaped (g : list nat) (s : list Q) : Prop :=
  exists i rest rest',
    g = i :: rest /\ s = 1%Q :: rest' /\ List.length rest = List.length rest'.

(** All that the grouping needs of the range search on [n] rows. *)
Definition in_range (n : nat) (res : range_result) : Prop :=
  forall i, i < n ->
    exists neigh,
      neighbours res i = Some neigh /\ NoDup (map fst neigh) /\
      (forall j s, In (j, s) neigh -> j < n).

Record inv (n : nat) (res : range_result) (threshold : Q) (k : nat)
    (assigned : list bool) (groups : list (list nat)) (group_sims : list (list Q))
  : Prop := Inv {
  inv_length : List.length assigned = n;
  inv_assigned : forall j, nth_error assigned j = Some true <-> In j (List.concat groups);
  inv_nodup : NoDup (List.concat groups);
  inv_visited : forall j, j < k -> j < n -> In j (List.concat groups);
  inv_shape : Forall2 well_shaped groups group_sims;
  inv_reps_lt : forall r, In r (reps groups) -> r < k;
  inv_closed : forall r j, In r (reps groups) -> adj res threshold r j ->
                           In j (List.concat groups);
  inv_members : forall g j, In g groups -> In j g ->
                            j = hd 0 g \/ (hd 0 g < j /\ adj res threshold (hd 0 g) j);
  inv_independent : forall r r', In r (reps groups) -> In r' (reps groups) ->
                                 r' < r -> ~ adj res threshold r' r;
  inv_reps_nodup : NoDup (reps groups)
}.

(** The rows written for one group: as many as the group has members, the
    first one for the representative itself. *)
Definition rows_of_group (rows : list record) (g : list nat) : Prop :=
  List.length rows = List.length g /\
  exists r rest,
    rows = r :: rest /\
    is_representative r = 1 /\
    similarity_to_rep r = 1%Q /\
    member_path r = representative r /\
    Forall (fun r' => is_representative r' = 0) rest.

(** Being [threshold]-similar is transitive on the rows of [real]. *)
Definition similar_transitive (real : matrix) (threshold : Q) : Prop :=
  forall a b c,
    a < List.length real -> b < List.length real -> c < List.length real ->
    Qle_bool threshold (similarity real a b) = true ->
    Qle_bool threshold (similarity real b c) = true ->
    Qle_bool threshold (similarity real a c) = true.

(** Four unit vectors: rows 2 and 3 are close to row 1, row 0 is
    moderately close to row 1 only. *)
Definition four_vectors : matrix :=
  [[3 # 5; 0; 4 # 5]; [1; 0; 0]; [4 # 5; 3 # 5; 0]; [4 # 5; - (3 # 5); 0]]%Q.

(** Two coincident vectors and one orthogonal to them. *)
Definition three_vectors : matrix := [[1; 0]; [1; 0]; [0; 1]]%Q.

(** ** Further vocabulary *)

(** What a group records: its representative first, then members taken
    from the representative's neighbours, each with the similarity the
    range search returned for it, which passed the threshold. *)
Definition recorded (res : range_result) (threshold : Q)
    (g : list nat) (s : list Q) : Prop :=
  exists neigh members,
    neighbours res (hd 0 g) = Some neigh /\
    g = hd 0 g :: map fst members /\
    s = 1%Q :: map snd members /\
    (forall p, In p members -> In p neigh /\ Qle_bool threshold (snd p) = true).

(** The members of the groups other than the representatives. *)
Definition non_reps (groups : list (list nat)) : list nat :=
  List.concat (map (@tl nat) groups).

(** Two orthogonal unit vectors. *)
Definition two_orthogonal : matrix := [[1; 0]; [0; 1]]%Q.

(** Three unit vectors close to the first of them. *)
Definition three_near : matrix := [[1; 0]; [1; 0]; [4 # 5; 3 # 5]]%Q.

(** ** What the grouping needs of the answers at two thresholds *)

(** Every row linked to one of the first [n] rows at [t1] is linked to it
    at [t2]. *)
Definition links_kept (n : nat) (res1 : range_result) (t1 : Q)
    (res2 : range_result) (t2 : Q) : Prop :=
  forall i j, i < n -> adj res1 t1 i j -> adj res2 t2 i j.

(** Being linked is transitive on the first [n] rows, from earlier to
    later ones: a row linked to a later row, itself linked to a still
    later one, is linked to that one. *)
Definition links_transitive (n : nat) (res : range_result) (threshold : Q)
  : Prop :=
  forall a b c, a < b -> b < c -> c < n ->
    adj res threshold a b -> adj res threshold b c -> adj res threshold a c.

(** ** The range search of the library *)

(** Blocks of neighbours, one per query, laid out as the range search
    returns them. *)
Definition csr (blocks : list (list (nat * Q))) : range_result :=
  RangeResult (offsets 0 blocks)
              (map snd (List.concat blocks))
              (map fst (List.concat blocks)).

Definition row_matches_above (real : matrix) (threshold : Q) (i : nat)
  : list (nat * Q) :=
  filter (fun p => negb (Qle_bool (snd p) threshold))
         (map (fun j => (j, similarity real i j)) (seq 0 (List.length real))).

(** The range search as the inner-product index of the library answers
    it: for each query the rows whose similarity is above the threshold,
    a row exactly at the threshold not among them, by ascending index. *)
Definition range_search_above (real : matrix) (threshold : Q) : range_result :=
  csr (map (row_matches_above real threshold) (seq 0 (List.length real))).

(** ** [resolve_cache_paths] *)

(** [os.path.join(a, b)] of [posixpath] *)
Fixpoint ends_with_slash (a : string) : bool :=
  match a with
  | EmptyString => false
  | String c EmptyString => Ascii.eqb c "/"%char
  | String _ r => ends_with_slash r
  end.

Definition path_join (a b : string) : string :=
  if String.prefix "/" b then b
  else if String.eqb a EmptyString || ends_with_slash a then String.append a b
  else String.append a (String.append "/" b).

(** [f"{backend}_{model}_{pretrained}"] *)
Definition cache_tag (backend model pretrained : string) : string :=
  String.append backend
    (String.append "_" (String.append model (String.append "_" pretrained))).

(** [f"{kind}_{tag}.npz"] under [cache_dir] *)
Definition cache_file (cache_dir kind tag : string) : string :=
  path_join cache_dir
            (String.append kind (String.append "_" (String.append tag ".npz"))).

Inductive resolved (A : Type) : Type :=
| Found (a : A)
| FileNotFoundError (message : string).
Arguments Found {A} _.
Arguments FileNotFoundError {A} _.

(** [resolve_cache_paths] of [dedupe_by_threshold.py]; [isfile] is
    [os.path.isfile] on the file system of the run. *)
Definition resolve_cache_paths (isfile : string -> bool)
    (cache_dir backend model pretrained : string) : resolved string :=
  let tag := cache_tag backend model pretrained in
  let real_cache := cache_file cache_dir "real" tag in
  let legacy_real :=
    cache_file cache_dir "real"
               (String.append model (String.append "_" pretrained)) in
  if isfile real_cache then Found real_cache
  else if String.eqb backend "clip" && isfile legacy_real then Found legacy_real
  else FileNotFoundError (String.append "Missing real cache: " real_cache).

End Dedupe.

(** ** numpy's [float32] *)

Module Float32.

(** IEEE 754 binary32, as the kernel's specification of floating-point
    arithmetic defines it for 24 bits of precision and a largest exponent
    of 128: every operation rounds to nearest, ties to even. *)
Definition float32 : Type := spec_float.

Definition prec : Z := 24.
Definition emax : Z := 128.

Definition add : float32 -> float32 -> float32 := SFadd prec emax.
Definition mul : float32 -> float32 -> float32 := SFmul prec emax.
Definition div : float32 -> float32 -> float32 := SFdiv prec emax.
Definition sqrt : float32 -> float32 := SFsqrt prec emax.
Definition leb : float32 -> float32 -> bool := SFleb.
Definition ltb : float32 -> float32 -> bool := SFltb.

Definition isnan (x : float32) : bool :=
  match x with S754_nan => true | _ => false end.

Definition zero : float32 := S754_zero false.

(** The float32 nearest to an integer, and to the ratio of two integers
    that are themselves float32 numbers. *)
Definition of_Z (z : Z) : float32 := binary_normalize prec emax z 0 false.
Definition ratio (p q : Z) : float32 := div (of_Z p) (of_Z q).

Definition one : float32 := of_Z 1.

(** [2^e] *)
Definition pow2 (e : Z) : float32 := binary_normalize prec emax 1 e false.

End Float32.

(** ** scripts/assign_clusters.py: nearest representative, by chunks *)

Module Assign.

Import Float32.

Local Open Scope list_scope.

(** A two-dimensional [float32] array: its rows and its second dimension,
    which an array has even without rows. *)
Record ndarray : Type := NdArray {
  rows : list (list float32);
  width : nat
}.

(** [a.shape] *)
Definition shape (a : ndarray) : nat * nat := (List.length (rows a), width a).

Inductive result : Type :=
| Ok (best_idx : list nat) (best_sim : list float32)
| AssertionError
| ValueError.

(** [sims.argmax(axis=1)] on one row, as numpy defines it for floats: the
    scan keeps the entry found so far unless the next one is not below or
    equal to it, so the first of several largest entries wins and the
    first NaN, which nothing is below or equal to, ends the scan; [None]
    is the [ValueError] on an empty row. *)
Fixpoint argmax_from (best_i : nat) (best : float32) (i : nat)
    (l : list float32) : nat :=
  match l with
  | [] => best_i
  | x :: l' =>
      if leb x best then argmax_from best_i best (S i) l'
      else if isnan x then i
      else argmax_from i x (S i) l'
  end.

Definition argmax (l : list float32) : option nat :=
  match l with
  | [] => None
  | x :: l' => Some (if isnan x then 0 else argmax_from 0 x 1 l')
  end.

Fixpoint argmax_rows (sims : list (list float32)) : option (list nat) :=
  match sims with
  | [] => Some []
  | r :: sims' =>
      match argmax r, argmax_rows sims' with
      | Some i, Some idx => Some (i :: idx)
      | _, _ => None
      end
  end.

(** [sims[np.arange(sims.shape[0]), idx]] *)
Definition take_along (sims : list (list float32)) (idx : list nat)
  : list float32 :=
  map (fun p => nth (snd p) (fst p) zero) (combine sims idx).

(** [arr[start:stop] = values], the lengths agreeing. *)
Definition assign_slice {A} (arr : list A) (start stop : nat) (values : list A)
  : list A :=
  firstn start arr ++ values ++ skipn stop arr.

(** What [np.empty] leaves in an array. *)
Definition np_empty {A} (junk : nat -> A) (n : nat) : list A :=
  map junk (seq 0 n).

Section WithNumpy.

(** What [np.empty] leaves in the two result arrays. *)
Variable junk_idx : nat -> nat.
Variable junk_sim : nat -> float32.

(** Entry [(i, j)] of the product [a @ b.T] of two float32 arrays: the
    inner product of row [i] of [a] and row [j] of [b] as the linear
    algebra library behind numpy rounds it.  The order of its additions
    is the library's own and may depend on the operands the entry is
    computed in, so the entry is a function of both arrays. *)
Variable inner : list (list float32) -> list (list float32) -> nat -> nat -> float32.

(** [a @ b.T], of shape [[len(a), len(b)]] *)
Definition matmul_t (a b : list (list float32)) : list (list float32) :=
  map (fun i => map (inner a b i) (seq 0 (List.length b)))
      (seq 0 (List.length a)).

(** The state of the loop: the chunks multiplied so far, as
    [(start, end)], and the two result arrays. *)
Definition loop_state : Type :=
  (list (nat * nat) * list nat * list float32)%type.

(** One pass through the body for the chunk starting at [start]. *)
Definition body (real unique : ndarray) (chunk_size start : nat)
    (st : loop_state) : option loop_state :=
  let '(trace, best_idx, best_sim) := st in
  let n := List.length (rows real) in
  let stop := Nat.min (start + chunk_size) n in
  let sims := matmul_t (Dedupe.slice (rows real) start stop) (rows unique) in
  match argmax_rows sims with
  | None => None
  | Some idx =>
      let val := take_along sims idx in
      Some (trace ++ [(start, stop)],
            assign_slice best_idx start stop idx,
            assign_slice best_sim start stop val)
  end.

(** [for start in range(0, N, chunk_size)] for a positive step: at most
    [N] passes, counted by [fuel]. *)
Fixpoint loop (fuel : nat) (real unique : ndarray) (chunk_size start : nat)
    (st : loop_state) : list (nat * nat) * result :=
  match fuel with
  | O => (fst (fst st), Ok (snd (fst st)) (snd st))
  | S fuel' =>
      if Nat.ltb start (List.length (rows real)) then
        match body real unique chunk_size start st with
        | None => (fst (fst st) ++
                     [(start, Nat.min (start + chunk_size) (List.length (rows real)))],
                   ValueError)
        | Some st' => loop fuel' real unique chunk_size (start + chunk_size) st'
        end
      else (fst (fst st), Ok (snd (fst st)) (snd st))
  end.

(** [compute_argmax_clusters]: the chunk products computed, in order, and
    what the call returns or raises. *)
Definition compute_argmax_clusters (real unique : ndarray) (chunk_size : Z)
  : list (nat * nat) * result :=
  let '(n, d) := shape real in
  let '(m, d2) := shape unique in
  if negb (Nat.eqb d d2) then ([], AssertionError)
  else
    let best_idx := np_empty junk_idx n in
    let best_sim := np_empty junk_sim n in
    if Z.eqb chunk_size 0 then ([], ValueError)
    else if Z.ltb chunk_size 0 then ([], Ok best_idx best_sim)
    else loop n real unique (Z.to_nat chunk_size) 0 ([], best_idx, best_sim).

(** ** The unchunked reference of the specification *)

(** [x] does not exceed [y] in the order of the best match: a NaN is
    above every number. *)
Definition no_greater (x y : float32) : bool := isnan y || leb x y.

(** Following the specification's words, not the loop: the best match of
    a row of similarities is the first position whose entry no entry of
    the row exceeds. *)
Definition is_largest (row : list float32) (x : float32) : bool :=
  forallb (fun y => no_greater y x) row.

Fixpoint first_largest_from (i : nat) (l row : list float32) : nat :=
  match l with
  | [] => i
  | x :: l' => if is_largest row x then i else first_largest_from (S i) l' row
  end.

Definition first_largest (row : list float32) : nat :=
  first_largest_from 0 row row.

(** The nearest representative of every image from the similarity matrix
    of all images at once: the position of the best match of each row and
    the entry there. *)
Definition nearest_unchunked (real unique : ndarray)
  : list nat * list float32 :=
  let sims := matmul_t (rows real) (rows unique) in
  (map first_largest sims,
   map (fun r => nth (first_largest r) r zero) sims).

(** What the independence of the chunk size asks of the product: the
    entry for a row and a representative is the same in every product of
    a chunk that holds the row with the same representatives. *)
Definition chunk_independent : Prop :=
  forall (a a' b : list (list float32)) (i i' j : nat) (r : list float32),
    nth_error a i = Some r -> nth_error a' i' = Some r ->
    j < List.length b ->
    inner a b i j = inner a' b i' j.

End WithNumpy.

(** ** Vocabulary of the statements *)

Definition argmax_or_zero (r : list float32) : nat :=
  match argmax r with Some i => i | None => 0 end.

(** One way a library may compute an entry, used to run the definitions
    on examples: the products added in float32 one after the other, from
    the first coordinate on. *)
Fixpoint dot_from (acc : float32) (u v : list float32) : float32 :=
  match u, v with
  | x :: u', y :: v' => dot_from (add acc (mul x y)) u' v'
  | _, _ => acc
  end.

Definition dot (u v : list float32) : float32 := dot_from zero u v.

Definition inner_in_order (a b : list (list float32)) (i j : nat) : float32 :=
  dot (nth i a []) (nth j b []).

Definition example_unique : ndarray :=
  NdArray [[one; zero]; [zero; one]; [ratio 3 5; ratio 4 5]] 2.

Definition example_real : ndarray :=
  NdArray [[one; zero]; [ratio 9 10; ratio 1 10]; [zero; one];
           [ratio 1 10; ratio 9 10]; [ratio 3 5; ratio 4 5];
           [ratio 1 2; ratio 1 2]] 2.

(** An image whose exact inner product with the second representative,
    [1 + 2^-30], is above the one with the first, [1], and rounds to it. *)
Definition rounding_real : ndarray := NdArray [[one; pow2 (-30)]] 2.

Definition rounding_unique : ndarray := NdArray [[one; zero]; [one; one]] 2.

(** ** [resolve_cache_paths] *)

(** [resolve_cache_paths] of [assign_clusters.py]: the unique cache, then
    the real cache. *)
Definition resolve_cache_paths (isfile : string -> bool)
    (cache_dir backend model pretrained : string)
  : Dedupe.resolved (string * string) :=
  let tag := Dedupe.cache_tag backend model pretrained in
  let unique_cache := Dedupe.cache_file cache_dir "unique" tag in
  let real_cache := Dedupe.cache_file cache_dir "real" tag in
  let legacy_tag := String.append model (String.append "_" pretrained) in
  let legacy_unique := Dedupe.cache_file cache_dir "unique" legacy_tag in
  let legacy_real := Dedupe.cache_file cache_dir "real" legacy_tag in
  let unique_found :=
    if negb (isfile unique_cache) then
      if String.eqb backend "clip" && isfile legacy_unique
      then Dedupe.Found legacy_unique
      else Dedupe.FileNotFoundError
             (String.append "Missing unique cache: " unique_cache)
    else Dedupe.Found unique_cache in
  match unique_found with
  | Dedupe.FileNotFoundError m => Dedupe.FileNotFoundError m
  | Dedupe.Found unique_cache =>
      if negb (isfile real_cache) then
        if String.eqb backend "clip" && isfile legacy_real
        then Dedupe.Found (unique_cache, legacy_real)
        else Dedupe.FileNotFoundError
               (String.append "Missing real cache: " real_cache)
      else Dedupe.Found (unique_cache, real_cache)
  end.

(** ** [main]: the assignment table *)

(** A row of [cluster_assignments.csv] *)
Record assignment : Type := Assignment {
  image_path : string;
  cluster_unique_image : string;
  cluster_unique_basename : string;
  similarity : float32;
  cluster_index : nat
}.

(** How the table comes about, or what stops it: an error of
    [compute_argmax_clusters], the [IndexError] of [unique_paths[i]], or
    the [ValueError] of a data frame whose columns differ in length. *)
Inductive table_result : Type :=
| Table (table : list assignment)
| ComputeFailed (r : result)
| IndexError
| LengthMismatch.

(** [[unique_paths[i] for i in best_idx.tolist()]] *)
Fixpoint lookup_all (unique_paths : list string) (idx : list nat)
  : option (list string) :=
  match idx with
  | [] => Some []
  | i :: idx' =>
      match nth_error unique_paths i, lookup_all unique_paths idx' with
      | Some p, Some ps => Some (p :: ps)
      | _, _ => None
      end
  end.

(** The rows of the data frame built from columns of equal length. *)
Fixpoint make_rows (real_paths best_unique_paths : list string)
    (best_sim : list float32) (best_idx : list nat) : list assignment :=
  match real_paths, best_unique_paths, best_sim, best_idx with
  | a :: real_paths', b :: best_unique_paths', s :: best_sim', i :: best_idx' =>
      Assignment a b (Split.basename b) s i
      :: make_rows real_paths' best_unique_paths' best_sim' best_idx'
  | _, _, _, _ => []
  end.

Section WithNumpyMain.

Variable junk_idx : nat -> nat.
Variable junk_sim : nat -> float32.
Variable inner : list (list float32) -> list (list float32) -> nat -> nat -> float32.

(** [main], from the loaded caches to the assignment table; the chunk
    size is the default of [compute_argmax_clusters]. *)
Definition main (unique_embeds : ndarray) (unique_paths : list string)
    (real_embeds : ndarray) (real_paths : list string) : table_result :=
  match snd (compute_argmax_clusters junk_idx junk_sim inner
               real_embeds unique_embeds 65536) with
  | Ok best_idx best_sim =>
      match lookup_all unique_paths best_idx with
      | None => IndexError
      | Some best_unique_paths =>
          if Nat.eqb (List.length real_paths) (List.length best_idx)
          then Table (make_rows real_paths best_unique_paths best_sim best_idx)
          else LengthMismatch
      end
  | r => ComputeFailed r
  end.

End WithNumpyMain.

Definition example_unique_paths : list string :=
  ["u/day_bg_001.jpg"; "u/night_bg_002.jpg"; "u/night_bg_003.jpg"]%string.

Definition example_real_paths : list string :=
  ["r/a.jpg"; "r/b.jpg"; "r/c.jpg"; "r/d.jpg"; "r/e.jpg"; "r/f.jpg"]%string.

Definition no_unique : ndarray := NdArray [] 2.

End Assign.

(** ** scripts/dedupe_by_threshold.py: normalisation *)

Module Normalize.

Import Float32.

Local Open Scope list_scope.

(** [np.add.reduce] along one row: the entries added in float32 one after
    the other, from the first on; [0.0] for a row without entries.  (For
    long rows numpy groups the additions in its own way; nothing stated
    below depends on their order.) *)
Definition add_reduce (s : list float32) : float32 :=
  match s with
  | [] => zero
  | x :: s' => fold_left add s' x
  end.

(** [np.linalg.norm(x, axis=1, keepdims=True)] on one row of a float32
    array: the square root of the sum of the squares, every step in
    float32. *)
Definition norm (x : list float32) : float32 :=
  sqrt (add_reduce (map (fun a => mul a a) x)).

(** The floor [1e-6] as a float32: [8796093 * 2^-43]. *)
Definition floor : float32 := S754_finite false 8796093 (-43).

(** [np.maximum]: the first operand when it is a NaN or not below the
    second, else the second. *)
Definition maximum (a b : float32) : float32 :=
  if leb b a || isnan a then a else b.

Definition l2_normalize_row (x : list float32) : list float32 :=
  let n := maximum (norm x) floor in
  map (fun a => div a n) x.

(** [l2_normalize]: each row divided by the larger of its norm and the
    floor; the final [astype(np.float32)] changes nothing in a float32
    array. *)
Definition l2_normalize (x : list (list float32)) : list (list float32) :=
  map l2_normalize_row x.

(** ** Vocabulary of the statements *)

Definition is_zero (x : float32) : bool :=
  match x with S754_zero _ => true | _ => false end.

(** Neither an infinity nor a NaN. *)
Definition is_finite (x : float32) : bool :=
  match x with S754_zero _ | S754_finite _ _ _ => true | _ => false end.

Definition infinity : float32 := S754_infinity false.

(** [2^127], whose square is beyond the largest float32. *)
Definition huge : float32 := pow2 127.

End Normalize.

(* ================================================================== *)
(** * Part II. Properties *)
(* ================================================================== *)

(** ** The allocator of scripts/split.py *)

Module SplitFacts.

Import Split.

Local Open Scope string_scope.
Local Open Scope list_scope.

(** ** Elementary facts: dicts keyed by the partitions *)

Lemma split_eqb_eq (a b : split) : split_eqb a b = true <-> a = b.
Proof. destruct a, b; simpl; split; congruence. Qed.

Lemma get_set_same {A} (m : per_split A) (s : split) (x : A) :
  get (set m s x) s = x.
Proof. destruct s; reflexivity. Qed.

Lemma get_set_other {A} (m : per_split A) (s s' : split) (x : A) :
  s <> s' -> get (set m s x) s' = get m s'.
Proof. destruct s, s'; simpl; congruence. Qed.

Lemma get_tabulate {A} (f : split -> A) (s : split) : get (tabulate f) s = f s.
Proof. destruct s; reflexivity. Qed.

Lemma split_eq_dec (a b : split) : {a = b} + {a <> b}.
Proof. decide equality. Defined.

Lemma split_eqb_refl (s : split) : split_eqb s s = true.
Proof. now destruct s. Qed.

Lemma split_eqb_neq (s s' : split) : s <> s' -> split_eqb s s' = false.
Proof. destruct s, s'; simpl; congruence. Qed.

(** ** Elementary facts: string-keyed dicts *)

Lemma lookup_in {V} (d : dict V) (k : string) (v : V) :
  NoDup (keys d) -> In (k, v) d -> lookup d k = Some v.
Proof.
  induction d as [|[k' v'] d IH]; simpl; intros Hnd Hin; [contradiction|].
  inversion Hnd as [|? ? Hnotin Hnd']; subst.
  destruct Hin as [Heq | Hin].
  - inversion Heq; subst. now rewrite String.eqb_refl.
  - destruct (String.eqb_spec k' k) as [->|Hne].
    + exfalso. apply Hnotin. unfold keys. now apply (in_map fst) in Hin.
    + now apply IH.
Qed.

Lemma lookup_some_in {V} (d : dict V) (k : string) (v : V) :
  lookup d k = Some v -> In (k, v) d.
Proof.
  induction d as [|[k' v'] d IH]; simpl; [discriminate|].
  destruct (String.eqb_spec k' k) as [->|Hne]; intros H.
  - inversion H; subst. now left.
  - right. now apply IH.
Qed.

(** No [KeyError]: a key of the dict is always found. *)
Lemma lookup_keys {V} (d : dict V) (k : string) :
  In k (keys d) -> exists v, lookup d k = Some v.
Proof.
  induction d as [|[k' v'] d IH]; simpl; [contradiction|].
  intros [Heq | Hin].
  - subst. rewrite String.eqb_refl. eauto.
  - destruct (String.eqb k' k); eauto.
Qed.

Lemma keys_setdefault_append (d : dict (list string)) (k x : string) :
  keys (setdefault_append d k x) = if in_dec string_dec k (keys d)
                                   then keys d else keys d ++ [k].
Proof.
  induction d as [|[k' v] d IH]; simpl; [reflexivity|].
  destruct (String.eqb_spec k' k) as [->|Hne].
  - simpl. destruct (string_dec k k); [|congruence].
    reflexivity.
  - simpl. rewrite IH. destruct (string_dec k' k); [congruence|].
    destruct (in_dec string_dec k (keys d)); reflexivity.
Qed.

Lemma NoDup_keys_setdefault_append (d : dict (list string)) (k x : string) :
  NoDup (keys d) -> NoDup (keys (setdefault_append d k x)).
Proof.
  intros Hnd. rewrite keys_setdefault_append.
  destruct (in_dec string_dec k (keys d)) as [Hin|Hnotin]; [assumption|].
  apply (Permutation_NoDup (l := k :: keys d)).
  - apply Permutation_cons_append.
  - now constructor.
Qed.

(** The dict built from the assignment table has each cluster key once. *)
Lemma NoDup_keys_build (assign_df : list row) :
  NoDup (keys (build_cluster_to_images assign_df)).
Proof.
  unfold build_cluster_to_images.
  assert (H : forall m, NoDup (keys m) ->
            NoDup (keys (fold_left
              (fun mapping r =>
                 setdefault_append mapping (cluster_unique_image r) (image_path r))
              assign_df m))).
  { induction assign_df as [|r rs IH]; simpl; intros m Hm; [assumption|].
    apply IH. now apply NoDup_keys_setdefault_append. }
  apply H. constructor.
Qed.

(** ** The first loop, characterised *)

Lemma pinned_is_night (b : string) (s : split) :
  pin_of b = Some s -> is_night b = true.
Proof.
  unfold pin_of, capped_assignment. cbn [lookup].
  destruct (String.eqb_spec "night_bg_003.jpg" b) as [<-|_]; [reflexivity|].
  destruct (String.eqb_spec "night_bg_002.jpg" b) as [<-|_]; [reflexivity|].
  destruct (String.eqb_spec "night_bg_005.jpg" b) as [<-|_]; [reflexivity|].
  discriminate.
Qed.

Lemma step1_body_pinned st days nights k imgs s0 :
  pin_of (basename k) = Some s0 ->
  step1_body (st, days, nights) (k, imgs)
  = (add_night st s0 k (List.length imgs), days, nights).
Proof. intros H. unfold step1_body. now rewrite H. Qed.

Lemma step1_body_night st days nights k imgs :
  pin_of (basename k) = None -> is_night (basename k) = true ->
  step1_body (st, days, nights) (k, imgs)
  = (st, days, nights ++ [(k, basename k, List.length imgs)]).
Proof. intros H1 H2. unfold step1_body. now rewrite H1, H2. Qed.

Lemma step1_body_day st days nights k imgs :
  pin_of (basename k) = None -> is_night (basename k) = false ->
  step1_body (st, days, nights) (k, imgs)
  = (st, days ++ [(k, basename k, List.length imgs)], nights).
Proof. intros H1 H2. unfold step1_body. now rewrite H1, H2. Qed.

Lemma pinned_to_cons s k imgs d :
  pinned_to s ((k, imgs) :: d)
  = match pin_of (basename k) with
    | Some s' => if split_eqb s' s then (k, imgs) :: pinned_to s d
                 else pinned_to s d
    | None => pinned_to s d
    end.
Proof.
  unfold pinned_to. cbn [filter fst].
  now destruct (pin_of (basename k)).
Qed.

Lemma night_pool_cons k imgs d :
  night_pool ((k, imgs) :: d)
  = match pin_of (basename k) with
    | Some _ => night_pool d
    | None => if is_night (basename k) then (k, imgs) :: night_pool d
              else night_pool d
    end.
Proof.
  unfold night_pool. cbn [filter fst].
  now destruct (pin_of (basename k)).
Qed.

Lemma day_pool_cons k imgs d :
  day_pool ((k, imgs) :: d)
  = match pin_of (basename k) with
    | Some _ => day_pool d
    | None => if is_night (basename k) then day_pool d
              else (k, imgs) :: day_pool d
    end.
Proof.
  unfold day_pool. cbn [filter fst].
  destruct (pin_of (basename k)); [reflexivity|].
  now destruct (is_night (basename k)).
Qed.

Lemma step1_from (d : dict (list string)) :
  forall st days nights,
    let r := fold_left step1_body d (st, days, nights) in
    (forall s, get (allocation (fst (fst r))) s
               = get (allocation st) s ++ keys (pinned_to s d)) /\
    (forall s, get (counts (fst (fst r))) s
               = get (counts st) s + list_sum (map size_of (pinned_to s d))) /\
    (forall s, get (night_counts (fst (fst r))) s
               = get (night_counts st) s + list_sum (map size_of (pinned_to s d))) /\
    day_counts (fst (fst r)) = day_counts st /\
    snd (fst r) = days ++ map as_cluster (day_pool d) /\
    snd r = nights ++ map as_cluster (night_pool d).
Proof.
  induction d as [|[k imgs] d IH]; intros st days nights; cbv zeta.
  - simpl. repeat split; intros; rewrite ?app_nil_r; auto.
  - cbn [fold_left].
    destruct (pin_of (basename k)) as [s0|] eqn:Hpin.
    + rewrite (step1_body_pinned _ _ _ _ _ _ Hpin).
      specialize (IH (add_night st s0 k (List.length imgs)) days nights).
      cbv zeta in IH. destruct IH as (Ha & Hc & Hn & Hd & Hdp & Hnp).
      rewrite day_pool_cons, night_pool_cons, Hpin.
      repeat split; auto; intros s; rewrite pinned_to_cons, Hpin.
      * rewrite Ha. destruct (split_eq_dec s0 s) as [->|Hne].
        -- rewrite split_eqb_refl.
           cbn [allocation add_night]. rewrite get_set_same.
           unfold keys. cbn [map fst]. now rewrite <- app_assoc.
        -- rewrite (split_eqb_neq _ _ Hne).
           cbn [allocation add_night]. now rewrite get_set_other.
      * rewrite Hc. destruct (split_eq_dec s0 s) as [->|Hne].
        -- rewrite split_eqb_refl.
           cbn [counts add_night]. rewrite get_set_same.
           unfold list_sum. cbn [map fold_right].
           change (size_of (k, imgs)) with (List.length imgs). lia.
        -- rewrite (split_eqb_neq _ _ Hne).
           cbn [counts add_night]. now rewrite get_set_other.
      * rewrite Hn. destruct (split_eq_dec s0 s) as [->|Hne].
        -- rewrite split_eqb_refl.
           cbn [night_counts add_night]. rewrite get_set_same.
           unfold list_sum. cbn [map fold_right].
           change (size_of (k, imgs)) with (List.length imgs). lia.
        -- rewrite (split_eqb_neq _ _ Hne).
           cbn [night_counts add_night]. now rewrite get_set_other.
    + destruct (is_night (basename k)) eqn:Hnight.
      * rewrite (step1_body_night _ _ _ _ _ Hpin Hnight).
        specialize (IH st days (nights ++ [(k, basename k, List.length imgs)])).
        cbv zeta in IH. destruct IH as (Ha & Hc & Hn & Hd & Hdp & Hnp).
        rewrite day_pool_cons, night_pool_cons, Hpin, Hnight.
        repeat split; auto; try (intros s; now rewrite pinned_to_cons, Hpin).
        rewrite Hnp. cbn [map]. unfold as_cluster at 2. cbn [fst snd].
        now rewrite <- app_assoc.
      * rewrite (step1_body_day _ _ _ _ _ Hpin Hnight).
        specialize (IH st (days ++ [(k, basename k, List.length imgs)]) nights).
        cbv zeta in IH. destruct IH as (Ha & Hc & Hn & Hd & Hdp & Hnp).
        rewrite day_pool_cons, night_pool_cons, Hpin, Hnight.
        repeat split; auto; try (intros s; now rewrite pinned_to_cons, Hpin).
        rewrite Hdp. cbn [map]. unfold as_cluster at 2. cbn [fst snd].
        now rewrite <- app_assoc.
Qed.

(** ** Ownership after steps 2 and 3 *)

Lemma owned_snoc (a : per_split (list string)) (s : split) (k : string) :
  Permutation (owned (set a s (get a s ++ [k]))) (k :: owned a).
Proof.
  symmetry. destruct a as [tr va te]. unfold owned.
  destruct s; cbn [get set at_train at_val at_test].
  - rewrite <- app_assoc. cbn [app]. apply Permutation_middle.
  - rewrite <- app_assoc. cbn [app]. rewrite !app_assoc.
    apply Permutation_middle.
  - rewrite !app_assoc. apply Permutation_cons_append.
Qed.

Lemma get_snoc_prefix (a : per_split (list string)) (s s' : split) (k : string) :
  exists rest, get (set a s (get a s ++ [k])) s' = get a s' ++ rest.
Proof.
  destruct (split_eq_dec s s') as [->|Hne].
  - rewrite get_set_same. eauto.
  - rewrite get_set_other by assumption. exists []. now rewrite app_nil_r.
Qed.

Lemma day_total_add_day st s k n :
  day_total (add_day st s k n) = day_total st + n.
Proof.
  unfold day_total. destruct st as [a c [d1 d2 d3] nc].
  destruct s; cbn; lia.
Qed.

Lemma step2_fold (l : list cluster) :
  forall st,
    let st' := fold_left step2_body l st in
    Permutation (owned (allocation st'))
                (owned (allocation st) ++ map cluster_key l) /\
    day_counts st' = day_counts st /\
    (forall s, exists rest,
        get (allocation st') s = get (allocation st) s ++ rest).
Proof.
  induction l as [|c l IH]; intros st; cbv zeta; cbn [fold_left map].
  - rewrite app_nil_r. repeat split; auto.
    intros s. exists []. now rewrite app_nil_r.
  - destruct (IH (step2_body st c)) as (Hp & Hd & Hpre).
    repeat split.
    + rewrite Hp. unfold step2_body, add_night. cbn [allocation].
      rewrite owned_snoc. apply Permutation_middle.
    + rewrite Hd. reflexivity.
    + intros s. destruct (Hpre s) as [rest Hrest]. rewrite Hrest.
      unfold step2_body, add_night. cbn [allocation].
      destruct (get_snoc_prefix (allocation st)
                  (max_key (fun a b => PrimFloat.ltb b a) (deficits (counts st)))
                  s (cluster_key c)) as [r1 Hr1].
      rewrite Hr1. rewrite <- app_assoc. eauto.
Qed.

Lemma step3_fold (l : list cluster) :
  forall st,
    let st' := fold_left step3_body l st in
    Permutation (owned (allocation st'))
                (owned (allocation st) ++ map cluster_key l) /\
    day_total st' = day_total st + list_sum (map cluster_size l) /\
    (forall s, exists rest,
        get (allocation st') s = get (allocation st) s ++ rest).
Proof.
  induction l as [|c l IH]; intros st; cbv zeta; cbn [fold_left map].
  - rewrite app_nil_r. cbn. repeat split; auto.
    intros s. exists []. now rewrite app_nil_r.
  - destruct (IH (step3_body st c)) as (Hp & Hd & Hpre).
    repeat split.
    + rewrite Hp. unfold step3_body, add_day. cbn [allocation].
      rewrite owned_snoc. apply Permutation_middle.
    + rewrite Hd. unfold step3_body. rewrite day_total_add_day.
      unfold list_sum. cbn [fold_right]. lia.
    + intros s. destruct (Hpre s) as [rest Hrest]. rewrite Hrest.
      unfold step3_body, add_day. cbn [allocation].
      destruct (get_snoc_prefix (allocation st)
                  (max_key Z.gtb (imbalances st)) s (cluster_key c)) as [r1 Hr1].
      rewrite Hr1. rewrite <- app_assoc. eauto.
Qed.

Lemma insert_desc_perm (c : cluster) (l : list cluster) :
  Permutation (insert_desc c l) (c :: l).
Proof.
  induction l as [|c' l IH]; cbn [insert_desc]; [reflexivity|].
  destruct (Nat.ltb (cluster_size c) (cluster_size c')); [|reflexivity].
  rewrite IH. apply perm_swap.
Qed.

Lemma sort_desc_perm (l : list cluster) : Permutation (sort_desc l) l.
Proof.
  induction l as [|c l IH]; cbn; [reflexivity|].
  rewrite insert_desc_perm. now constructor.
Qed.

Lemma list_sum_perm (l l' : list nat) :
  Permutation l l' -> list_sum l = list_sum l'.
Proof.
  induction 1; unfold list_sum in *; cbn [fold_right] in *; lia.
Qed.

(** The inventory splits into the pinned clusters and the two pools. *)
Lemma keys_five_way (d : dict (list string)) :
  Permutation (keys d)
    (keys (pinned_to train d) ++ keys (pinned_to val d) ++
     keys (pinned_to test d) ++ keys (night_pool d) ++ keys (day_pool d)).
Proof.
  induction d as [|[k imgs] d IH]; [reflexivity|].
  rewrite !pinned_to_cons, night_pool_cons, day_pool_cons.
  change (keys ((k, imgs) :: d)) with (k :: keys d).
  destruct (pin_of (basename k)) as [[| |]|];
    [ | | |destruct (is_night (basename k))];
    cbn [split_eqb]; unfold keys in *; cbn [map fst app];
    try (now constructor);
    rewrite !app_assoc; apply Permutation_cons_app;
    rewrite <- !app_assoc; exact IH.
Qed.

Lemma map_key_as_cluster (d : dict (list string)) :
  map cluster_key (map as_cluster d) = keys d.
Proof. unfold keys. rewrite map_map. reflexivity. Qed.

Lemma map_size_as_cluster (d : dict (list string)) :
  map cluster_size (map as_cluster d) = map size_of d.
Proof. rewrite map_map. reflexivity. Qed.

Lemma step1_spec (d : dict (list string)) :
  exists st,
    step1 d = (st, map as_cluster (day_pool d), map as_cluster (night_pool d)) /\
    (forall s, get (allocation st) s = keys (pinned_to s d)) /\
    (forall s, get (counts st) s = list_sum (map size_of (pinned_to s d))) /\
    (forall s, get (night_counts st) s = list_sum (map size_of (pinned_to s d))) /\
    day_counts st = PerSplit 0 0 0.
Proof.
  unfold step1.
  destruct (step1_from d initial_state [] []) as (Ha & Hc & Hn & Hd & Hdp & Hnp).
  destruct (fold_left step1_body d (initial_state, [], [])) as [[st days] nights].
  cbn [fst snd app] in *. subst days nights.
  exists st. repeat split; auto.
  - intros s. rewrite Ha. now destruct s.
  - intros s. rewrite Hc. now destruct s.
  - intros s. rewrite Hn. now destruct s.
Qed.

Lemma allocate_state_spec (d : dict (list string)) :
  let st := allocate_state d in
  Permutation (owned (allocation st)) (keys d) /\
  (forall s, exists rest, get (allocation st) s = keys (pinned_to s d) ++ rest) /\
  day_total st = list_sum (map size_of (day_pool d)).
Proof.
  cbv zeta. unfold allocate_state.
  destruct (step1_spec d) as (st1 & -> & Ha & Hc & Hn & Hd).
  destruct (step2_fold (sort_desc (map as_cluster (night_pool d))) st1)
    as (Hp2 & Hd2 & Hpre2).
  destruct (step3_fold (sort_desc (map as_cluster (day_pool d)))
              (fold_left step2_body (sort_desc (map as_cluster (night_pool d))) st1))
    as (Hp3 & Hd3 & Hpre3).
  repeat split.
  - rewrite Hp3, Hp2.
    rewrite (Permutation_map cluster_key (sort_desc_perm (map as_cluster (day_pool d)))).
    rewrite (Permutation_map cluster_key (sort_desc_perm (map as_cluster (night_pool d)))).
    rewrite !map_key_as_cluster. unfold owned. rewrite !Ha.
    rewrite <- !app_assoc. symmetry. apply keys_five_way.
  - intros s. destruct (Hpre3 s) as [r3 ->]. destruct (Hpre2 s) as [r2 ->].
    rewrite Ha, <- app_assoc. eauto.
  - rewrite Hd3. unfold day_total at 1. rewrite Hd2, Hd. cbn [get at_train at_val at_test].
    rewrite (list_sum_perm _ _ (Permutation_map cluster_size (sort_desc_perm _))).
    now rewrite map_size_as_cluster.
Qed.

Lemma NoDup_app_disjoint {A} (l l' : list A) (x : A) :
  NoDup (l ++ l') -> In x l -> In x l' -> False.
Proof.
  induction l as [|a l IH]; cbn; intros Hnd Hl Hl'; [contradiction|].
  inversion Hnd as [|? ? Hnotin Hnd']; subst.
  destruct Hl as [->|Hl]; [|eauto].
  apply Hnotin. apply in_or_app. now right.
Qed.

(** Ownership lists without repetition are pairwise disjoint. *)
Lemma owner_unique (a : per_split (list string)) (k : string) (s s' : split) :
  NoDup (owned a) -> In k (get a s) -> In k (get a s') -> s' = s.
Proof.
  unfold owned. intros Hnd Hs Hs'.
  assert (Hvt : NoDup (get a val ++ get a test)) by exact (NoDup_app_remove_l _ _ Hnd).
  destruct s, s'; try reflexivity; exfalso.
  - apply (NoDup_app_disjoint _ _ k Hnd Hs). apply in_or_app. now left.
  - apply (NoDup_app_disjoint _ _ k Hnd Hs). apply in_or_app. now right.
  - apply (NoDup_app_disjoint _ _ k Hnd Hs'). apply in_or_app. now left.
  - exact (NoDup_app_disjoint _ _ k Hvt Hs Hs').
  - apply (NoDup_app_disjoint _ _ k Hnd Hs'). apply in_or_app. now right.
  - exact (NoDup_app_disjoint _ _ k Hvt Hs' Hs).
Qed.

Lemma owned_in (a : per_split (list string)) (k : string) :
  In k (owned a) <-> exists s, In k (get a s).
Proof.
  unfold owned. rewrite !in_app_iff. split.
  - intros [H|[H|H]]; [exists train|exists val|exists test]; exact H.
  - intros [[| |] H]; auto.
Qed.

(** ** Capping and writing, for any generator *)

Section Properties.

Variable rng : Type.
Variable random_seed : Z -> rng.
Variable random_shuffle : rng -> list string -> list string * rng.

Local Abbreviation apply_caps := (apply_caps rng random_seed random_shuffle).
Local Abbreviation cap_cluster := (cap_cluster rng random_seed random_shuffle).
Local Abbreviation write_splits := (write_splits rng random_seed random_shuffle).
Local Abbreviation main := (main rng random_seed random_shuffle).

Lemma apply_caps_keys (d : dict (list string)) (cs : dict nat) (seed : Z) :
  forall g, keys (fst (apply_caps g d cs seed)) = keys d.
Proof.
  induction d as [|[k imgs] d IH]; intros g; cbn [Split.apply_caps]; [reflexivity|].
  destruct (lookup cs (basename k)) as [n|].
  - destruct (cap_cluster g imgs n seed) as [ci g1].
    specialize (IH g1). destruct (apply_caps g1 d cs seed) as [capped g2].
    cbn [fst] in *. unfold keys in *. cbn [map fst]. now rewrite IH.
  - specialize (IH g). destruct (apply_caps g d cs seed) as [capped g2].
    cbn [fst] in *. unfold keys in *. cbn [map fst]. now rewrite IH.
Qed.

Lemma apply_caps_uncapped (d : dict (list string)) (cs : dict nat) (seed : Z)
    (k : string) (imgs : list string) :
  lookup cs (basename k) = None ->
  forall g, In (k, imgs) d -> In (k, imgs) (fst (apply_caps g d cs seed)).
Proof.
  intros Hk.
  induction d as [|[k' imgs'] d IH]; intros g; cbn [Split.apply_caps]; [auto|].
  intros [Heq|Hin].
  - inversion Heq; subst. rewrite Hk.
    destruct (apply_caps g d cs seed) as [capped g2]. now left.
  - destruct (lookup cs (basename k')) as [n|].
    + destruct (cap_cluster g imgs' n seed) as [ci g1].
      specialize (IH g1 Hin). destruct (apply_caps g1 d cs seed) as [capped g2].
      now right.
    + specialize (IH g Hin). destruct (apply_caps g d cs seed) as [capped g2].
      now right.
Qed.

(** The generator's state on entry never matters: every use is preceded
    by [random.seed(seed)]. *)
Lemma cap_cluster_reseeds (g g' : rng) (imgs : list string) (n : nat) (seed : Z) :
  cap_cluster g imgs n seed = cap_cluster g' imgs n seed.
Proof. reflexivity. Qed.

Lemma apply_caps_reseeds (d : dict (list string)) (cs : dict nat) (seed : Z) :
  forall g g', fst (apply_caps g d cs seed) = fst (apply_caps g' d cs seed).
Proof.
  induction d as [|[k imgs] d IH]; intros g g'; cbn [Split.apply_caps]; [reflexivity|].
  destruct (lookup cs (basename k)) as [n|].
  - rewrite (cap_cluster_reseeds g g').
    destruct (cap_cluster g' imgs n seed) as [ci g1].
    destruct (apply_caps g1 d cs seed) as [capped g2]. reflexivity.
  - specialize (IH g g').
    destruct (apply_caps g d cs seed) as [capped g2].
    destruct (apply_caps g' d cs seed) as [capped' g2'].
    cbn [fst] in *. now subst.
Qed.

Lemma write_splits_reseeds (g g' : rng) alloc d seed :
  write_splits g alloc d seed = write_splits g' alloc d seed.
Proof. reflexivity. Qed.

Hypothesis shuffle_perm :
  forall g l, Permutation (fst (random_shuffle g l)) l.

Lemma apply_caps_subset (d : dict (list string)) (cs : dict nat) (seed : Z)
    (k : string) (imgs : list string) :
  forall g, In (k, imgs) (fst (apply_caps g d cs seed)) ->
            exists imgs0, In (k, imgs0) d /\ incl imgs imgs0.
Proof.
  induction d as [|[k' imgs'] d IH]; intros g; cbn [Split.apply_caps]; [intros []|].
  destruct (lookup cs (basename k')) as [n|].
  - unfold Split.cap_cluster.
    pose proof (shuffle_perm (random_seed seed) imgs') as Hp.
    destruct (random_shuffle (random_seed seed) imgs') as [sh g1].
    specialize (IH g1). destruct (apply_caps g1 d cs seed) as [capped g2].
    cbn [fst] in *. intros [Heq|Hin].
    + inversion Heq; subst. exists imgs'. split; [now left|].
      intros x Hx. apply (Permutation_in _ Hp).
      rewrite <- (firstn_skipn n sh). apply in_or_app. now left.
    + destruct (IH Hin) as (imgs0 & H0 & Hincl). exists imgs0. split; [now right|auto].
  - specialize (IH g). destruct (apply_caps g d cs seed) as [capped g2].
    cbn [fst] in *. intros [Heq|Hin].
    + inversion Heq; subst. exists imgs. split; [now left|apply incl_refl].
    + destruct (IH Hin) as (imgs0 & H0 & Hincl). exists imgs0. split; [now right|auto].
Qed.

Lemma write_splits_perm (g : rng) alloc d seed (s : split) :
  Permutation (get (fst (write_splits g alloc d seed)) s) (gather d (get alloc s)).
Proof.
  unfold Split.write_splits.
  pose proof (shuffle_perm (random_seed seed) (gather d (get alloc train))) as H1.
  destruct (random_shuffle (random_seed seed) (gather d (get alloc train))) as [tr g1].
  pose proof (shuffle_perm g1 (gather d (get alloc val))) as H2.
  destruct (random_shuffle g1 (gather d (get alloc val))) as [va g2].
  pose proof (shuffle_perm g2 (gather d (get alloc test))) as H3.
  destruct (random_shuffle g2 (gather d (get alloc test))) as [te g3].
  destruct s; assumption.
Qed.

(** C1, amended. Steps 1 to 3 give every cluster of the inventory to
    exactly one partition: the three ownership lists together are a
    rearrangement of the inventory's keys without repetition, hence
    pairwise disjoint and covering.  For a cluster [k] outside the cap
    table, every image of [k] is on the list written for the partition
    that owns [k]; an image of [k] can be on another partition's list
    only as an image of a different cluster owned by that partition, so
    never when every image path belongs to one cluster, and not otherwise
    excluded: the lists are written without purging repeated paths. *)
Theorem clusters_never_split :
  forall (g g' : rng) (seed : Z) (d0 : dict (list string)),
    NoDup (keys d0) ->
    let d := fst (apply_caps g d0 caps seed) in
    let alloc := fst (allocate_exact_splits d) in
    let out := fst (write_splits g' alloc d seed) in
    Permutation (get alloc train ++ get alloc val ++ get alloc test) (keys d0) /\
    NoDup (get alloc train ++ get alloc val ++ get alloc test) /\
    (forall k, In k (keys d0) ->
       exists s, In k (get alloc s) /\
                 forall s', In k (get alloc s') -> s' = s) /\
    (forall k imgs s,
       In (k, imgs) d0 -> lookup caps (basename k) = None ->
       In k (get alloc s) ->
       (forall x, In x imgs -> In x (get out s)) /\
       (forall s' x, s' <> s -> In x imgs -> In x (get out s') ->
          exists k' imgs',
            k' <> k /\ In (k', imgs') d0 /\ In x imgs' /\ In k' (get alloc s')) /\
       (images_disjoint d0 ->
        forall s' x, s' <> s -> In x imgs -> ~ In x (get out s'))).
Proof.
  intros g g' seed d0 Hnd d alloc out.
  assert (Hkeys : keys d = keys d0) by apply apply_caps_keys.
  assert (Hnd' : NoDup (keys d)) by now rewrite Hkeys.
  destruct (allocate_state_spec d) as (Hperm & _ & _).
  change (allocation (allocate_state d)) with alloc in Hperm.
  fold (owned alloc).
  assert (Hndo : NoDup (owned alloc)).
  { apply (Permutation_NoDup (l := keys d)); [now symmetry|assumption]. }
  assert (Himgs : forall k imgs s,
            In (k, imgs) d0 -> lookup caps (basename k) = None ->
            In k (get alloc s) ->
            forall s' x, In x imgs -> In x (get out s') -> s' <> s ->
              exists k' imgs',
                k' <> k /\ In (k', imgs') d0 /\ In x imgs' /\ In k' (get alloc s')).
  { intros k imgs s Hin Hcap Hown s' x Hx Hout Hne.
    apply (Permutation_in _ (write_splits_perm g' alloc d seed s')) in Hout.
    apply in_flat_map in Hout. destruct Hout as (k' & Hk' & Hxk').
    unfold images_of in Hxk'.
    destruct (lookup d k') as [imgs1|] eqn:Hl; [|contradiction].
    apply lookup_some_in in Hl.
    destruct (apply_caps_subset d0 caps seed k' imgs1 g Hl)
      as (imgs0 & Hin0 & Hincl).
    exists k', imgs0. repeat split; auto.
    intros ->. apply Hne. exact (owner_unique alloc k s s' Hndo Hown Hk'). }
  split; [now rewrite Hperm, Hkeys|].
  split; [exact Hndo|].
  split.
  - intros k Hk. rewrite <- Hkeys in Hk.
    apply (Permutation_in _ (Permutation_sym Hperm)) in Hk.
    apply owned_in in Hk. destruct Hk as [s Hs].
    exists s. split; [assumption|].
    intros s' Hs'. exact (owner_unique alloc k s s' Hndo Hs Hs').
  - intros k imgs s Hin Hcap Hown. split; [|split].
    + intros x Hx.
      apply (Permutation_in _
               (Permutation_sym (write_splits_perm g' alloc d seed s))).
      apply in_flat_map. exists k. split; [assumption|].
      unfold images_of.
      rewrite (lookup_in d k imgs Hnd'
                 (apply_caps_uncapped d0 caps seed k imgs Hcap g Hin)).
      assumption.
    + intros s' x Hne Hx Hout. eapply Himgs; eauto.
    + intros Hdisj s' x Hne Hx Hout.
      destruct (Himgs k imgs s Hin Hcap Hown s' x Hx Hout Hne)
        as (k' & imgs' & Hkk & Hin' & Hx' & _).
      apply Hkk. exact (Hdisj _ _ _ _ x Hin' Hin Hx' Hx).
Qed.

(** C9. A run is determined by the assignment table and the seed (cap
    table, pin table and target ratios are literals of the script): the
    state in which the run finds the generator has no influence on the
    ownership lists, the statistics, the order of the written lists or
    the contents of the three files. *)
Theorem allocator_deterministic :
  forall (g g' : rng) (assign_df : list row) (seed : Z),
    main g assign_df seed = main g' assign_df seed.
Proof.
  intros g g' assign_df seed. unfold Split.main.
  pose proof (apply_caps_reseeds (build_cluster_to_images assign_df) caps seed g g')
    as Hcaps.
  destruct (apply_caps g (build_cluster_to_images assign_df) caps seed) as [d g1].
  destruct (apply_caps g' (build_cluster_to_images assign_df) caps seed) as [d' g1'].
  cbn [fst] in Hcaps. subst d'.
  destruct (allocate_exact_splits d) as [alloc st].
  now rewrite (write_splits_reseeds g1 g1').
Qed.

End Properties.

Lemma lcg_shuffle_perm (g : Z) (l : list string) :
  Permutation (fst (lcg_shuffle g l)) l.
Proof.
  unfold lcg_shuffle. cbn [fst].
  rewrite Permutation_app_comm. now rewrite firstn_skipn.
Qed.

Lemma example_inventory_keys : NoDup (keys example_inventory).
Proof. apply NoDup_keys_build. Qed.

Lemma clusters_never_split_witness :
  NoDup (keys example_inventory) /\
  Permutation
    (owned (fst (allocate_exact_splits
                   (fst (apply_caps Z lcg_seed lcg_shuffle 0%Z
                           example_inventory caps 42%Z)))))
    (keys example_inventory).
Proof.
  split; [exact example_inventory_keys|].
  exact (proj1 (clusters_never_split Z lcg_seed lcg_shuffle lcg_shuffle_perm
                  0%Z 0%Z 42%Z example_inventory example_inventory_keys)).
Defined.

(** C1 fails as stated for an inventory that lists an image under two
    clusters: neither cluster is in the cap table, steps 1 to 3 give the
    first to train and the second to val, and the image is written to the
    train list and to the val list. *)
Lemma shared_image_in_two_lists :
  NoDup (keys shared_inventory) /\
  In ("unique/night_bg_010.jpg", ["x.jpg"]) shared_inventory /\
  In ("unique/night_bg_011.jpg", ["x.jpg"]) shared_inventory /\
  lookup caps (basename "unique/night_bg_010.jpg") = None /\
  lookup caps (basename "unique/night_bg_011.jpg") = None /\
  run_allocation (main Z lcg_seed lcg_shuffle 0%Z shared_table 42%Z)
  = PerSplit ["unique/night_bg_010.jpg"] ["unique/night_bg_011.jpg"] [] /\
  run_lists (main Z lcg_seed lcg_shuffle 0%Z shared_table 42%Z)
  = PerSplit ["x.jpg"] ["x.jpg"] [].
Proof.
  split; [apply NoDup_keys_build|].
  repeat split; vm_compute; auto.
Qed.

Lemma in_keys_pinned_to (s : split) (d : dict (list string)) (k : string) :
  In k (keys (pinned_to s d)) <->
  (exists imgs, In (k, imgs) d) /\ pin_of (basename k) = Some s.
Proof.
  unfold keys, pinned_to. rewrite in_map_iff. split.
  - intros ([k' imgs] & <- & Hin). apply filter_In in Hin.
    cbn [fst] in *. destruct Hin as [Hin Hpin]. split; [eauto|].
    destruct (pin_of (basename k')) as [s'|]; [|discriminate].
    apply split_eqb_eq in Hpin. now subst.
  - intros [[imgs Hin] Hpin]. exists (k, imgs). split; [reflexivity|].
    apply filter_In. cbn [fst]. split; [assumption|].
    rewrite Hpin. apply split_eqb_refl.
Qed.

Lemma in_pool_unpinned (d : dict (list string)) (k : string) :
  In k (keys (day_pool d)) \/ In k (keys (night_pool d)) ->
  pin_of (basename k) = None.
Proof.
  unfold keys, day_pool, night_pool. rewrite !in_map_iff.
  intros [([k' imgs] & <- & Hin)|([k' imgs] & <- & Hin)];
    apply filter_In in Hin; cbn [fst] in *; destruct Hin as [_ Hin];
    now destruct (pin_of (basename k')).
Qed.

Lemma pinned_counts_by_tag (s : split) (d : dict (list string)) :
  map night_count_of (pinned_to s d) = map size_of (pinned_to s d) /\
  list_sum (map day_count_of (pinned_to s d)) = 0.
Proof.
  assert (H : forall e, In e (pinned_to s d) -> is_night (basename (fst e)) = true).
  { intros e He. apply filter_In in He. destruct He as [_ He].
    destruct (pin_of (basename (fst e))) as [s'|] eqn:Hpin; [|discriminate].
    exact (pinned_is_night _ _ Hpin). }
  induction (pinned_to s d) as [|e l IH]; [split; reflexivity|].
  destruct IH as [IH1 IH2]; [intros; apply H; now right|].
  unfold list_sum in *. cbn [map fold_right]. unfold night_count_of at 1, day_count_of at 1.
  rewrite (H e) by now left. rewrite IH1, IH2. split; reflexivity.
Qed.

(** C4. When the first loop ends, hence before steps 2 and 3 run, every
    cluster of the pin table is on the list of its designated partition and
    of no other, and in neither pool; each partition's list holds exactly
    its pinned clusters, its total is the sum of their sizes, and its day
    and night totals are the sums of their sizes classified by tag (every
    name of the pin table being a night name, the day totals are still
    zero).  Steps 2 and 3 only append to these lists. *)
Theorem pinned_clusters_seeded :
  forall (d : dict (list string)),
    let st := fst (fst (step1 d)) in
    let day_clusters := snd (fst (step1 d)) in
    let night_clusters := snd (step1 d) in
    (forall k imgs s,
       In (k, imgs) d -> pin_of (basename k) = Some s ->
       In k (get (allocation st) s) /\
       (forall s', In k (get (allocation st) s') -> s' = s) /\
       ~ In k (map cluster_key day_clusters) /\
       ~ In k (map cluster_key night_clusters)) /\
    (forall s,
       get (allocation st) s = keys (pinned_to s d) /\
       get (counts st) s = list_sum (map size_of (pinned_to s d)) /\
       get (day_counts st) s = list_sum (map day_count_of (pinned_to s d)) /\
       get (night_counts st) s = list_sum (map night_count_of (pinned_to s d))) /\
    (forall s, exists rest,
       get (fst (allocate_exact_splits d)) s = get (allocation st) s ++ rest).
Proof.
  intros d. cbv zeta.
  destruct (step1_spec d) as (st & Hstep & Ha & Hc & Hn & Hd).
  rewrite Hstep. cbn [fst snd]. rewrite !map_key_as_cluster.
  split; [|split].
  - intros k imgs s Hin Hpin. rewrite Ha. repeat split.
    + apply in_keys_pinned_to. eauto.
    + intros s' Hs'. rewrite Ha in Hs'. apply in_keys_pinned_to in Hs'.
      destruct Hs' as [_ Hs']. congruence.
    + intros Hk. assert (pin_of (basename k) = None)
        by (apply (in_pool_unpinned d); now left). congruence.
    + intros Hk. assert (pin_of (basename k) = None)
        by (apply (in_pool_unpinned d); now right). congruence.
  - intros s. destruct (pinned_counts_by_tag s d) as [Hnight Hday].
    rewrite Hnight, Hday, Hd. repeat split; auto. now destruct s.
  - intros s. destruct (allocate_state_spec d) as (_ & Hpre & _).
    destruct (Hpre s) as [rest Hrest]. exists rest.
    unfold allocate_exact_splits. cbn [fst]. now rewrite Hrest, Ha.
Qed.

(** C6 fails as stated: a cluster named after neither convention (here a
    synthetic background, [fake_night_bg_001.jpg]) raises nothing; the
    allocation completes with the cluster owned by train and its two
    images counted as day images. *)
Lemma unresolved_tag_not_raised :
  String.prefix "night_bg_" (basename "unique/fake_night_bg_001.jpg") = false /\
  String.prefix "day_bg_" (basename "unique/fake_night_bg_001.jpg") = false /\
  allocate_exact_splits [("unique/fake_night_bg_001.jpg", ["a.jpg"; "b.jpg"])]
  = (PerSplit ["unique/fake_night_bg_001.jpg"] [] [],
     PerSplit (Stats 2 0 2) (Stats 0 0 0) (Stats 0 0 0)).
Proof. repeat split; vm_compute; reflexivity. Qed.

(** C6, amended. The allocator has no error path.  A cluster that is not
    pinned and whose basename does not start with [night_bg_], whatever
    else its name is, is treated as a day cluster: it enters the day pool
    with its size, one partition owns it after step 3, and the day counts
    reported for the three partitions add up to the sizes of all such
    clusters. *)
Theorem unmatched_names_counted_as_day :
  forall (d : dict (list string)) (k : string) (imgs : list string),
    In (k, imgs) d ->
    pin_of (basename k) = None ->
    is_night (basename k) = false ->
    let alloc := fst (allocate_exact_splits d) in
    let st := snd (allocate_exact_splits d) in
    In (k, basename k, List.length imgs) (snd (fst (step1 d))) /\
    In (k, imgs) (day_pool d) /\
    (exists s, In k (get alloc s)) /\
    day (get st train) + day (get st val) + day (get st test)
    = list_sum (map size_of (day_pool d)).
Proof.
  intros d k imgs Hin Hpin Hnight. cbv zeta.
  assert (Hpool : In (k, imgs) (day_pool d)).
  { apply filter_In. cbn [fst]. now rewrite Hpin, Hnight. }
  destruct (step1_spec d) as (st1 & Hstep & _).
  destruct (allocate_state_spec d) as (Hperm & _ & Hday).
  repeat split.
  - rewrite Hstep. cbn [fst snd].
    change (k, basename k, List.length imgs) with (as_cluster (k, imgs)).
    now apply in_map.
  - exact Hpool.
  - apply owned_in. unfold allocate_exact_splits. cbn [fst].
    apply (Permutation_in _ (Permutation_sym Hperm)).
    unfold keys. now apply (in_map fst) in Hin.
  - unfold allocate_exact_splits, split_stats. cbn [snd].
    rewrite !get_tabulate. cbn [day]. exact Hday.
Qed.

Lemma unmatched_names_counted_as_day_witness :
  In ("unique/fake_night_bg_001.jpg", ["a.jpg"; "b.jpg"])
     (day_pool [("unique/fake_night_bg_001.jpg", ["a.jpg"; "b.jpg"])]).
Proof.
  refine (proj1 (proj2 (unmatched_names_counted_as_day
            [("unique/fake_night_bg_001.jpg", ["a.jpg"; "b.jpg"])]
            "unique/fake_night_bg_001.jpg" ["a.jpg"; "b.jpg"] _ _ _))).
  - now left.
  - reflexivity.
  - reflexivity.
Defined.

(** ** The definitions at work *)

(** Scenario C: after the pinned 500, the night clusters go to val (300),
    test (200) and train (100), then both day clusters to train. *)
Example scenario_c_trace :
  allocate_exact_splits scenario_c
  = (PerSplit ["unique/night_bg_003.jpg"; "unique/night_bg_012.jpg";
               "unique/day_bg_002.jpg"; "unique/day_bg_001.jpg"]
              ["unique/night_bg_011.jpg"]
              ["unique/night_bg_010.jpg"],
     PerSplit (Stats 250 600 850) (Stats 0 300 300) (Stats 0 200 200)).
Proof. vm_compute. reflexivity. Qed.

(** The deficits are binary64 values: with counts 6, 1 and 3 the exact
    deficits of train and val are both 1/10, but [0.70 - 0.6] rounds below
    [0.20 - 0.1], so val is chosen. *)
Example deficits_are_binary64 :
  max_key (fun a b => PrimFloat.ltb b a) (deficits (PerSplit 6 1 3)) = val.
Proof. vm_compute. reflexivity. Qed.

Example basename_examples :
  basename "unique/night/night_bg_003.jpg" = "night_bg_003.jpg" /\
  basename "night_bg_003.jpg" = "night_bg_003.jpg" /\
  basename "unique/" = "".
Proof. repeat split. Qed.

(** ** The inventory built from the assignment table *)

Lemma lookup_setdefault_append (d : dict (list string)) (k x k' : string) :
  lookup (setdefault_append d k x) k'
  = if String.eqb k k'
    then Some (match lookup d k with Some v => v ++ [x] | None => [x] end)
    else lookup d k'.
Proof.
  induction d as [|[k0 v] d IH]; cbn [setdefault_append lookup].
  - reflexivity.
  - destruct (String.eqb_spec k0 k) as [->|Hne]; cbn [lookup].
    + destruct (String.eqb_spec k k'); [reflexivity|reflexivity].
    + rewrite IH. destruct (String.eqb_spec k0 k') as [->|Hne'].
      * destruct (String.eqb_spec k k'); [congruence|reflexivity].
      * reflexivity.
Qed.

Lemma lookup_build_from (assign_df : list row) (k : string) :
  forall m,
    lookup (fold_left
              (fun mapping r =>
                 setdefault_append mapping (cluster_unique_image r) (image_path r))
              assign_df m) k
    = match lookup m k, images_assigned assign_df k with
      | Some v, l => Some (v ++ l)
      | None, [] => None
      | None, l => Some l
      end.
Proof.
  unfold images_assigned.
  induction assign_df as [|r rows IH]; intros m; cbn [fold_left filter map].
  - destruct (lookup m k); [now rewrite app_nil_r|reflexivity].
  - rewrite IH, lookup_setdefault_append.
    destruct (String.eqb_spec (cluster_unique_image r) k) as [->|Hne];
      cbn [map].
    + destruct (lookup m k); [|reflexivity].
      now rewrite <- app_assoc.
    + reflexivity.
Qed.

Lemma size_setdefault_append (d : dict (list string)) (k x : string) :
  list_sum (map size_of (setdefault_append d k x)) = S (list_sum (map size_of d)).
Proof.
  induction d as [|[k0 v] d IH]; cbn [setdefault_append]; [reflexivity|].
  destruct (String.eqb k0 k); unfold list_sum in *; cbn [map fold_right].
  - unfold size_of. cbn [snd]. rewrite length_app. cbn. lia.
  - rewrite IH. lia.
Qed.

Lemma size_build_from (assign_df : list row) :
  forall m,
    list_sum (map size_of
                (fold_left
                   (fun mapping r =>
                      setdefault_append mapping (cluster_unique_image r)
                                        (image_path r))
                   assign_df m))
    = list_sum (map size_of m) + List.length assign_df.
Proof.
  induction assign_df as [|r rows IH]; intros m; cbn [fold_left List.length].
  - lia.
  - rewrite IH, size_setdefault_append. lia.
Qed.

(** X1. The inventory built from the assignment table has each cluster
    once, gives each cluster exactly the images of its rows in the order
    of the rows (and knows no cluster without a row), and holds as many
    images as the table has rows. *)
Theorem build_cluster_to_images_groups_rows :
  forall (assign_df : list row),
    let d := build_cluster_to_images assign_df in
    NoDup (keys d) /\
    (forall k, lookup d k = match images_assigned assign_df k with
                            | [] => None
                            | l => Some l
                            end) /\
    list_sum (map size_of d) = List.length assign_df.
Proof.
  intros assign_df d. split; [apply NoDup_keys_build|]. split.
  - intros k. unfold d, build_cluster_to_images.
    rewrite lookup_build_from. cbn [lookup].
    now destruct (images_assigned assign_df k).
  - unfold d, build_cluster_to_images. now rewrite size_build_from.
Qed.

Lemma NoDup_map_eq {A B} (f : A -> B) (l : list A) (a b : A) :
  NoDup (map f l) -> In a l -> In b l -> f a = f b -> a = b.
Proof.
  induction l as [|x l IH]; cbn; intros Hnd Ha Hb Hf; [contradiction|].
  inversion Hnd as [|? ? Hnotin Hnd']; subst.
  destruct Ha as [->|Ha], Hb as [->|Hb]; auto.
  - exfalso. apply Hnotin. rewrite Hf. now apply in_map.
  - exfalso. apply Hnotin. rewrite <- Hf. now apply in_map.
Qed.

Lemma in_build_inventory (assign_df : list row) (k : string) (l : list string) :
  In (k, l) (build_cluster_to_images assign_df) ->
  l = images_assigned assign_df k.
Proof.
  intros Hin.
  apply (lookup_in _ _ _ (NoDup_keys_build assign_df)) in Hin.
  unfold build_cluster_to_images in Hin.
  rewrite lookup_build_from in Hin. cbn [lookup] in Hin.
  destruct (images_assigned assign_df k); congruence.
Qed.

(** X2. When no image path occurs in two rows of the assignment table,
    every image of the inventory belongs to one cluster only, and no
    cluster lists an image twice. *)
Theorem distinct_paths_give_disjoint_clusters :
  forall (assign_df : list row),
    NoDup (map image_path assign_df) ->
    images_disjoint (build_cluster_to_images assign_df) /\
    (forall k l, In (k, l) (build_cluster_to_images assign_df) -> NoDup l).
Proof.
  intros assign_df Hnd. split.
  - intros k1 l1 k2 l2 x H1 H2 Hx1 Hx2.
    apply in_build_inventory in H1. apply in_build_inventory in H2. subst l1 l2.
    unfold images_assigned in Hx1, Hx2.
    apply in_map_iff in Hx1. destruct Hx1 as (r1 & Hp1 & Hr1).
    apply in_map_iff in Hx2. destruct Hx2 as (r2 & Hp2 & Hr2).
    apply filter_In in Hr1. destruct Hr1 as [Hr1 Hk1].
    apply filter_In in Hr2. destruct Hr2 as [Hr2 Hk2].
    apply String.eqb_eq in Hk1. apply String.eqb_eq in Hk2.
    assert (r1 = r2) by (apply (NoDup_map_eq image_path assign_df); congruence).
    congruence.
  - intros k l Hin. apply in_build_inventory in Hin. subst l.
    unfold images_assigned.
    induction assign_df as [|r rows IH]; cbn [filter map]; [constructor|].
    cbn [map] in Hnd. inversion Hnd as [|? ? Hnotin Hnd']; subst.
    destruct (String.eqb (cluster_unique_image r) k); cbn [map]; [|auto].
    constructor; [|auto].
    intros Hin. apply Hnotin. apply in_map_iff in Hin.
    destruct Hin as (r' & Hp & Hr'). apply filter_In in Hr'.
    apply in_map_iff. exists r'. tauto.
Qed.

Lemma distinct_paths_give_disjoint_clusters_witness :
  images_disjoint example_inventory.
Proof.
  refine (proj1 (distinct_paths_give_disjoint_clusters example_table _)).
  unfold example_table. cbn [map image_path].
  repeat (constructor; [cbn [In]; intuition discriminate|]). constructor.
Defined.

(** ** Capping, entry by entry *)

Section Capping.

Variable rng : Type.
Variable random_seed : Z -> rng.
Variable random_shuffle : rng -> list string -> list string * rng.

Local Abbreviation apply_caps := (apply_caps rng random_seed random_shuffle).
Local Abbreviation cap_cluster := (cap_cluster rng random_seed random_shuffle).

Lemma apply_caps_entries (d : dict (list string)) (cs : dict nat) (seed : Z) :
  forall g,
    Forall2
      (fun e e' =>
         fst e' = fst e /\
         snd e' = match lookup cs (basename (fst e)) with
                  | Some n => firstn n (fst (random_shuffle (random_seed seed) (snd e)))
                  | None => snd e
                  end)
      d (fst (apply_caps g d cs seed)).
Proof.
  induction d as [|[k imgs] d IH]; intros g; cbn [Split.apply_caps fst snd].
  - constructor.
  - destruct (lookup cs (basename k)) as [n|] eqn:Hk.
    + unfold Split.cap_cluster.
      destruct (random_shuffle (random_seed seed) imgs) as [sh g1] eqn:Hsh.
      specialize (IH g1). destruct (apply_caps g1 d cs seed) as [capped g2].
      cbn [fst] in *. constructor; [|exact IH].
      cbn [fst snd]. rewrite Hk, Hsh. now split.
    + specialize (IH g). destruct (apply_caps g d cs seed) as [capped g2].
      cbn [fst] in *. constructor; [|exact IH].
      cbn [fst snd]. now rewrite Hk.
Qed.

(** X3. The sample kept for a capped cluster is the one [cap_cluster]
    draws when called on that cluster alone, from any state of the
    generator: it depends on the cluster's own images, its cap and the
    seed, not on the place of the cluster in the inventory or on the other
    clusters.  Keys keep their order and clusters outside the cap table
    their images. *)
Theorem capping_is_per_cluster :
  forall (d : dict (list string)) (cs : dict nat) (seed : Z) (g g' : rng),
    Forall2
      (fun e e' =>
         fst e' = fst e /\
         snd e' = match lookup cs (basename (fst e)) with
                  | Some n => fst (cap_cluster g' (snd e) n seed)
                  | None => snd e
                  end)
      d (fst (apply_caps g d cs seed)).
Proof.
  intros d cs seed g g'.
  eapply Forall2_impl; [|apply apply_caps_entries].
  intros e e' [Hk Hv]. split; [assumption|]. rewrite Hv.
  destruct (lookup cs (basename (fst e))); [|reflexivity].
  unfold Split.cap_cluster.
  now destruct (random_shuffle (random_seed seed) (snd e)).
Qed.

Hypothesis shuffle_perm :
  forall g l, Permutation (fst (random_shuffle g l)) l.

(** X4. Capping keeps, of a cluster with [n] images and cap [c], exactly
    [min c n] images, and what it keeps together with what it drops is a
    rearrangement of the cluster's images: nothing is invented and nothing
    is kept twice; a cluster no larger than its cap keeps all its images. *)
Theorem capping_keeps_a_sample :
  forall (d : dict (list string)) (cs : dict nat) (seed : Z) (g : rng),
    Forall2
      (fun e e' =>
         fst e' = fst e /\
         match lookup cs (basename (fst e)) with
         | Some c =>
             List.length (snd e') = Nat.min c (List.length (snd e)) /\
             (exists dropped, Permutation (snd e' ++ dropped) (snd e)) /\
             (List.length (snd e) <= c -> Permutation (snd e') (snd e))
         | None => snd e' = snd e
         end)
      d (fst (apply_caps g d cs seed)).
Proof.
  intros d cs seed g.
  eapply Forall2_impl; [|apply apply_caps_entries].
  intros e e' [Hk Hv]. split; [assumption|].
  destruct (lookup cs (basename (fst e))) as [c|]; [|assumption].
  pose proof (shuffle_perm (random_seed seed) (snd e)) as Hp.
  rewrite Hv. repeat split.
  - rewrite length_firstn, (Permutation_length Hp). reflexivity.
  - exists (skipn c (fst (random_shuffle (random_seed seed) (snd e)))).
    now rewrite firstn_skipn.
  - intros Hle. rewrite firstn_all2; [assumption|].
    now rewrite (Permutation_length Hp).
Qed.

End Capping.

Lemma capping_keeps_a_sample_witness :
  Forall2
    (fun e e' =>
       fst e' = fst e /\
       match lookup caps (basename (fst e)) with
       | Some c =>
           List.length (snd e') = Nat.min c (List.length (snd e)) /\
           (exists dropped, Permutation (snd e' ++ dropped) (snd e)) /\
           (List.length (snd e) <= c -> Permutation (snd e') (snd e))
       | None => snd e' = snd e
       end)
    example_inventory
    (fst (apply_caps Z lcg_seed lcg_shuffle 0%Z example_inventory caps 42%Z)).
Proof.
  exact (capping_keeps_a_sample Z lcg_seed lcg_shuffle lcg_shuffle_perm
           example_inventory caps 42%Z 0%Z).
Defined.

(** ** Largest first *)

Lemma insert_desc_sorted (c : cluster) (l : list cluster) :
  StronglySorted size_ge l -> StronglySorted size_ge (insert_desc c l).
Proof.
  induction l as [|c' l IH]; intros Hs; cbn [insert_desc].
  - repeat constructor.
  - inversion Hs as [|? ? Hl Hall]; subst.
    destruct (Nat.ltb_spec (cluster_size c) (cluster_size c')) as [Hlt|Hge].
    + constructor; [now apply IH|].
      apply Forall_forall. intros x Hx.
      apply (Permutation_in _ (insert_desc_perm c l)) in Hx.
      destruct Hx as [<-|Hx]; [unfold size_ge; lia|].
      rewrite Forall_forall in Hall. now apply Hall.
    + constructor; [assumption|]. constructor; [exact Hge|].
      rewrite Forall_forall in *. intros x Hx.
      specialize (Hall x Hx). unfold size_ge in *. lia.
Qed.

Lemma insert_desc_stable (n : nat) (c : cluster) (l : list cluster) :
  filter (fun x => Nat.eqb (cluster_size x) n) (insert_desc c l)
  = filter (fun x => Nat.eqb (cluster_size x) n) (c :: l).
Proof.
  induction l as [|c' l IH]; cbn [insert_desc]; [reflexivity|].
  destruct (Nat.ltb_spec (cluster_size c) (cluster_size c')) as [Hlt|Hge];
    [|reflexivity].
  cbn [filter] in *. rewrite IH.
  destruct (Nat.eqb_spec (cluster_size c) n) as [Hc|Hc];
    destruct (Nat.eqb_spec (cluster_size c') n) as [Hc'|Hc'];
    try reflexivity.
  lia.
Qed.

(** X5. The sort that precedes steps 2 and 3 rearranges the pool into
    non-increasing size, and clusters of equal size keep the order in
    which the inventory lists them. *)
Theorem sort_desc_largest_first_stable :
  forall (l : list cluster),
    Permutation (sort_desc l) l /\
    StronglySorted size_ge (sort_desc l) /\
    (forall n, filter (fun x => Nat.eqb (cluster_size x) n) (sort_desc l)
               = filter (fun x => Nat.eqb (cluster_size x) n) l).
Proof.
  intros l. split; [apply sort_desc_perm|]. split.
  - induction l as [|c l IH]; cbn; [constructor|].
    now apply insert_desc_sorted.
  - intros n. induction l as [|c l IH]; [reflexivity|].
    cbn [sort_desc fold_right]. rewrite insert_desc_stable.
    cbn [filter]. unfold sort_desc in IH. now rewrite IH.
Qed.

(** ** The partition chosen in step 3 *)

Lemma max_key_Z (d : per_split Z) :
  (forall s, (get d s <= get d (max_key Z.gtb d))%Z) /\
  (forall s, get d s = get d (max_key Z.gtb d) -> rank (max_key Z.gtb d) <= rank s).
Proof.
  destruct d as [a b c]. unfold max_key. cbn [fold_left get at_train at_val at_test].
  destruct (Z.gtb_spec b a) as [Hba|Hba]; cbn [get at_train at_val at_test].
  - destruct (Z.gtb_spec c b) as [Hcb|Hcb]; cbn [get at_train at_val at_test];
      split; intros [| |]; cbn [get at_train at_val at_test rank]; lia.
  - destruct (Z.gtb_spec c a) as [Hca|Hca]; cbn [get at_train at_val at_test];
      split; intros [| |]; cbn [get at_train at_val at_test rank]; lia.
Qed.

(** X6. Step 3 gives a day cluster to a partition whose excess of night
    over day images is the largest, the earliest such one in the order
    train, val, test; the cluster is appended to that partition's list and
    its size added to that partition's total and day total, and nothing
    else changes. *)
Theorem day_cluster_goes_to_most_night_heavy :
  forall (st : alloc_state) (c : cluster),
    exists s,
      (forall s', (get (imbalances st) s' <= get (imbalances st) s)%Z) /\
      (forall s', get (imbalances st) s' = get (imbalances st) s ->
                  rank s <= rank s') /\
      get (allocation (step3_body st c)) s
      = get (allocation st) s ++ [cluster_key c] /\
      get (counts (step3_body st c)) s = get (counts st) s + cluster_size c /\
      get (day_counts (step3_body st c)) s
      = get (day_counts st) s + cluster_size c /\
      night_counts (step3_body st c) = night_counts st /\
      (forall s', s' <> s ->
         get (allocation (step3_body st c)) s' = get (allocation st) s' /\
         get (counts (step3_body st c)) s' = get (counts st) s' /\
         get (day_counts (step3_body st c)) s' = get (day_counts st) s').
Proof.
  intros st c. exists (max_key Z.gtb (imbalances st)).
  destruct (max_key_Z (imbalances st)) as [Hmax Hfirst].
  unfold step3_body, add_day. cbn [allocation counts day_counts night_counts].
  rewrite !get_set_same. repeat split; auto;
    now rewrite get_set_other by congruence.
Qed.

(** ** The statistics agree with the lists *)

Lemma sizes_in_app (d : dict (list string)) (l l' : list string) :
  sizes_in d (l ++ l') = sizes_in d l + sizes_in d l'.
Proof. unfold sizes_in. now rewrite map_app, list_sum_app. Qed.

Lemma sizes_in_keys (d l : dict (list string)) :
  NoDup (keys d) -> incl l d ->
  sizes_in d (keys l) = list_sum (map size_of l).
Proof.
  intros Hnd. unfold sizes_in, keys.
  induction l as [|[k imgs] l IH]; intros Hincl; [reflexivity|].
  unfold list_sum in *. cbn [map fold_right fst]. rewrite IH.
  - unfold images_of, size_of.
    rewrite (lookup_in d k imgs Hnd) by (apply Hincl; now left). reflexivity.
  - intros e He. apply Hincl. now right.
Qed.

Lemma accounted_add_night d st s k n :
  accounted d st -> n = List.length (images_of d k) ->
  accounted d (add_night st s k n).
Proof.
  intros Hacc -> s'. destruct (Hacc s') as [H1 H2].
  unfold add_night. cbn [allocation counts day_counts night_counts].
  destruct (split_eq_dec s s') as [->|Hne].
  - rewrite !get_set_same, sizes_in_app. unfold sizes_in at 2, list_sum.
    cbn [map fold_right]. lia.
  - rewrite !get_set_other by assumption. auto.
Qed.

Lemma accounted_add_day d st s k n :
  accounted d st -> n = List.length (images_of d k) ->
  accounted d (add_day st s k n).
Proof.
  intros Hacc -> s'. destruct (Hacc s') as [H1 H2].
  unfold add_day. cbn [allocation counts day_counts night_counts].
  destruct (split_eq_dec s s') as [->|Hne].
  - rewrite !get_set_same, sizes_in_app. unfold sizes_in at 2, list_sum.
    cbn [map fold_right]. lia.
  - rewrite !get_set_other by assumption. auto.
Qed.

Lemma accounted_steps d (l : list cluster) :
  Forall (fun c => cluster_size c = List.length (images_of d (cluster_key c))) l ->
  forall st, accounted d st ->
             accounted d (fold_left step2_body l st) /\
             accounted d (fold_left step3_body l st).
Proof.
  induction 1 as [|c l Hc _ IH]; intros st Hacc; cbn [fold_left]; [auto|].
  split.
  - apply IH. unfold step2_body. now apply accounted_add_night.
  - apply IH. unfold step3_body. now apply accounted_add_day.
Qed.

Lemma pool_sizes d (pool : dict (list string)) :
  NoDup (keys d) -> incl pool d ->
  Forall (fun c => cluster_size c = List.length (images_of d (cluster_key c)))
         (sort_desc (map as_cluster pool)).
Proof.
  intros Hnd Hincl. apply Forall_forall. intros c Hc.
  apply (Permutation_in _ (sort_desc_perm _)) in Hc.
  apply in_map_iff in Hc. destruct Hc as ([k imgs] & <- & He).
  unfold as_cluster, cluster_size, cluster_key, images_of. cbn [fst snd].
  now rewrite (lookup_in d k imgs Hnd (Hincl _ He)).
Qed.

Lemma allocate_state_accounted (d : dict (list string)) :
  NoDup (keys d) -> accounted d (allocate_state d).
Proof.
  intros Hnd. unfold allocate_state.
  destruct (step1_spec d) as (st1 & -> & Ha & Hc & Hn & Hd).
  assert (H1 : accounted d st1).
  { intros s. rewrite Ha, Hc, Hn, Hd. split; [|now destruct s].
    symmetry. apply sizes_in_keys; [assumption|].
    intros e He. now apply filter_In in He. }
  apply accounted_steps.
  - apply pool_sizes; [assumption|]. intros e He. now apply filter_In in He.
  - apply accounted_steps; [|assumption].
    apply pool_sizes; [assumption|]. intros e He. now apply filter_In in He.
Qed.

Lemma totals_add_up (d : dict (list string)) :
  NoDup (keys d) ->
  get (counts (allocate_state d)) train + get (counts (allocate_state d)) val
  + get (counts (allocate_state d)) test
  = list_sum (map size_of d).
Proof.
  intros Hnd. pose proof (allocate_state_accounted d Hnd) as Hacc.
  destruct (allocate_state_spec d) as (Hperm & _ & _).
  rewrite (proj1 (Hacc train)), (proj1 (Hacc val)), (proj1 (Hacc test)).
  rewrite <- !sizes_in_app, <- app_assoc.
  fold (owned (allocation (allocate_state d))).
  rewrite <- (sizes_in_keys d d Hnd (incl_refl d)).
  unfold sizes_in. apply list_sum_perm. now apply Permutation_map.
Qed.

Lemma caps_positive (b : string) (c : nat) : lookup caps b = Some c -> 0 < c.
Proof.
  unfold caps. cbn [lookup].
  destruct (String.eqb "night_bg_003.jpg" b); [intros H; inversion H; lia|].
  destruct (String.eqb "night_bg_002.jpg" b); [intros H; inversion H; lia|].
  destruct (String.eqb "night_bg_005.jpg" b); [intros H; inversion H; lia|].
  discriminate.
Qed.

Lemma some_image_survives (d d' : dict (list string)) :
  Forall2 (fun e e' => 0 < size_of e -> 0 < size_of e') d d' ->
  0 < list_sum (map size_of d) -> 0 < list_sum (map size_of d').
Proof.
  induction 1 as [|e e' d d' He _ IH]; [auto|].
  unfold list_sum in *. cbn [map fold_right]. intros Hpos.
  destruct (Nat.eq_dec (size_of e) 0) as [Hz|Hnz]; [|specialize (He ltac:(lia)); lia].
  rewrite Hz in Hpos. specialize (IH Hpos). lia.
Qed.

Section Reports.

Variable rng : Type.
Variable random_seed : Z -> rng.
Variable random_shuffle : rng -> list string -> list string * rng.

Local Abbreviation apply_caps := (apply_caps rng random_seed random_shuffle).
Local Abbreviation write_splits := (write_splits rng random_seed random_shuffle).
Local Abbreviation main := (main rng random_seed random_shuffle).
Local Abbreviation main_outcome := (main_outcome rng random_seed random_shuffle).

Hypothesis shuffle_perm :
  forall g l, Permutation (fst (random_shuffle g l)) l.

(** X7. The statistics returned by the allocation agree with the files:
    for each partition the total is the number of lines written to its
    list and is the sum of its day and night counts, and the three totals
    add up to the number of images of the inventory. *)
Theorem statistics_match_written_lists :
  forall (d : dict (list string)) (g : rng) (seed : Z),
    NoDup (keys d) ->
    let alloc := fst (allocate_exact_splits d) in
    let st := snd (allocate_exact_splits d) in
    let out := fst (write_splits g alloc d seed) in
    (forall s,
       total (get st s) = List.length (get out s) /\
       total (get st s) = day (get st s) + night (get st s)) /\
    total (get st train) + total (get st val) + total (get st test)
    = list_sum (map size_of d).
Proof.
  intros d g seed Hnd. cbv zeta.
  unfold allocate_exact_splits, split_stats. cbn [fst snd].
  pose proof (allocate_state_accounted d Hnd) as Hacc. split.
  - intros s. rewrite get_tabulate. cbn [total day night].
    destruct (Hacc s) as [H1 H2]. split; [|assumption].
    rewrite (Permutation_length
               (write_splits_perm rng random_seed random_shuffle shuffle_perm
                  g (allocation (allocate_state d)) d seed s)).
    unfold gather. rewrite length_flat_map. exact H1.
  - rewrite !get_tabulate. cbn [total]. now apply totals_add_up.
Qed.

(** X8. Once the tables are loaded, [main] ends in a [ZeroDivisionError]
    exactly when the assignment table has no row, and then at the
    retention percentage, before any cluster is allocated or any file
    written; on every other table neither percentage divides by zero and
    the run completes. *)
Theorem main_fails_only_on_empty_table :
  forall (g0 : rng) (assign_df : list row) (seed : Z),
    main_outcome g0 assign_df seed
    = match assign_df with
      | [] => ZeroDivisionError None
      | _ :: _ => Completed (main g0 assign_df seed)
      end.
Proof.
  intros g0 assign_df seed.
  destruct assign_df as [|r rows]; [reflexivity|].
  set (table := r :: rows).
  unfold Split.main_outcome, Split.main.
  pose proof (apply_caps_keys rng random_seed random_shuffle
                (build_cluster_to_images table) caps seed g0) as Hkeys.
  pose proof (apply_caps_entries rng random_seed random_shuffle
                (build_cluster_to_images table) caps seed g0) as Hent.
  destruct (apply_caps g0 (build_cluster_to_images table) caps seed) as [d g1].
  cbn [fst] in Hkeys, Hent. cbn [List.length Nat.eqb table].
  assert (Hnd : NoDup (keys d)) by (rewrite Hkeys; apply NoDup_keys_build).
  pose proof (totals_add_up d Hnd) as Hsum.
  assert (Hpos : 0 < list_sum (map size_of d)).
  { apply (some_image_survives (build_cluster_to_images table) d).
    - eapply Forall2_impl; [|exact Hent].
      intros e e' [_ Hv]. unfold size_of. rewrite Hv.
      destruct (lookup caps (basename (fst e))) as [c|] eqn:Hc; [|auto].
      apply caps_positive in Hc.
      rewrite length_firstn,
        (Permutation_length (shuffle_perm (random_seed seed) (snd e))). lia.
    - unfold build_cluster_to_images. rewrite size_build_from. cbn. lia. }
  unfold allocate_exact_splits, split_stats.
  destruct (write_splits g1 (allocation (allocate_state d)) d seed) as [lists g2].
  rewrite !get_tabulate. cbn [total]. rewrite Hsum.
  destruct (list_sum (map size_of d)); [lia|reflexivity].
Qed.

End Reports.

Lemma statistics_match_written_lists_witness :
  total (get (snd (allocate_exact_splits example_inventory)) train)
  + total (get (snd (allocate_exact_splits example_inventory)) val)
  + total (get (snd (allocate_exact_splits example_inventory)) test)
  = list_sum (map size_of example_inventory).
Proof.
  exact (proj2 (statistics_match_written_lists Z lcg_seed lcg_shuffle
                  lcg_shuffle_perm example_inventory 0%Z 42%Z
                  example_inventory_keys)).
Defined.

Lemma main_fails_only_on_empty_table_witness :
  main_outcome Z lcg_seed lcg_shuffle 0%Z example_table 42%Z
  = Completed (main Z lcg_seed lcg_shuffle 0%Z example_table 42%Z).
Proof.
  exact (main_fails_only_on_empty_table Z lcg_seed lcg_shuffle lcg_shuffle_perm
           0%Z example_table 42%Z).
Defined.

(** ** The written text *)

Lemma string_append_assoc (a b c : string) :
  String.append (String.append a b) c = String.append a (String.append b c).
Proof. induction a as [|x a IH]; cbn; [reflexivity|now rewrite IH]. Qed.

(** X9. A list is written as its paths each followed by a line feed and
    nothing else: one terminated line per image, no separator left over,
    and the empty text for the empty list. *)
Theorem file_content_is_terminated_lines :
  forall (images : list string),
    file_content images
    = String.concat EmptyString (map (fun p => String.append p newline) images).
Proof.
  intros images. unfold file_content.
  destruct images as [|p images]; [reflexivity|].
  revert p. induction images as [|q images IH]; intros p; [reflexivity|].
  change (String.concat newline (p :: q :: images))
    with (String.append p (String.append newline
                             (String.concat newline (q :: images)))).
  change (String.concat EmptyString
            (map (fun p => String.append p newline) (p :: q :: images)))
    with (String.append (String.append p newline)
            (String.concat EmptyString
               (map (fun p => String.append p newline) (q :: images)))).
  rewrite <- (IH q), !string_append_assoc. reflexivity.
Qed.

End SplitFacts.

(** ** The grouping of scripts/dedupe_by_threshold.py *)

Module DedupeFacts.

Import Dedupe.

Local Open Scope list_scope.

(** ** The inner loop is a filter *)

Lemma collect_spec (assigned : list bool) (i : nat) (threshold : Q) :
  forall neigh group sims,
    (forall j s, In (j, s) neigh -> j < List.length assigned) ->
    collect assigned i threshold neigh group sims
    = Some (group ++ map fst (filter (accepted assigned i threshold) neigh),
            sims ++ map snd (filter (accepted assigned i threshold) neigh)).
Proof.
  induction neigh as [|[j s] neigh IH]; intros group sims Hrange.
  - cbn. now rewrite !app_nil_r.
  - assert (Hrest : forall j' s', In (j', s') neigh -> j' < List.length assigned)
      by (intros; eapply Hrange; right; eassumption).
    cbn [collect filter].
    replace (accepted assigned i threshold (j, s))
      with (negb (Nat.eqb j i) && Qle_bool threshold s &&
            match nth_error assigned j with Some false => true | _ => false end)
      by reflexivity.
    destruct (Nat.eqb j i); cbn [negb andb]; [now apply IH|].
    destruct (Qle_bool threshold s); cbn [andb]; [|now apply IH].
    destruct (nth_error assigned j) as [[|]|] eqn:Hj.
    + now apply IH.
    + rewrite IH by assumption. cbn [map fst snd].
      now rewrite <- !app_assoc.
    + exfalso. apply nth_error_None in Hj.
      specialize (Hrange j s (or_introl eq_refl)). lia.
Qed.

Lemma set_true_length (a : list bool) (j : nat) :
  List.length (set_true a j) = List.length a.
Proof.
  revert j. induction a as [|b a IH]; intros [|j]; cbn; auto.
Qed.

Lemma set_true_true (a : list bool) (j k : nat) :
  nth_error (set_true a j) k = Some true <->
  (k = j /\ j < List.length a) \/ nth_error a k = Some true.
Proof.
  revert j k. induction a as [|b a IH]; intros j k.
  - destruct j, k; cbn; split; intros H; try discriminate;
      destruct H as [[_ H]|H]; try discriminate; lia.
  - destruct j as [|j], k as [|k]; cbn.
    + split; [intros _; left; split; [reflexivity|lia] | reflexivity].
    + split; [now right | intros [[H _]|H]; [discriminate|assumption]].
    + split; [now right | intros [[H _]|H]; [discriminate|assumption]].
    + rewrite IH. split; intros [[H1 H2]|H]; auto; left; split; lia.
Qed.

Lemma mark_length (a : list bool) (g : list nat) :
  List.length (mark a g) = List.length a.
Proof.
  unfold mark. revert a. induction g as [|j g IH]; intros a; cbn; [reflexivity|].
  now rewrite IH, set_true_length.
Qed.

Lemma mark_true (a : list bool) (g : list nat) (k : nat) :
  nth_error (mark a g) k = Some true <->
  (In k g /\ k < List.length a) \/ nth_error a k = Some true.
Proof.
  unfold mark. revert a. induction g as [|j g IH]; intros a; cbn [fold_left In].
  - split; [now right | intros [[[] _]|H]; assumption].
  - rewrite IH, set_true_length, set_true_true. split.
    + intros [[H1 H2]|[[H1 H2]|H]]; auto. subst. left. split; [now left|assumption].
    + intros [[[H1|H1] H2]|H]; auto. subst. right. left. now split.
Qed.

Lemma NoDup_map_fst_filter {A B} (f : A * B -> bool) (l : list (A * B)) :
  NoDup (map fst l) -> NoDup (map fst (filter f l)).
Proof.
  induction l as [|p l IH]; cbn; intros Hnd; [constructor|].
  inversion Hnd as [|? ? Hnotin Hnd']; subst.
  destruct (f p); cbn; [constructor|]; auto.
  intros Hin. apply Hnotin. apply in_map_iff in Hin.
  destruct Hin as (q & Hq & Hin). apply filter_In in Hin.
  apply in_map_iff. exists q. tauto.
Qed.

(** ** The invariant of the outer loop *)

Lemma inv_init (n : nat) (res : range_result) (threshold : Q) :
  inv n res threshold 0 (repeat false n) [] [].
Proof.
  constructor; cbn.
  all: try (intros; contradiction).
  all: try constructor.
  all: try lia.
  - apply repeat_length.
  - intros H. apply nth_error_In in H. apply repeat_spec in H. discriminate.
Qed.

Lemma concat_snoc {A} (ls : list (list A)) (l : list A) :
  List.concat (ls ++ [l]) = List.concat ls ++ l.
Proof. rewrite concat_app. cbn. now rewrite app_nil_r. Qed.

Lemma inv_skip n res threshold k assigned groups group_sims :
  inv n res threshold k assigned groups group_sims ->
  nth_error assigned k = Some true ->
  inv n res threshold (S k) assigned groups group_sims.
Proof.
  intros [H1 H2 H3 H4 H5 H6 H7 H8 H9 H10] Hk.
  constructor; auto.
  - intros j Hj Hn. destruct (Nat.eq_dec j k) as [->|Hne].
    + now apply H2.
    + apply H4; lia.
  - intros r Hr. specialize (H6 r Hr). lia.
Qed.

Lemma accepted_true (assigned : list bool) (i : nat) (threshold : Q) (j : nat) (s : Q) :
  accepted assigned i threshold (j, s) = true <->
  j <> i /\ Qle_bool threshold s = true /\ nth_error assigned j = Some false.
Proof.
  unfold accepted. cbn [fst snd].
  rewrite !andb_true_iff, negb_true_iff, Nat.eqb_neq.
  destruct (nth_error assigned j) as [[|]|]; intuition congruence.
Qed.

Lemma in_picked (assigned : list bool) (i : nat) (threshold : Q)
    (neigh : list (nat * Q)) (j : nat) :
  In j (map fst (filter (accepted assigned i threshold) neigh)) <->
  exists s, In (j, s) neigh /\ j <> i /\ Qle_bool threshold s = true /\
            nth_error assigned j = Some false.
Proof.
  rewrite in_map_iff. split.
  - intros ([j' s] & Hj & Hin). cbn in Hj. subst j'.
    apply filter_In in Hin. destruct Hin as [Hin Hacc].
    apply accepted_true in Hacc. eauto.
  - intros (s & Hin & Hacc). exists (j, s). split; [reflexivity|].
    apply filter_In. split; [assumption|]. now apply accepted_true.
Qed.

Lemma reps_snoc (groups : list (list nat)) (k : nat) (l : list nat) :
  reps (groups ++ [k :: l]) = reps groups ++ [k].
Proof. unfold reps. now rewrite map_app. Qed.

Lemma inv_new_group n res threshold k assigned groups group_sims neigh :
  inv n res threshold k assigned groups group_sims ->
  k < n ->
  nth_error assigned k = Some false ->
  neighbours res k = Some neigh ->
  NoDup (map fst neigh) ->
  (forall j s, In (j, s) neigh -> j < n) ->
  let picked := filter (accepted assigned k threshold) neigh in
  inv n res threshold (S k)
      (mark assigned (k :: map fst picked))
      (groups ++ [k :: map fst picked])
      (group_sims ++ [1%Q :: map snd picked]).
Proof.
  intros [H1 H2 H3 H4 H5 H6 H7 H8 H9 H10] Hk Hfree Hneigh Hnd Hrange picked.
  assert (Hknew : ~ In k (List.concat groups)).
  { intros Hin. apply H2 in Hin. congruence. }
  assert (Hpick : forall j, In j (map fst picked) ->
            exists s, In (j, s) neigh /\ j <> k /\ Qle_bool threshold s = true /\
                      nth_error assigned j = Some false)
    by (intros j; apply in_picked).
  assert (Hlater : forall j, In j (map fst picked) -> k < j).
  { intros j Hj. destruct (Hpick j Hj) as (s & Hin & Hne & _ & Hfj).
    destruct (Nat.lt_ge_cases j k) as [Hlt|Hge]; [|lia].
    exfalso. assert (Hjn : j < n) by lia.
    apply (H4 j Hlt) in Hjn. apply H2 in Hjn. congruence. }
  constructor.
  - now rewrite mark_length.
  - intros j. rewrite mark_true, concat_snoc, in_app_iff, H2, H1. split.
    + intros [[Hin _]|Hin]; auto.
    + intros [Hin|Hin]; auto. left. split; [assumption|].
      destruct Hin as [<-|Hin]; [assumption|].
      destruct (Hpick j Hin) as (s & Hin' & _). eauto.
  - rewrite concat_snoc. apply NoDup_app; [assumption| |].
    + constructor.
      * intros Hin. apply Hlater in Hin. lia.
      * now apply NoDup_map_fst_filter.
    + intros x Hx [<-|Hin]; [contradiction|].
      destruct (Hpick x Hin) as (s & _ & _ & _ & Hfx).
      apply H2 in Hx. congruence.
  - intros j Hj Hn. rewrite concat_snoc, in_app_iff.
    destruct (Nat.eq_dec j k) as [->|Hne]; [right; now left|].
    left. apply H4; lia.
  - apply Forall2_app; [assumption|]. constructor; [|constructor].
    exists k, (map fst picked), (map snd picked).
    repeat split. now rewrite !length_map.
  - intros r. rewrite reps_snoc, in_app_iff.
    intros [Hr|[<-|[]]]; [specialize (H6 r Hr)|]; lia.
  - intros r j. rewrite reps_snoc, concat_snoc, !in_app_iff.
    intros [Hr|[<-|[]]] Hadj; [left; eauto|].
    destruct Hadj as (neigh' & s & Hn' & Hin & Hs).
    rewrite Hneigh in Hn'. inversion Hn'; subst neigh'.
    destruct (Nat.eq_dec j k) as [->|Hne]; [right; now left|].
    destruct (nth_error assigned j) as [[|]|] eqn:Hj.
    + left. now apply H2.
    + right. right. apply in_picked. eauto.
    + exfalso. apply nth_error_None in Hj. specialize (Hrange j s Hin). lia.
  - intros g j. rewrite in_app_iff.
    intros [Hg|[<-|[]]] Hj; [eauto|]. cbn [hd].
    destruct Hj as [<-|Hj]; [now left|]. right.
    split; [now apply Hlater|].
    destruct (Hpick j Hj) as (s & Hin & _ & Hs & _).
    exists neigh, s. auto.
  - intros r r'. rewrite reps_snoc, !in_app_iff.
    intros [Hr|[<-|[]]] [Hr'|[<-|[]]] Hlt; [eauto| | |lia].
    + specialize (H6 r Hr). lia.
    + intros Hadj. apply Hknew. eauto.
  - rewrite reps_snoc. apply NoDup_app; [assumption|repeat constructor; intros []|].
    intros r Hr [Heq|[]]. specialize (H6 r Hr). lia.
Qed.

Lemma outer_inv (n : nat) (res : range_result) (threshold : Q) :
  in_range n res ->
  forall m k assigned groups group_sims,
    k + m = n ->
    inv n res threshold k assigned groups group_sims ->
    exists assigned' groups' group_sims',
      outer res threshold (seq k m) (assigned, groups, group_sims)
      = Some (assigned', groups', group_sims') /\
      inv n res threshold n assigned' groups' group_sims'.
Proof.
  intros Hres. induction m as [|m IH]; intros k assigned groups group_sims Hk Hinv.
  - replace k with n in Hinv by lia. cbn. eauto.
  - cbn [seq outer].
    assert (Hlen : List.length assigned = n) by apply Hinv.
    destruct (nth_error assigned k) as [[|]|] eqn:Hnth.
    + apply IH; [lia|]. now apply inv_skip.
    + destruct (Hres k) as (neigh & Hneigh & Hnd & Hrange); [lia|].
      rewrite Hneigh, collect_spec
        by (intros j s Hin; rewrite Hlen; eapply Hrange; eassumption).
      cbn [app]. apply IH; [lia|].
      apply (inv_new_group n res threshold k assigned groups group_sims neigh);
        auto; lia.
    + apply nth_error_None in Hnth. lia.
Qed.

Lemma group_loop_inv (n : nat) (res : range_result) (threshold : Q) :
  in_range n res ->
  exists assigned groups group_sims,
    group_loop n res threshold = Some (groups, group_sims) /\
    inv n res threshold n assigned groups group_sims.
Proof.
  intros Hres. unfold group_loop.
  destruct (outer_inv n res threshold Hres n 0 (repeat false n) [] [] eq_refl
              (inv_init n res threshold))
    as (assigned & groups & group_sims & -> & Hinv).
  eauto.
Qed.

Lemma range_search_ok_in_range (real : matrix) (threshold : Q) (res : range_result) :
  range_search_ok real threshold res -> in_range (List.length real) res.
Proof.
  intros Hok i Hi. destruct (Hok i Hi) as (neigh & Hn & Hnd & Hspec).
  exists neigh. repeat split; auto.
  intros j s Hin. now apply Hspec in Hin.
Qed.

(** C2. Whenever the range search answers each of the [N] queries with a
    list of row indices below [N] that has no repeated index, the grouping
    returns, and its groups, laid end to end, are a rearrangement of
    [0 .. N-1] without repetition: every index is in one group, once, and
    in no other group. *)
Theorem groups_partition_indices :
  forall (range_search : matrix -> Q -> range_result) (real : matrix)
         (threshold : Q),
    in_range (List.length real) (range_search real threshold) ->
    exists groups group_sims,
      dedupe_range_search range_search real threshold = Some (groups, group_sims) /\
      Permutation (List.concat groups) (seq 0 (List.length real)) /\
      NoDup (List.concat groups) /\
      (forall j, j < List.length real ->
         exists before g after,
           groups = before ++ g :: after /\ In j g /\
           ~ In j (List.concat before) /\ ~ In j (List.concat after)).
Proof.
  intros range_search real threshold Hres. unfold dedupe_range_search.
  destruct (group_loop_inv _ _ threshold Hres)
    as (assigned & groups & group_sims & Hrun & Hinv).
  exists groups, group_sims.
  destruct Hinv as [H1 H2 H3 H4 _ _ _ _ _ _].
  assert (Hcover : forall j, j < List.length real -> In j (List.concat groups))
    by (intros j Hj; now apply H4).
  repeat split; auto.
  - apply NoDup_Permutation; [assumption|apply seq_NoDup|].
    intros j. rewrite in_seq. split.
    + intros Hj. apply H2 in Hj.
      assert (nth_error assigned j <> None) by congruence.
      apply nth_error_Some in H. lia.
    + intros [_ Hj]. now apply Hcover.
  - intros j Hj. specialize (Hcover j Hj).
    apply in_concat in Hcover. destruct Hcover as (g & Hg & Hjg).
    apply in_split in Hg. destruct Hg as (before & after & ->).
    exists before, g, after. rewrite concat_app in H3. cbn [List.concat] in H3.
    repeat split; auto.
    + intros Hb. apply (SplitFacts.NoDup_app_disjoint _ _ j H3 Hb).
      apply in_or_app. now left.
    + intros Ha. apply NoDup_app_remove_l in H3.
      exact (SplitFacts.NoDup_app_disjoint _ _ j H3 Hjg Ha).
Qed.

(** ** The modelled range search meets its contract *)

Lemma offsets_nth (blocks : list (list (nat * Q))) :
  forall start i,
    i <= List.length blocks ->
    nth_error (offsets start blocks) i
    = Some (start + List.length (List.concat (firstn i blocks))).
Proof.
  induction blocks as [|b blocks IH]; intros start [|i] Hi; cbn in *;
    try (f_equal; lia).
  rewrite IH by lia. f_equal. rewrite length_app. lia.
Qed.

Lemma slice_concat {A} (blocks : list (list A)) :
  forall i b,
    nth_error blocks i = Some b ->
    slice (List.concat blocks)
          (List.length (List.concat (firstn i blocks)))
          (List.length (List.concat (firstn (S i) blocks)))
    = b.
Proof.
  unfold slice.
  induction blocks as [|b0 blocks IH]; intros [|i] b Hb; try discriminate.
  - cbn in Hb. inversion Hb; subst b0. cbn [firstn List.concat List.length skipn].
    rewrite app_nil_r, Nat.sub_0_r, firstn_app, Nat.sub_diag, firstn_all.
    cbn. now rewrite app_nil_r.
  - cbn in Hb. specialize (IH i b Hb).
    cbn [firstn List.concat] in *. rewrite !length_app.
    rewrite skipn_app, skipn_all2 by lia. cbn [app].
    replace (List.length b0 + List.length (List.concat (firstn i blocks))
             - List.length b0)
      with (List.length (List.concat (firstn i blocks))) by lia.
    etransitivity; [|exact IH]. f_equal. lia.
Qed.

Lemma slice_map {A B} (f : A -> B) (l : list A) (start stop : nat) :
  slice (map f l) start stop = map f (slice l start stop).
Proof. unfold slice. now rewrite skipn_map, firstn_map. Qed.

Lemma in_slice {A} (l : list A) (start stop : nat) (x : A) :
  In x (slice l start stop) -> In x l.
Proof.
  unfold slice. intros H.
  rewrite <- (firstn_skipn start l). apply in_or_app. right.
  rewrite <- (firstn_skipn (stop - start) (skipn start l)).
  apply in_or_app. now left.
Qed.

Lemma combine_fst_snd {A B} (l : list (A * B)) :
  combine (map fst l) (map snd l) = l.
Proof. induction l as [|[a b] l IH]; cbn; congruence. Qed.

Lemma neighbours_range_search_ip (real : matrix) (threshold : Q) (i : nat) :
  i < List.length real ->
  neighbours (range_search_ip real threshold) i
  = Some (row_matches real threshold i).
Proof.
  intros Hi. unfold neighbours, range_search_ip. cbn [lims D I].
  set (blocks := map (row_matches real threshold) (seq 0 (List.length real))).
  assert (Hlen : List.length blocks = List.length real)
    by (unfold blocks; now rewrite length_map, length_seq).
  assert (Hb : nth_error blocks i = Some (row_matches real threshold i)).
  { unfold blocks. rewrite nth_error_map, nth_error_seq.
    destruct (Nat.ltb_spec i (List.length real)); [reflexivity|lia]. }
  rewrite !offsets_nth by lia. cbn [Nat.add].
  rewrite !slice_map, (slice_concat blocks i _ Hb).
  now rewrite combine_fst_snd.
Qed.

Lemma range_search_ip_ok (real : matrix) (threshold : Q) :
  range_search_ok real threshold (range_search_ip real threshold).
Proof.
  intros i Hi. exists (row_matches real threshold i).
  split; [now apply neighbours_range_search_ip|]. unfold row_matches. split.
  - apply NoDup_map_fst_filter. rewrite map_map. cbn [fst].
    rewrite map_id. apply seq_NoDup.
  - intros j s. rewrite filter_In, in_map_iff. cbn [snd]. split.
    + intros [(j' & Hj' & Hin) Hs]. inversion Hj'; subst.
      apply in_seq in Hin. repeat split; auto; lia.
    + intros (Hj & -> & Hs). split; [|assumption].
      exists j. split; [reflexivity|]. apply in_seq. lia.
Qed.

(** ** The membership table *)

Lemma group_rows_spec (paths : list string) (gid : nat) (rep_path : string) :
  forall members k,
    (forall j s, In (j, s) members -> j < List.length paths) ->
    exists rows removed,
      group_rows paths gid rep_path k members = Some (rows, removed) /\
      List.length rows = List.length members /\
      (forall r rest, rows = r :: rest ->
         exists j s members',
           members = (j, s) :: members' /\
           is_representative r = (if Nat.eqb k 0 then 1 else 0) /\
           similarity_to_rep r = s /\
           nth_error paths j = Some (member_path r) /\
           representative r = rep_path /\
           Forall (fun r' => is_representative r' = 0) rest).
Proof.
  induction members as [|[j s] members IH]; intros k Hrange.
  - exists [], []. cbn. repeat split; auto. discriminate.
  - destruct (IH (S k)) as (rows & removed & Hrun & Hlen & Hrows).
    { intros j' s' Hin. apply (Hrange j' s'). now right. }
    cbn [group_rows]. rewrite Hrun.
    destruct (nth_error paths j) as [p|] eqn:Hp.
    2:{ apply nth_error_None in Hp.
        specialize (Hrange j s (or_introl eq_refl)). lia. }
    eexists _, _. split; [reflexivity|]. split; [cbn; now rewrite Hlen|].
    intros r rest Heq. inversion Heq; subst r rest.
    exists j, s, members. cbn. repeat split; auto.
    destruct rows as [|r' rest']; [constructor|].
    destruct (Hrows r' rest' eq_refl) as (_ & _ & _ & _ & Hflag & _ & _ & _ & Hrest).
    constructor; assumption.
Qed.

Lemma write_groups_spec (paths : list string) :
  forall gs gid,
    Forall (fun p => well_shaped (fst p) (snd p) /\
                     forall j, In j (fst p) -> j < List.length paths) gs ->
    exists out blocks,
      write_groups paths gid gs = Some out /\
      records out = List.concat blocks /\
      Forall2 (fun rows p => rows_of_group rows (fst p)) blocks gs.
Proof.
  induction gs as [|[idxs sims] gs IH]; intros gid Hgs.
  - exists (Outputs [] [] []), []. cbn. repeat split; constructor.
  - inversion Hgs as [|? ? [Hshape Hidx] Hgs']; subst. cbn [fst snd] in *.
    destruct (IH (S gid) Hgs') as (out & blocks & Hrun & Hrec & Hblocks).
    destruct Hshape as (i & rest & rest' & -> & -> & Hlen).
    cbn [write_groups].
    destruct (nth_error paths i) as [rep_path|] eqn:Hrep.
    2:{ apply nth_error_None in Hrep. specialize (Hidx i (or_introl eq_refl)). lia. }
    destruct (group_rows_spec paths gid rep_path
                (combine (i :: rest) (1%Q :: rest')) 0)
      as (rows & removed & Hrows & Hrlen & Hfirst).
    { intros j s Hin. apply in_combine_l in Hin. now apply Hidx. }
    rewrite Hrows, Hrun.
    eexists _, (rows :: blocks). split; [reflexivity|].
    cbn [records List.concat]. split; [now rewrite Hrec|].
    constructor; [|assumption]. cbn [fst]. split.
    + rewrite Hrlen, length_combine. cbn [List.length]. lia.
    + destruct rows as [|r rows']; [discriminate|].
      destruct (Hfirst r rows' eq_refl)
        as (j & s & members' & Hm & Hflag & Hsim & Hpath & Hrp & Hrest).
      cbn [combine] in Hm. inversion Hm; subst j s members'.
      exists r, rows'. repeat split; auto. congruence.
Qed.

Lemma Forall2_combine {A B} (R : A -> B -> Prop) (l : list A) (l' : list B) :
  Forall2 R l l' -> Forall (fun p => R (fst p) (snd p)) (combine l l').
Proof. induction 1; cbn; constructor; auto. Qed.

Lemma Forall2_combine_fst {A B C} (P : C -> A -> Prop) (l : list A) (l' : list B) :
  List.length l = List.length l' ->
  forall blocks,
    Forall2 (fun c p => P c (fst p)) blocks (combine l l') ->
    Forall2 P blocks l.
Proof.
  revert l'. induction l as [|a l IH]; intros [|b l'] Hlen blocks H;
    try discriminate; cbn in *.
  - inversion H. constructor.
  - inversion H; subst. constructor; eauto.
Qed.

(** C7. Under the same condition on the range search as for C2, and with
    one path per row, grouping and writing both return; every group starts
    with its representative, paired with the similarity [1.0]; and the
    membership table is the groups' blocks of rows in order, each block as
    long as its group, its first row being the representative's own row
    (similarity [1.0], flag 1) and all its other rows carrying flag 0. *)
Theorem representative_first :
  forall (range_search : matrix -> Q -> range_result) (real : matrix)
         (threshold : Q) (paths : list string),
    in_range (List.length real) (range_search real threshold) ->
    List.length paths = List.length real ->
    exists groups group_sims out,
      dedupe_range_search range_search real threshold = Some (groups, group_sims) /\
      write_outputs paths groups group_sims = Some out /\
      Forall2 (fun g s => exists i rest rest',
                 g = i :: rest /\ s = 1%Q :: rest' /\
                 List.length rest = List.length rest') groups group_sims /\
      exists blocks,
        records out = List.concat blocks /\
        Forall2 rows_of_group blocks groups.
Proof.
  intros range_search real threshold paths Hres Hpaths.
  unfold dedupe_range_search, write_outputs.
  destruct (group_loop_inv _ _ threshold Hres)
    as (assigned & groups & group_sims & Hrun & Hinv).
  destruct Hinv as [H1 H2 _ _ H5 _ _ _ _ _].
  destruct (write_groups_spec paths (combine groups group_sims) 1)
    as (out & blocks & Hout & Hrec & Hblocks).
  { apply Forall_forall. intros [g s] Hin. cbn [fst snd]. split.
    - pose proof (Forall2_combine _ _ _ H5) as Hall.
      rewrite Forall_forall in Hall. exact (Hall (g, s) Hin).
    - intros j Hj. apply in_combine_l in Hin.
      assert (Hc : In j (List.concat groups)) by (apply in_concat; eauto).
      apply H2 in Hc.
      assert (Hsome : nth_error assigned j <> None) by congruence.
      apply nth_error_Some in Hsome. lia. }
  exists groups, group_sims, out. repeat split; auto.
  exists blocks. split; [assumption|].
  apply (Forall2_combine_fst rows_of_group groups group_sims); [|assumption].
  exact (Forall2_length H5).
Qed.

(** ** Thresholds and the number of groups *)

Lemma adj_iff (real : matrix) (threshold : Q) (res : range_result) (i j : nat) :
  range_search_ok real threshold res -> i < List.length real ->
  adj res threshold i j <->
  j < List.length real /\ Qle_bool threshold (similarity real i j) = true.
Proof.
  intros Hok Hi. destruct (Hok i Hi) as (neigh & Hn & _ & Hspec). split.
  - intros (neigh' & s & Hn' & Hin & Hs). rewrite Hn in Hn'.
    inversion Hn'; subst neigh'. apply Hspec in Hin.
    destruct Hin as (Hj & -> & _). auto.
  - intros [Hj Hs]. exists neigh, (similarity real i j).
    repeat split; auto. apply Hspec. auto.
Qed.

Lemma in_group_rep (n : nat) res threshold assigned groups group_sims (i : nat) :
  inv n res threshold n assigned groups group_sims -> i < n ->
  In i (reps groups) \/
  exists r, In r (reps groups) /\ r < i /\ adj res threshold r i.
Proof.
  intros Hinv Hi.
  pose proof (inv_visited _ _ _ _ _ _ _ Hinv i Hi Hi) as Hc.
  apply in_concat in Hc. destruct Hc as (g & Hg & Hig).
  assert (Hrep : In (hd 0 g) (reps groups)) by (unfold reps; now apply in_map).
  destruct (inv_members _ _ _ _ _ _ _ Hinv g i Hg Hig) as [->|[Hlt Hadj]]; eauto.
Qed.

(** C3 fails as stated: on four unit vectors the grouping emits two groups
    at threshold 3/4 ([0] and [1, 2, 3]) and three at the lower threshold
    1/2 ([0, 1], [2] and [3]): row 0 then takes row 1, which no longer
    collects rows 2 and 3. *)
Lemma lower_threshold_more_groups :
  (1 # 2 < 3 # 4)%Q /\
  Forall (fun v => dot v v == 1)%Q four_vectors /\
  exists groups1 sims1 groups2 sims2,
    dedupe_range_search range_search_ip four_vectors (3 # 4)
    = Some (groups1, sims1) /\
    dedupe_range_search range_search_ip four_vectors (1 # 2)
    = Some (groups2, sims2) /\
    groups1 = [[0]; [1; 2; 3]] /\
    groups2 = [[0; 1]; [2]; [3]] /\
    List.length groups1 < List.length groups2.
Proof.
  split; [reflexivity|]. split; [repeat constructor|].
  exists [[0]; [1; 2; 3]], [[1]; [1; 20 # 25; 20 # 25]]%Q,
         [[0; 1]; [2]; [3]], [[1; 15 # 25]; [1]; [1]]%Q.
  repeat split; vm_compute; reflexivity.
Qed.

(** The same two runs with a search that returns only the rows above the
    threshold: the thresholds are far from every similarity. *)
Example lower_threshold_more_groups_above :
  exists sims1 sims2,
    dedupe_range_search range_search_above four_vectors (3 # 4)
    = Some ([[0]; [1; 2; 3]], sims1) /\
    dedupe_range_search range_search_above four_vectors (1 # 2)
    = Some ([[0; 1]; [2]; [3]], sims2).
Proof. eexists _, _. split; vm_compute; reflexivity. Qed.

(** *** Links at two thresholds *)

Lemma links_kept_ok (real : matrix) (t1 t2 : Q) (res1 res2 : range_result) :
  range_search_ok real t1 res1 -> range_search_ok real t2 res2 ->
  (t2 <= t1)%Q ->
  links_kept (List.length real) res1 t1 res2 t2.
Proof.
  intros Hok1 Hok2 Hle i j Hi Hadj.
  apply (adj_iff real t2 res2 i j Hok2 Hi).
  apply (adj_iff real t1 res1 i j Hok1 Hi) in Hadj.
  destruct Hadj as [Hj Hs]. split; [assumption|].
  apply Qle_bool_iff. apply Qle_bool_iff in Hs. now apply (Qle_trans _ t1).
Qed.

Lemma links_transitive_ok (real : matrix) (threshold : Q) (res : range_result) :
  range_search_ok real threshold res -> similar_transitive real threshold ->
  links_transitive (List.length real) res threshold.
Proof.
  intros Hok Htrans a b c Hab' Hbc' Hc Hab Hbc.
  apply (adj_iff real threshold res a c Hok ltac:(lia)).
  apply (adj_iff real threshold res a b Hok ltac:(lia)) in Hab.
  apply (adj_iff real threshold res b c Hok ltac:(lia)) in Hbc.
  split; [tauto|]. apply (Htrans a b c); tauto || lia.
Qed.

(** C3, amended. The number of groups at [t2] is at most the number at
    [t1] whenever the range search answers both thresholds in range,
    returns at [t2], with a similarity that passes [t2], every neighbour
    it returns with a passing similarity at [t1] (as a search by
    threshold does for [t2] below [t1]), and being so linked at [t2] is
    transitive from earlier to later rows (as it is when the duplicates
    at the lower threshold form separated clusters): then every
    representative at [t2] is also one at [t1]. *)
Theorem lower_threshold_fewer_groups_when_transitive :
  forall (range_search : matrix -> Q -> range_result) (real : matrix)
         (t1 t2 : Q),
    in_range (List.length real) (range_search real t1) ->
    in_range (List.length real) (range_search real t2) ->
    links_kept (List.length real)
               (range_search real t1) t1 (range_search real t2) t2 ->
    links_transitive (List.length real) (range_search real t2) t2 ->
    exists groups1 sims1 groups2 sims2,
      dedupe_range_search range_search real t1 = Some (groups1, sims1) /\
      dedupe_range_search range_search real t2 = Some (groups2, sims2) /\
      List.length groups2 <= List.length groups1.
Proof.
  intros range_search real t1 t2 Hres1 Hres2 Hkept Htrans.
  unfold dedupe_range_search.
  destruct (group_loop_inv _ _ t1 Hres1)
    as (a1 & groups1 & sims1 & Hrun1 & Hinv1).
  destruct (group_loop_inv _ _ t2 Hres2)
    as (a2 & groups2 & sims2 & Hrun2 & Hinv2).
  exists groups1, sims1, groups2, sims2. repeat split; auto.
  set (n := List.length real) in *.
  set (res1 := range_search real t1) in *.
  set (res2 := range_search real t2) in *.
  assert (Hincl : incl (reps groups2) (reps groups1)).
  { intros r Hr.
    assert (Hrn : r < n) by exact (inv_reps_lt _ _ _ _ _ _ _ Hinv2 r Hr).
    assert (Hmin : forall j, j < r -> ~ adj res2 t2 j r).
    { intros j Hj Hadj.
      assert (Hearlier : exists r', In r' (reps groups2) /\ r' < r /\ adj res2 t2 r' r).
      { destruct (in_group_rep n res2 t2 a2 groups2 sims2 j Hinv2) as [Hjr|Hjr];
          [lia|eauto|].
        destruct Hjr as (r' & Hr' & Hlt & Hadj').
        exists r'. repeat split; [assumption|lia|].
        apply (Htrans r' j r); [lia|lia|lia|assumption|assumption]. }
      destruct Hearlier as (r' & Hr' & Hlt & Hadj').
      exact (inv_independent _ _ _ _ _ _ _ Hinv2 r r' Hr Hr' Hlt Hadj'). }
    destruct (in_group_rep n res1 t1 a1 groups1 sims1 r Hinv1 Hrn) as [Hin|Hin];
      [assumption|].
    exfalso. destruct Hin as (r' & Hr' & Hlt & Hadj).
    apply (Hmin r' Hlt). apply Hkept; [lia|assumption]. }
  pose proof (NoDup_incl_length (inv_reps_nodup _ _ _ _ _ _ _ Hinv2) Hincl) as Hlen.
  unfold reps in Hlen. now rewrite !length_map in Hlen.
Qed.

(** *** The library's answers *)

Lemma length_offsets (blocks : list (list (nat * Q))) :
  forall start, List.length (offsets start blocks) = S (List.length blocks).
Proof.
  induction blocks as [|b blocks IH]; intros start; cbn; [reflexivity|].
  now rewrite IH.
Qed.

Lemma neighbours_csr (blocks : list (list (nat * Q))) (i : nat) :
  neighbours (csr blocks) i = nth_error blocks i.
Proof.
  unfold neighbours, csr. cbn [lims D I].
  destruct (Nat.lt_ge_cases i (List.length blocks)) as [Hlt|Hge].
  - destruct (nth_error blocks i) as [b|] eqn:Hb;
      [|apply nth_error_None in Hb; lia].
    rewrite !offsets_nth by lia. cbn [Nat.add].
    rewrite !slice_map, (slice_concat blocks i _ Hb).
    now rewrite combine_fst_snd.
  - assert (Hnone : nth_error (offsets 0 blocks) (S i) = None)
      by (apply nth_error_None; rewrite length_offsets; lia).
    rewrite Hnone.
    assert (Hb : nth_error blocks i = None) by (now apply nth_error_None).
    rewrite Hb. now destruct (nth_error (offsets 0 blocks) i).
Qed.

Lemma neighbours_range_search_above (real : matrix) (threshold : Q) (i : nat) :
  neighbours (range_search_above real threshold) i
  = if Nat.ltb i (List.length real)
    then Some (row_matches_above real threshold i) else None.
Proof.
  unfold range_search_above. rewrite neighbours_csr, nth_error_map, nth_error_seq.
  now destruct (Nat.ltb i (List.length real)).
Qed.

Lemma range_search_above_in_range (real : matrix) (threshold : Q) :
  in_range (List.length real) (range_search_above real threshold).
Proof.
  intros i Hi. exists (row_matches_above real threshold i).
  rewrite neighbours_range_search_above.
  destruct (Nat.ltb_spec i (List.length real)); [|lia].
  split; [reflexivity|]. unfold row_matches_above. split.
  - apply NoDup_map_fst_filter. rewrite map_map. cbn [fst].
    rewrite map_id. apply seq_NoDup.
  - intros j s Hin. apply filter_In in Hin. destruct Hin as [Hin _].
    apply in_map_iff in Hin. destruct Hin as (j' & Hj' & Hin).
    inversion Hj'; subst. apply in_seq in Hin. lia.
Qed.

Lemma adj_above_iff (real : matrix) (threshold : Q) (i j : nat) :
  adj (range_search_above real threshold) threshold i j <->
  i < List.length real /\ j < List.length real /\
  Qle_bool (similarity real i j) threshold = false.
Proof.
  unfold adj. rewrite neighbours_range_search_above. split.
  - intros (neigh & s & Hn & Hin & _).
    destruct (Nat.ltb_spec i (List.length real)); [|discriminate].
    inversion Hn; subst neigh. unfold row_matches_above in Hin.
    apply filter_In in Hin. cbn [snd] in Hin. destruct Hin as [Hin Hs].
    apply in_map_iff in Hin. destruct Hin as (j' & Hj' & Hin).
    inversion Hj'; subst. apply in_seq in Hin.
    repeat split; [assumption|lia|]. now apply negb_true_iff in Hs.
  - intros (Hi & Hj & Hs).
    exists (row_matches_above real threshold i), (similarity real i j).
    destruct (Nat.ltb_spec i (List.length real)); [|lia].
    split; [reflexivity|]. split.
    + unfold row_matches_above. apply filter_In. cbn [snd]. split.
      * apply in_map_iff. exists j. split; [reflexivity|]. apply in_seq. lia.
      * now rewrite Hs.
    + apply Qle_bool_iff. apply Qlt_le_weak. apply Qnot_le_lt.
      intros Hle. apply Qle_bool_iff in Hle. congruence.
Qed.

(** A search that returns the rows above the threshold keeps at a lower
    threshold every link of a higher one. *)
Lemma links_kept_above (real : matrix) (t1 t2 : Q) :
  (t2 <= t1)%Q ->
  links_kept (List.length real)
             (range_search_above real t1) t1 (range_search_above real t2) t2.
Proof.
  intros Hle i j _ Hadj. apply adj_above_iff. apply adj_above_iff in Hadj.
  destruct Hadj as (Hi & Hj & Hs). repeat split; try assumption.
  destruct (Qle_bool (similarity real i j) t2) eqn:Hs2; [|reflexivity].
  apply Qle_bool_iff in Hs2.
  assert (Hs1 : Qle_bool (similarity real i j) t1 = true)
    by (apply Qle_bool_iff; now apply (Qle_trans _ t2)).
  congruence.
Qed.

Lemma three_vectors_links_transitive :
  links_transitive (List.length three_vectors)
                   (range_search_above three_vectors (1 # 2)) (1 # 2).
Proof.
  intros a b c _ _ _ Hab Hbc. apply adj_above_iff.
  apply adj_above_iff in Hab. apply adj_above_iff in Hbc.
  destruct Hab as (Ha & Hb & Hab). destruct Hbc as (_ & Hc & Hbc).
  repeat split; try assumption. cbn in Ha, Hb, Hc.
  assert (Ea : a = 0 \/ a = 1 \/ a = 2) by lia.
  assert (Eb : b = 0 \/ b = 1 \/ b = 2) by lia.
  assert (Ec : c = 0 \/ c = 1 \/ c = 2) by lia.
  destruct Ea as [-> | [-> | ->]], Eb as [-> | [-> | ->]],
           Ec as [-> | [-> | ->]];
    vm_compute in Hab, Hbc |- *; congruence.
Qed.

Lemma groups_partition_indices_witness :
  exists groups group_sims,
    dedupe_range_search range_search_ip four_vectors (3 # 4)
    = Some (groups, group_sims) /\
    Permutation (List.concat groups) (seq 0 4).
Proof.
  destruct (groups_partition_indices range_search_ip four_vectors (3 # 4)
              (range_search_ok_in_range _ _ _ (range_search_ip_ok _ _)))
    as (groups & group_sims & Hrun & Hperm & _).
  exists groups, group_sims. split; [exact Hrun|exact Hperm].
Defined.

Lemma representative_first_witness :
  exists groups group_sims out,
    dedupe_range_search range_search_ip four_vectors (1 # 2)
    = Some (groups, group_sims) /\
    write_outputs ["a.jpg"; "b.jpg"; "c.jpg"; "d.jpg"]%string groups group_sims
    = Some out.
Proof.
  destruct (representative_first range_search_ip four_vectors (1 # 2)
              ["a.jpg"; "b.jpg"; "c.jpg"; "d.jpg"]%string
              (range_search_ok_in_range _ _ _ (range_search_ip_ok _ _)) eq_refl)
    as (groups & group_sims & out & Hrun & Hout & _).
  exists groups, group_sims, out. split; [exact Hrun|exact Hout].
Defined.

Lemma lower_threshold_fewer_groups_witness :
  exists groups1 sims1 groups2 sims2,
    dedupe_range_search range_search_above three_vectors (3 # 4)
    = Some (groups1, sims1) /\
    dedupe_range_search range_search_above three_vectors (1 # 2)
    = Some (groups2, sims2) /\
    List.length groups2 <= List.length groups1.
Proof.
  refine (lower_threshold_fewer_groups_when_transitive range_search_above
            three_vectors (3 # 4) (1 # 2)
            (range_search_above_in_range _ _) (range_search_above_in_range _ _)
            (links_kept_above _ _ _ _) three_vectors_links_transitive).
  vm_compute. discriminate.
Defined.

(** ** What the groups record *)

Lemma StronglySorted_snoc (l : list nat) (k : nat) :
  StronglySorted lt l -> (forall r, In r l -> r < k) ->
  StronglySorted lt (l ++ [k]).
Proof.
  induction 1 as [|a l Hs IH Hall]; intros Hlt; cbn.
  - repeat constructor.
  - constructor.
    + apply IH. intros r Hr. apply Hlt. now right.
    + apply Forall_app. split; [assumption|].
      constructor; [|constructor]. apply Hlt. now left.
Qed.

Lemma outer_recorded (n : nat) (res : range_result) (threshold : Q) :
  in_range n res ->
  forall m k assigned groups group_sims assigned' groups' group_sims',
    k + m = n ->
    List.length assigned = n ->
    Forall2 (recorded res threshold) groups group_sims ->
    StronglySorted lt (reps groups) ->
    (forall r, In r (reps groups) -> r < k) ->
    outer res threshold (seq k m) (assigned, groups, group_sims)
    = Some (assigned', groups', group_sims') ->
    Forall2 (recorded res threshold) groups' group_sims' /\
    StronglySorted lt (reps groups').
Proof.
  intros Hres.
  induction m as [|m IH];
    intros k assigned groups group_sims assigned' groups' group_sims'
           Hk Hlen Hrec Hsorted Hlt Hrun.
  - cbn in Hrun. inversion Hrun; subst. auto.
  - cbn [seq outer] in Hrun.
    destruct (nth_error assigned k) as [[|]|] eqn:Hnth; [| |discriminate].
    + apply (IH (S k) assigned groups group_sims assigned' groups' group_sims');
        auto; [lia|].
      intros r Hr. specialize (Hlt r Hr). lia.
    + destruct (Hres k) as (neigh & Hneigh & Hnd & Hrange); [lia|].
      rewrite Hneigh, collect_spec in Hrun
        by (intros j s Hin; rewrite Hlen; eapply Hrange; eassumption).
      cbn [app] in Hrun.
      eapply (IH (S k) _ _ _ assigned' groups' group_sims');
        [lia| | | | |exact Hrun].
      * now rewrite mark_length.
      * apply Forall2_app; [assumption|]. constructor; [|constructor].
        exists neigh, (filter (accepted assigned k threshold) neigh).
        cbn [hd]. repeat split; auto.
        -- apply filter_In in H. tauto.
        -- apply filter_In in H. destruct H as [_ Hacc]. destruct p as [j s].
           apply accepted_true in Hacc. tauto.
      * rewrite reps_snoc. now apply StronglySorted_snoc.
      * intros r. rewrite reps_snoc, in_app_iff.
        intros [Hr|[<-|[]]]; [specialize (Hlt r Hr)|]; lia.
Qed.

Lemma group_loop_recorded (n : nat) (res : range_result) (threshold : Q)
    (groups : list (list nat)) (group_sims : list (list Q)) :
  in_range n res ->
  group_loop n res threshold = Some (groups, group_sims) ->
  Forall2 (recorded res threshold) groups group_sims /\
  StronglySorted lt (reps groups).
Proof.
  intros Hres. unfold group_loop.
  destruct (outer res threshold (seq 0 n) (repeat false n, [], []))
    as [[[assigned' groups'] sims']|] eqn:Hrun; [|discriminate].
  intros Heq. inversion Heq; subst.
  apply (outer_recorded n res threshold Hres n 0 (repeat false n) [] []
           assigned' groups group_sims); auto.
  - apply repeat_length.
  - constructor.
  - cbn. intros r [].
Qed.

Lemma Forall2_impl_in {A B} (R R' : A -> B -> Prop) (l : list A) (l' : list B) :
  Forall2 R l l' ->
  (forall a b, In a l -> R a b -> R' a b) ->
  Forall2 R' l l'.
Proof.
  induction 1 as [|a b l l' Hab _ IH]; intros Himp; constructor.
  - apply Himp; [now left|assumption].
  - apply IH. intros a' b' Ha'. apply Himp. now right.
Qed.

(** X10. The kept images are pairwise distinct from one another by the
    threshold: the representatives come in strictly ascending order, and
    no representative is [threshold]-similar to an earlier one. *)
Theorem representatives_are_pairwise_dissimilar :
  forall (range_search : matrix -> Q -> range_result) (real : matrix)
         (threshold : Q),
    range_search_ok real threshold (range_search real threshold) ->
    exists groups group_sims,
      dedupe_range_search range_search real threshold = Some (groups, group_sims) /\
      StronglySorted lt (reps groups) /\
      (forall r r', In r (reps groups) -> In r' (reps groups) -> r' < r ->
                    Qle_bool threshold (similarity real r' r) = false).
Proof.
  intros range_search real threshold Hok. unfold dedupe_range_search.
  pose proof (range_search_ok_in_range _ _ _ Hok) as Hres.
  destruct (group_loop_inv _ _ threshold Hres)
    as (assigned & groups & group_sims & Hrun & Hinv).
  exists groups, group_sims. split; [assumption|].
  split; [exact (proj2 (group_loop_recorded _ _ _ _ _ Hres Hrun))|].
  intros r r' Hr Hr' Hlt.
  destruct (Qle_bool threshold (similarity real r' r)) eqn:Hs; [|reflexivity].
  exfalso.
  apply (inv_independent _ _ _ _ _ _ _ Hinv r r' Hr Hr' Hlt).
  pose proof (inv_reps_lt _ _ _ _ _ _ _ Hinv r Hr).
  pose proof (inv_reps_lt _ _ _ _ _ _ _ Hinv r' Hr').
  apply (adj_iff real threshold _ r' r Hok); auto.
Qed.

(** X11. Every other member of a group is a later row that is
    [threshold]-similar to the group's representative, and the similarity
    stored beside it is the inner product of the two rows. *)
Theorem members_are_duplicates_of_their_representative :
  forall (range_search : matrix -> Q -> range_result) (real : matrix)
         (threshold : Q),
    range_search_ok real threshold (range_search real threshold) ->
    exists groups group_sims,
      dedupe_range_search range_search real threshold = Some (groups, group_sims) /\
      Forall2
        (fun g s =>
           exists r members,
             g = r :: map fst members /\ s = 1%Q :: map snd members /\
             forall j x, In (j, x) members ->
                         r < j /\ j < List.length real /\
                         x = similarity real r j /\
                         Qle_bool threshold x = true)
        groups group_sims.
Proof.
  intros range_search real threshold Hok. unfold dedupe_range_search.
  pose proof (range_search_ok_in_range _ _ _ Hok) as Hres.
  destruct (group_loop_inv _ _ threshold Hres)
    as (assigned & groups & group_sims & Hrun & Hinv).
  exists groups, group_sims. split; [assumption|].
  destruct (group_loop_recorded _ _ _ _ _ Hres Hrun) as [Hrec _].
  apply (Forall2_impl_in _ _ _ _ Hrec).
  intros g s Hgin (neigh & members & Hneigh & Hg & Hs & Hmem).
  exists (hd 0 g), members. split; [assumption|]. split; [assumption|].
  intros j x Hjx.
  destruct (Hmem _ Hjx) as [Hn Hx]. cbn [snd] in Hx.
  assert (Hrep : In (hd 0 g) (reps groups)) by (unfold reps; now apply in_map).
  pose proof (inv_reps_lt _ _ _ _ _ _ _ Hinv _ Hrep) as Hrn.
  destruct (Hok (hd 0 g) Hrn) as (neigh' & Hneigh' & _ & Hspec).
  rewrite Hneigh in Hneigh'. inversion Hneigh'; subst neigh'.
  apply Hspec in Hn. destruct Hn as (Hj & Hsim & _).
  repeat split; auto.
  assert (Hjg : In j g).
  { rewrite Hg. right. apply in_map_iff. exists (j, x). auto. }
  destruct (inv_members _ _ _ _ _ _ _ Hinv g j Hgin Hjg) as [Heq|[Hlt _]];
    [|assumption].
  exfalso. pose proof (inv_nodup _ _ _ _ _ _ _ Hinv) as Hnd.
  apply in_split in Hgin. destruct Hgin as (before & after & Hgroups).
  rewrite Hgroups, concat_app in Hnd. cbn [List.concat] in Hnd.
  apply NoDup_app_remove_l, NoDup_app_remove_r in Hnd.
  rewrite Hg in Hnd. apply NoDup_cons_iff in Hnd. destruct Hnd as [Hnotin _].
  apply Hnotin. rewrite <- Heq. apply in_map_iff. exists (j, x). auto.
Qed.

(** ** The keep list and the remove list *)

Lemma group_rows_removed (paths : list string) (gid : nat) (rep_path : string) :
  forall members k rows removed,
    group_rows paths gid rep_path k members = Some (rows, removed) ->
    List.length rows = List.length members /\
    Forall2 (fun p j => nth_error paths j = Some p) removed
            (map fst (if Nat.eqb k 0 then tl members else members)).
Proof.
  induction members as [|[j s] members IH]; intros k rows removed Hrun.
  - cbn in Hrun. inversion Hrun; subst. split; [reflexivity|].
    destruct (Nat.eqb k 0); constructor.
  - cbn [group_rows] in Hrun.
    destruct (nth_error paths j) as [p|] eqn:Hp; [|discriminate].
    destruct (group_rows paths gid rep_path (S k) members)
      as [[rows' removed']|] eqn:Hrest; [|discriminate].
    destruct (IH (S k) rows' removed' Hrest) as [Hlen Hrem].
    cbn [Nat.eqb] in Hrem. inversion Hrun; subst rows removed.
    split; [cbn; now rewrite Hlen|].
    destruct k as [|k]; cbn [Nat.eqb Nat.ltb Nat.leb tl map fst].
    + exact Hrem.
    + constructor; assumption.
Qed.

Lemma map_fst_combine {A B} (l : list A) (l' : list B) :
  List.length l = List.length l' -> map fst (combine l l') = l.
Proof.
  revert l'. induction l as [|a l IH]; intros [|b l'] Hlen;
    try discriminate; cbn; [reflexivity|].
  f_equal. apply IH. now inversion Hlen.
Qed.

Lemma write_groups_lists (paths : list string) :
  forall gs gid out,
    Forall (fun p => List.length (fst p) = List.length (snd p)) gs ->
    write_groups paths gid gs = Some out ->
    Forall2 (fun p j => nth_error paths j = Some p) (keep out)
            (reps (map fst gs)) /\
    Forall2 (fun p j => nth_error paths j = Some p) (remove out)
            (non_reps (map fst gs)) /\
    List.length (records out) = List.length (List.concat (map fst gs)).
Proof.
  unfold reps, non_reps.
  induction gs as [|[idxs sims] gs IH]; intros gid out Hlen Hrun.
  - cbn in Hrun. inversion Hrun; subst. cbn. repeat split; constructor.
  - inversion Hlen as [|? ? Hl Hlen']; subst. cbn [fst snd] in Hl.
    cbn [write_groups] in Hrun.
    destruct idxs as [|rep rest]; [discriminate|].
    destruct (nth_error paths rep) as [rep_path|] eqn:Hrep; [|discriminate].
    destruct (group_rows paths gid rep_path 0 (combine (rep :: rest) sims))
      as [[rows removed]|] eqn:Hrows; [|discriminate].
    destruct (write_groups paths (S gid) gs) as [out'|] eqn:Hrest; [|discriminate].
    destruct (IH (S gid) out' Hlen' Hrest) as (Hk & Hr & Hn).
    destruct (group_rows_removed _ _ _ _ _ _ _ Hrows) as [Hrl Hrem].
    inversion Hrun; subst out.
    cbn [keep remove records map fst hd tl List.concat Nat.eqb] in *.
    destruct sims as [|s0 sims]; [discriminate|].
    cbn [combine tl] in Hrem.
    rewrite map_fst_combine in Hrem by (cbn in Hl; lia).
    repeat split.
    + constructor; assumption.
    + apply Forall2_app; assumption.
    + rewrite !length_app, Hn, Hrl, length_combine. cbn [List.length] in *.
      rewrite Hl, Nat.min_id. cbn. lia.
Qed.

Lemma reps_and_non_reps (groups : list (list nat)) :
  Forall (fun g => g <> []) groups ->
  Permutation (reps groups ++ non_reps groups) (List.concat groups).
Proof.
  unfold reps, non_reps.
  induction 1 as [|g groups Hg _ IH]; [reflexivity|].
  destruct g as [|r t]; [contradiction|].
  cbn [map hd tl List.concat app]. constructor.
  rewrite <- IH, !app_assoc. apply Permutation_app_tail.
  apply Permutation_app_comm.
Qed.

Lemma paths_at_indices (paths : list string) (ps : list string) (js : list nat) :
  Forall2 (fun p j => nth_error paths j = Some p) ps js ->
  ps = map (fun j => nth j paths EmptyString) js.
Proof.
  induction 1 as [|p j ps js Hp _ IH]; [reflexivity|].
  cbn [map]. rewrite <- IH. f_equal. symmetry. now apply nth_error_nth.
Qed.

Lemma map_nth_seq (paths : list string) :
  map (fun j => nth j paths EmptyString) (seq 0 (List.length paths)) = paths.
Proof.
  apply nth_error_ext. intros i.
  rewrite nth_error_map, nth_error_seq.
  destruct (Nat.ltb_spec i (List.length paths)) as [Hlt|Hge]; cbn.
  - symmetry. now apply nth_error_nth'.
  - symmetry. now apply nth_error_None.
Qed.

(** X12. Under the condition of C2 and with one path per row, the keep
    list holds one path per group, the table one row per image, and the
    keep list followed by the remove list is a rearrangement of the input
    paths: every image is either kept or removed, once. *)
Theorem keep_and_remove_split_the_paths :
  forall (range_search : matrix -> Q -> range_result) (real : matrix)
         (threshold : Q) (paths : list string),
    in_range (List.length real) (range_search real threshold) ->
    List.length paths = List.length real ->
    exists groups group_sims out,
      dedupe_range_search range_search real threshold = Some (groups, group_sims) /\
      write_outputs paths groups group_sims = Some out /\
      Permutation (keep out ++ remove out) paths /\
      List.length (keep out) = List.length groups /\
      List.length (records out) = List.length paths.
Proof.
  intros range_search real threshold paths Hres Hpaths.
  unfold dedupe_range_search, write_outputs.
  destruct (group_loop_inv _ _ threshold Hres)
    as (assigned & groups & group_sims & Hrun & Hinv).
  destruct Hinv as [H1 H2 H3 H4 H5 _ _ _ _ _].
  assert (Hshapes : Forall (fun p => well_shaped (fst p) (snd p))
                           (combine groups group_sims))
    by exact (Forall2_combine _ _ _ H5).
  assert (Hperm : Permutation (List.concat groups) (seq 0 (List.length real))).
  { apply NoDup_Permutation; [assumption|apply seq_NoDup|].
    intros j. rewrite in_seq. split.
    - intros Hj. apply H2 in Hj.
      assert (Hsome : nth_error assigned j <> None) by congruence.
      apply nth_error_Some in Hsome. lia.
    - intros [_ Hj]. now apply H4. }
  destruct (write_groups_spec paths (combine groups group_sims) 1)
    as (out & blocks & Hout & _ & _).
  { rewrite Forall_forall in *. intros [g s] Hin. split; [now apply Hshapes|].
    cbn [fst]. intros j Hj. apply in_combine_l in Hin.
    assert (Hc : In j (List.concat groups)) by (apply in_concat; eauto).
    apply (Permutation_in _ Hperm), in_seq in Hc. lia. }
  exists groups, group_sims, out. split; [assumption|]. split; [assumption|].
  destruct (write_groups_lists paths (combine groups group_sims) 1 out)
    as (Hk & Hr & Hn); [|assumption|].
  { rewrite Forall_forall in *. intros p Hin.
    destruct (Hshapes p Hin) as (i & rest & rest' & -> & -> & Hl). cbn. lia. }
  rewrite map_fst_combine in Hk, Hr, Hn by exact (Forall2_length H5).
  assert (Hne : Forall (fun g => g <> []) groups).
  { clear - H5. induction H5 as [|g s gs ss (i & rest & rest' & -> & _) _ IH];
      constructor; [discriminate|assumption]. }
  repeat split.
  - rewrite (paths_at_indices paths _ _ (Forall2_app Hk Hr)).
    rewrite (Permutation_map _ (reps_and_non_reps groups Hne)).
    rewrite (Permutation_map _ Hperm), <- Hpaths. now rewrite map_nth_seq.
  - rewrite (Forall2_length Hk). unfold reps. now rewrite length_map.
  - rewrite Hn, (Permutation_length Hperm), length_seq. now symmetry.
Qed.

(** ** The two extremes of the threshold *)

(** X13. When no two distinct rows are [threshold]-similar, nothing is
    merged: there are as many groups as rows and each group is its
    representative alone. *)
Theorem no_similar_rows_no_merging :
  forall (range_search : matrix -> Q -> range_result) (real : matrix)
         (threshold : Q),
    range_search_ok real threshold (range_search real threshold) ->
    (forall i j, i < List.length real -> j < List.length real -> i <> j ->
                 Qle_bool threshold (similarity real i j) = false) ->
    exists groups group_sims,
      dedupe_range_search range_search real threshold = Some (groups, group_sims) /\
      List.length groups = List.length real /\
      Forall (fun g => exists i, g = [i]) groups.
Proof.
  intros range_search real threshold Hok Hfar. unfold dedupe_range_search.
  pose proof (range_search_ok_in_range _ _ _ Hok) as Hres.
  destruct (group_loop_inv _ _ threshold Hres)
    as (assigned & groups & group_sims & Hrun & Hinv).
  exists groups, group_sims. split; [assumption|].
  assert (Hsingle : Forall (fun g => exists i, g = [i]) groups).
  { apply Forall_forall. intros g Hg.
    assert (Hrep : In (hd 0 g) (reps groups)) by (unfold reps; now apply in_map).
    pose proof (inv_reps_lt _ _ _ _ _ _ _ Hinv _ Hrep) as Hrn.
    pose proof (inv_shape _ _ _ _ _ _ _ Hinv) as Hshape.
    assert (Hcons : exists i rest, g = i :: rest).
    { clear - Hshape Hg. induction Hshape as [|g' s gs ss Hw _ IH];
        [contradiction|].
      destruct Hg as [->|Hg]; [|auto].
      destruct Hw as (i & rest & _ & -> & _). eauto. }
    destruct Hcons as (i & rest & ->). exists i. f_equal.
    destruct rest as [|j rest]; [reflexivity|]. exfalso.
    destruct (inv_members _ _ _ _ _ _ _ Hinv (i :: j :: rest) j Hg)
      as [Heq|[Hlt Hadj]]; [right; now left| |]; cbn [hd] in *.
    - pose proof (inv_nodup _ _ _ _ _ _ _ Hinv) as Hnd.
      apply in_split in Hg. destruct Hg as (before & after & Hgroups).
      rewrite Hgroups, concat_app in Hnd. cbn [List.concat] in Hnd.
      apply NoDup_app_remove_l, NoDup_app_remove_r in Hnd.
      apply NoDup_cons_iff in Hnd. destruct Hnd as [Hnotin _].
      apply Hnotin. rewrite Heq. now left.
    - apply (adj_iff real threshold _ i j Hok Hrn) in Hadj.
      destruct Hadj as [Hj Hs]. rewrite Hfar in Hs; [discriminate| | |]; lia. }
  split; [|assumption].
  assert (Hlen : List.length (List.concat groups) = List.length groups).
  { clear - Hsingle. induction Hsingle as [|g gs [i ->] _ IH]; [reflexivity|].
    cbn. now rewrite IH. }
  rewrite <- Hlen.
  assert (Hperm : Permutation (List.concat groups) (seq 0 (List.length real))).
  { apply NoDup_Permutation;
      [exact (inv_nodup _ _ _ _ _ _ _ Hinv)|apply seq_NoDup|].
    intros j. rewrite in_seq. split.
    - intros Hj. apply (inv_assigned _ _ _ _ _ _ _ Hinv) in Hj.
      assert (Hsome : nth_error assigned j <> None) by congruence.
      apply nth_error_Some in Hsome.
      rewrite (inv_length _ _ _ _ _ _ _ Hinv) in Hsome. lia.
    - intros [_ Hj]. now apply (inv_visited _ _ _ _ _ _ _ Hinv). }
  now rewrite (Permutation_length Hperm), length_seq.
Qed.

(** X14. When the range search answers in range and returns every other
    row as a neighbour of the first one, with a similarity that passes the
    threshold, a non-empty set collapses into a single group: the first
    row is the only representative and every other row is a member of its
    group. *)
Theorem all_similar_to_first_one_group :
  forall (range_search : matrix -> Q -> range_result) (real : matrix)
         (threshold : Q),
    in_range (List.length real) (range_search real threshold) ->
    0 < List.length real ->
    (forall j, 0 < j < List.length real ->
               adj (range_search real threshold) threshold 0 j) ->
    exists g group_sims,
      dedupe_range_search range_search real threshold = Some ([g], group_sims) /\
      hd 0 g = 0 /\
      Permutation g (seq 0 (List.length real)).
Proof.
  intros range_search real threshold Hres Hpos Hnear. unfold dedupe_range_search.
  destruct (group_loop_inv _ _ threshold Hres)
    as (assigned & groups & group_sims & Hrun & Hinv).
  assert (Hzero : In 0 (reps groups)).
  { destruct (in_group_rep _ _ _ _ _ _ 0 Hinv Hpos) as [H|(r & _ & Hlt & _)];
      [assumption|lia]. }
  assert (Honly : forall r, In r (reps groups) -> r = 0).
  { intros r Hr. destruct (Nat.eq_dec r 0) as [|Hne]; [assumption|]. exfalso.
    pose proof (inv_reps_lt _ _ _ _ _ _ _ Hinv r Hr) as Hrn.
    apply (inv_independent _ _ _ _ _ _ _ Hinv r 0 Hr Hzero); [lia|].
    apply Hnear. lia. }
  assert (Hone : exists g, groups = [g]).
  { pose proof (inv_reps_nodup _ _ _ _ _ _ _ Hinv) as Hnd.
    unfold reps in *. destruct groups as [|g [|g' groups]].
    - contradiction.
    - eauto.
    - exfalso. cbn [map] in *.
      assert (hd 0 g = 0) by (apply Honly; now left).
      assert (hd 0 g' = 0) by (apply Honly; right; now left).
      apply NoDup_cons_iff in Hnd. destruct Hnd as [Hnotin _].
      apply Hnotin. left. congruence. }
  destruct Hone as [g ->]. exists g, group_sims.
  split; [assumption|]. split; [apply Honly; now left|].
  replace g with (List.concat [g]) by (cbn; now rewrite app_nil_r).
  apply NoDup_Permutation;
    [exact (inv_nodup _ _ _ _ _ _ _ Hinv)|apply seq_NoDup|].
  intros j. rewrite in_seq. split.
  - intros Hj. apply (inv_assigned _ _ _ _ _ _ _ Hinv) in Hj.
    assert (Hsome : nth_error assigned j <> None) by congruence.
    apply nth_error_Some in Hsome.
    rewrite (inv_length _ _ _ _ _ _ _ Hinv) in Hsome. lia.
  - intros [_ Hj]. now apply (inv_visited _ _ _ _ _ _ _ Hinv).
Qed.

Lemma two_orthogonal_far :
  forall i j, i < List.length two_orthogonal -> j < List.length two_orthogonal ->
              i <> j ->
              Qle_bool (1 # 2) (similarity two_orthogonal i j) = false.
Proof.
  intros i j Hi Hj Hne. cbn in Hi, Hj.
  assert (Ei : i = 0 \/ i = 1) by lia. assert (Ej : j = 0 \/ j = 1) by lia.
  destruct Ei as [-> | ->], Ej as [-> | ->]; try contradiction; reflexivity.
Qed.

Lemma three_near_first :
  forall j, 0 < j < List.length three_near ->
            adj (range_search_above three_near (1 # 2)) (1 # 2) 0 j.
Proof.
  intros j Hj. apply adj_above_iff. cbn in Hj |- *.
  assert (Ej : j = 1 \/ j = 2) by lia.
  destruct Ej as [-> | ->]; repeat split; lia || reflexivity.
Qed.

Lemma representatives_are_pairwise_dissimilar_witness :
  exists groups group_sims,
    dedupe_range_search range_search_ip four_vectors (1 # 2)
    = Some (groups, group_sims) /\
    StronglySorted lt (reps groups).
Proof.
  destruct (representatives_are_pairwise_dissimilar range_search_ip
              four_vectors (1 # 2) (range_search_ip_ok _ _))
    as (groups & group_sims & Hrun & Hsorted & _).
  exists groups, group_sims. split; [exact Hrun|exact Hsorted].
Defined.

Lemma members_are_duplicates_witness :
  exists groups group_sims,
    dedupe_range_search range_search_ip four_vectors (1 # 2)
    = Some (groups, group_sims) /\
    List.length groups = List.length group_sims.
Proof.
  destruct (members_are_duplicates_of_their_representative range_search_ip
              four_vectors (1 # 2) (range_search_ip_ok _ _))
    as (groups & group_sims & Hrun & Hall).
  exists groups, group_sims. split; [exact Hrun|exact (Forall2_length Hall)].
Defined.

Lemma keep_and_remove_split_the_paths_witness :
  exists groups group_sims out,
    dedupe_range_search range_search_ip four_vectors (1 # 2)
    = Some (groups, group_sims) /\
    write_outputs ["a.jpg"; "b.jpg"; "c.jpg"; "d.jpg"]%string groups group_sims
    = Some out /\
    Permutation (keep out ++ remove out)
                ["a.jpg"; "b.jpg"; "c.jpg"; "d.jpg"]%string.
Proof.
  destruct (keep_and_remove_split_the_paths range_search_ip four_vectors (1 # 2)
              ["a.jpg"; "b.jpg"; "c.jpg"; "d.jpg"]%string
              (range_search_ok_in_range _ _ _ (range_search_ip_ok _ _)) eq_refl)
    as (groups & group_sims & out & Hrun & Hout & Hperm & _).
  exists groups, group_sims, out. repeat split; assumption.
Defined.

Lemma no_similar_rows_no_merging_witness :
  exists groups group_sims,
    dedupe_range_search range_search_ip two_orthogonal (1 # 2)
    = Some (groups, group_sims) /\
    List.length groups = 2.
Proof.
  destruct (no_similar_rows_no_merging range_search_ip two_orthogonal (1 # 2)
              (range_search_ip_ok _ _) two_orthogonal_far)
    as (groups & group_sims & Hrun & Hlen & _).
  exists groups, group_sims. split; [exact Hrun|exact Hlen].
Defined.

Lemma all_similar_to_first_one_group_witness :
  exists g group_sims,
    dedupe_range_search range_search_above three_near (1 # 2)
    = Some ([g], group_sims) /\
    hd 0 g = 0.
Proof.
  destruct (all_similar_to_first_one_group range_search_above three_near (1 # 2)
              (range_search_above_in_range _ _) ltac:(cbn; lia) three_near_first)
    as (g & group_sims & Hrun & Hhd & _).
  exists g, group_sims. split; [exact Hrun|exact Hhd].
Defined.

(** ** Resolving the caches *)

(** X15. Whatever the file system, a path returned by
    [resolve_cache_paths] is an existing file; it is the cache of the full
    key when that file exists, and the legacy file only for the backend
    [clip]; the error names the cache of the full key. *)
Theorem resolved_real_cache_exists :
  forall (isfile : string -> bool) (cache_dir backend model pretrained : string),
    let primary :=
      cache_file cache_dir "real" (cache_tag backend model pretrained) in
    match resolve_cache_paths isfile cache_dir backend model pretrained with
    | Found p =>
        isfile p = true /\
        (isfile primary = true -> p = primary) /\
        (p <> primary -> backend = "clip"%string)
    | FileNotFoundError m =>
        isfile primary = false /\
        m = String.append "Missing real cache: " primary
    end.
Proof.
  intros isfile cache_dir backend model pretrained primary.
  unfold resolve_cache_paths. fold primary.
  destruct (isfile primary) eqn:Hp.
  - repeat split; auto. congruence.
  - destruct (String.eqb_spec backend "clip") as [->|Hne]; cbn [andb].
    + destruct (isfile (cache_file cache_dir "real"
                          (String.append model (String.append "_" pretrained))))
        eqn:Hl.
      * repeat split; auto. discriminate.
      * split; reflexivity.
    + split; reflexivity.
Qed.

End DedupeFacts.

(** ** The order of numpy's float32 *)

Module Float32Facts.

Import Float32.

Ltac order_cases :=
  repeat match goal with
         | s : bool |- _ => destruct s
         end;
  cbn in *; try congruence;
  repeat match goal with
         | H : context [Z.compare ?a ?b] |- _ =>
             destruct (Z.compare_spec a b); cbn in *; subst; try lia
         | |- context [Z.compare ?a ?b] =>
             destruct (Z.compare_spec a b); cbn in *; subst; try lia
         | H : context [Pos.compare_cont Eq ?a ?b] |- _ =>
             change (Pos.compare_cont Eq a b) with (Pos.compare a b) in *;
             destruct (Pos.compare_spec a b); cbn in *; subst; try lia
         | |- context [Pos.compare_cont Eq ?a ?b] =>
             change (Pos.compare_cont Eq a b) with (Pos.compare a b) in *;
             destruct (Pos.compare_spec a b); cbn in *; subst; try lia
         end;
  try congruence; try lia.

Lemma leb_refl (x : float32) : isnan x = false -> leb x x = true.
Proof.
  unfold leb, SFleb, SFcompare. destruct x as [s|s| |s m e]; intros H; order_cases.
Qed.

Lemma leb_not_nan (x y : float32) :
  leb x y = true -> isnan x = false /\ isnan y = false.
Proof.
  unfold leb, SFleb, SFcompare.
  destruct x, y; cbn; intros H; try discriminate; auto.
Qed.

Lemma leb_total (x y : float32) :
  isnan x = false -> isnan y = false -> leb x y = false -> leb y x = true.
Proof.
  unfold leb, SFleb, SFcompare.
  destruct x as [s|s| |s m e], y as [s'|s'| |s' m' e']; intros Hx Hy H;
    order_cases.
Qed.

Lemma leb_trans (x y z : float32) :
  leb x y = true -> leb y z = true -> leb x z = true.
Proof.
  unfold leb, SFleb, SFcompare.
  destruct x as [s|s| |s m e], y as [s'|s'| |s' m' e'],
           z as [s''|s''| |s'' m'' e''];
    intros H1 H2; order_cases.
Qed.

Lemma ltb_not_leb (a b : float32) :
  ltb a b = true -> leb b a = false /\ isnan a = false.
Proof.
  unfold ltb, leb, SFltb, SFleb, SFcompare.
  destruct a as [s|s| |s m e], b as [s'|s'| |s' m' e']; intros H;
    order_cases; auto.
Qed.

End Float32Facts.

(** ** The chunked argmax of scripts/assign_clusters.py *)

Module AssignFacts.

Import Float32 Float32Facts Assign.

Local Open Scope list_scope.

(** ** Row-wise facts *)

Lemma argmax_from_bound (l : list float32) :
  forall best_i best i,
    best_i < i -> argmax_from best_i best i l < i + List.length l.
Proof.
  induction l as [|x l IH]; intros best_i best i Hlt; cbn [argmax_from List.length].
  - lia.
  - destruct (leb x best).
    + specialize (IH best_i best (S i)). lia.
    + destruct (isnan x); [lia|]. specialize (IH i x (S i)). lia.
Qed.

Lemma argmax_or_zero_bound (r : list float32) :
  r <> [] -> argmax_or_zero r < List.length r.
Proof.
  destruct r as [|x l]; [contradiction|]. intros _.
  unfold argmax_or_zero, argmax. cbn [List.length].
  destruct (isnan x); [lia|].
  pose proof (argmax_from_bound l 0 x 1). lia.
Qed.

Lemma argmax_rows_nonempty (sims : list (list float32)) :
  Forall (fun r => r <> []) sims ->
  argmax_rows sims = Some (map argmax_or_zero sims).
Proof.
  induction 1 as [|r sims Hr _ IH]; [reflexivity|].
  cbn [argmax_rows map]. rewrite IH. unfold argmax_or_zero at 1.
  destruct r; [contradiction|reflexivity].
Qed.

Lemma take_along_argmax (sims : list (list float32)) :
  take_along sims (map argmax_or_zero sims)
  = map (fun r => nth (argmax_or_zero r) r zero) sims.
Proof.
  unfold take_along. induction sims as [|r sims IH]; [reflexivity|].
  cbn [map combine fst snd]. now rewrite IH.
Qed.

Lemma map_seq_nth_error {A B} (f : nat -> B) (g : A -> B) (l : list A) :
  forall s,
    (forall i x, nth_error l i = Some x -> f (s + i) = g x) ->
    map f (seq s (List.length l)) = map g l.
Proof.
  induction l as [|x l IH]; intros s H; [reflexivity|].
  cbn [List.length seq map]. f_equal.
  - rewrite <- (H 0 x eq_refl). f_equal. lia.
  - apply IH. intros i y Hy. rewrite <- (H (S i) y Hy). f_equal. lia.
Qed.

Lemma in_firstn {A} (k : nat) (l : list A) (x : A) :
  In x (firstn k l) -> In x l.
Proof.
  intros H. rewrite <- (firstn_skipn k l). apply in_or_app. now left.
Qed.

(** ** Filling an array chunk by chunk *)

Lemma assign_slice_next {A} (target junk : list A) (start c : nat) :
  List.length target = List.length junk ->
  start < List.length target ->
  let stop := Nat.min (start + c) (List.length target) in
  assign_slice (firstn start target ++ skipn start junk) start stop
               (Dedupe.slice target start stop)
  = firstn (start + c) target ++ skipn (start + c) junk.
Proof.
  intros Hlen Hstart stop. unfold assign_slice, Dedupe.slice.
  assert (Hfl : List.length (firstn start target) = start)
    by (rewrite length_firstn; lia).
  rewrite firstn_app, Hfl, Nat.sub_diag. cbn [firstn]. rewrite app_nil_r.
  rewrite firstn_firstn, Nat.min_id.
  rewrite skipn_app, Hfl.
  rewrite (skipn_all2 (firstn start target)) by (rewrite Hfl; unfold stop; lia).
  cbn [app]. rewrite skipn_skipn.
  replace (stop - start + start) with stop by (unfold stop; lia).
  rewrite app_assoc. f_equal.
  - rewrite <- (firstn_skipn start (firstn (start + c) target)).
    rewrite firstn_firstn, skipn_firstn_comm. f_equal.
    + f_equal. lia.
    + destruct (Nat.le_ge_cases (start + c) (List.length target)) as [Hle|Hge].
      * f_equal. unfold stop. lia.
      * rewrite !firstn_all2; auto; rewrite length_skipn; unfold stop; lia.
  - destruct (Nat.le_ge_cases (start + c) (List.length junk)) as [Hle|Hge].
    + f_equal. unfold stop. lia.
    + rewrite !skipn_all2; auto; unfold stop; lia.
Qed.

Lemma length_slice {A} (l : list A) (start stop : nat) :
  stop <= List.length l ->
  List.length (Dedupe.slice l start stop) = stop - start.
Proof.
  intros H. unfold Dedupe.slice. rewrite length_firstn, length_skipn. lia.
Qed.

(** ** The assignment table *)

Lemma lookup_all_in_range (unique_paths : list string) (idx : list nat) :
  Forall (fun i => i < List.length unique_paths) idx ->
  exists ps,
    lookup_all unique_paths idx = Some ps /\
    Forall2 (fun i p => nth_error unique_paths i = Some p) idx ps.
Proof.
  induction 1 as [|i idx Hi _ (ps & Hps & IH)]; cbn [lookup_all].
  - exists []. now split.
  - rewrite Hps. destruct (nth_error unique_paths i) as [p|] eqn:Hp.
    + exists (p :: ps). split; [reflexivity|]. now constructor.
    + apply nth_error_None in Hp. lia.
Qed.

Lemma make_rows_columns (real_paths : list string) :
  forall (best_unique_paths : list string) (best_sim : list float32)
         (best_idx : list nat),
    List.length best_unique_paths = List.length real_paths ->
    List.length best_sim = List.length real_paths ->
    List.length best_idx = List.length real_paths ->
    let t := make_rows real_paths best_unique_paths best_sim best_idx in
    map image_path t = real_paths /\
    map cluster_unique_image t = best_unique_paths /\
    map similarity t = best_sim /\
    map cluster_index t = best_idx /\
    Forall (fun a => cluster_unique_basename a
                     = Split.basename (cluster_unique_image a)) t.
Proof.
  induction real_paths as [|a real_paths IH];
    intros [|b bup] [|s bs] [|i bi] H1 H2 H3; try discriminate.
  - cbn. repeat split; constructor.
  - cbn in H1, H2, H3.
    destruct (IH bup bs bi) as (E1 & E2 & E3 & E4 & E5); try lia.
    cbv zeta in *. cbn [make_rows map image_path cluster_unique_image
                        similarity cluster_index].
    rewrite E1, E2, E3, E4. repeat split. now constructor.
Qed.

Lemma Forall2_length_eq {A B : Type} (P : A -> B -> Prop) (l : list A)
    (l' : list B) :
  Forall2 P l l' -> List.length l = List.length l'.
Proof. induction 1; cbn; congruence. Qed.

Lemma Forall2_maps {A B C : Type} (P : B -> C -> Prop) (f : A -> B)
    (g : A -> C) (t : list A) :
  Forall2 P (map f t) (map g t) -> Forall (fun a => P (f a) (g a)) t.
Proof.
  induction t as [|a t IH]; cbn; intros H; [constructor|].
  inversion H; subst. constructor; auto.
Qed.

Section Properties.

Variable junk_idx : nat -> nat.
Variable junk_sim : nat -> float32.
Variable inner : list (list float32) -> list (list float32) -> nat -> nat -> float32.

Local Abbreviation matmul_t := (matmul_t inner).
Local Abbreviation body := (body inner).
Local Abbreviation loop := (loop inner).
Local Abbreviation compute_argmax_clusters :=
  (compute_argmax_clusters junk_idx junk_sim inner).
Local Abbreviation nearest_unchunked := (nearest_unchunked inner).
Local Abbreviation main := (main junk_idx junk_sim inner).

(** *** The shape of a product *)

Lemma length_matmul_t (a b : list (list float32)) :
  List.length (matmul_t a b) = List.length a.
Proof. unfold Assign.matmul_t. now rewrite length_map, length_seq. Qed.

Lemma matmul_t_rows (a b : list (list float32)) (r : list float32) :
  In r (matmul_t a b) -> List.length r = List.length b.
Proof.
  unfold Assign.matmul_t. intros H. apply in_map_iff in H.
  destruct H as (i & <- & _). now rewrite length_map, length_seq.
Qed.

Lemma matmul_t_nonempty (a b : list (list float32)) :
  b <> [] -> Forall (fun r => r <> []) (matmul_t a b).
Proof.
  intros Hb. apply Forall_forall. intros r Hr.
  apply matmul_t_rows in Hr. destruct b; [contradiction|].
  destruct r; [discriminate|discriminate].
Qed.

Lemma nth_matmul_t (a b : list (list float32)) (i j : nat) :
  i < List.length a -> j < List.length b ->
  nth j (nth i (matmul_t a b) []) zero = inner a b i j.
Proof.
  intros Hi Hj. unfold Assign.matmul_t.
  rewrite (nth_indep _ [] (map (inner a b 0) (seq 0 (List.length b))))
    by (now rewrite length_map, length_seq).
  rewrite (map_nth (fun i => map (inner a b i) (seq 0 (List.length b)))),
          seq_nth by assumption.
  rewrite (nth_indep _ zero (inner a b (0 + i) 0))
    by (now rewrite length_map, length_seq).
  now rewrite (map_nth (inner a b (0 + i))), seq_nth.
Qed.

(** *** The loop returns arrays of indices of representatives *)

Lemma body_in_range (real unique : ndarray) (c start : nat)
    (trace : list (nat * nat)) (best_idx : list nat) (best_sim : list float32) :
  rows unique <> [] ->
  let n := List.length (rows real) in
  let stop := Nat.min (start + c) n in
  exists idx val,
    body real unique c start (trace, best_idx, best_sim)
    = Some (trace ++ [(start, stop)],
            assign_slice best_idx start stop idx,
            assign_slice best_sim start stop val) /\
    List.length idx = stop - start /\
    List.length val = stop - start /\
    Forall (fun i => i < List.length (rows unique)) idx.
Proof.
  intros Hm n stop. unfold Assign.body. fold n stop.
  set (sims := matmul_t (Dedupe.slice (rows real) start stop) (rows unique)).
  pose proof (matmul_t_nonempty (Dedupe.slice (rows real) start stop)
                (rows unique) Hm) as Hne.
  fold sims in Hne. rewrite (argmax_rows_nonempty sims Hne).
  exists (map argmax_or_zero sims), (take_along sims (map argmax_or_zero sims)).
  assert (Hlen : List.length sims = stop - start).
  { unfold sims. rewrite length_matmul_t. apply length_slice.
    unfold stop, n. lia. }
  split; [reflexivity|]. rewrite take_along_argmax, !length_map.
  repeat split; try assumption.
  apply Forall_forall. intros i Hi. apply in_map_iff in Hi.
  destruct Hi as (r & <- & Hr).
  rewrite <- (matmul_t_rows _ _ r Hr). apply argmax_or_zero_bound.
  rewrite Forall_forall in Hne. now apply Hne.
Qed.

Lemma loop_in_range (real unique : ndarray) (c : nat) :
  rows unique <> [] -> 1 <= c ->
  let n := List.length (rows real) in
  forall fuel start trace best_idx best_sim,
    n <= start + fuel ->
    List.length best_idx = n -> List.length best_sim = n ->
    (forall i, In i (firstn start best_idx) -> i < List.length (rows unique)) ->
    exists best_idx' best_sim',
      snd (loop fuel real unique c start (trace, best_idx, best_sim))
      = Ok best_idx' best_sim' /\
      List.length best_idx' = n /\ List.length best_sim' = n /\
      Forall (fun i => i < List.length (rows unique)) best_idx'.
Proof.
  intros Hm Hc n.
  assert (Hdone : forall start (best_idx : list nat) (best_sim : list float32),
            n <= start ->
            List.length best_idx = n -> List.length best_sim = n ->
            (forall i, In i (firstn start best_idx) ->
                       i < List.length (rows unique)) ->
            exists best_idx' best_sim',
              Ok best_idx best_sim = Ok best_idx' best_sim' /\
              List.length best_idx' = n /\ List.length best_sim' = n /\
              Forall (fun i => i < List.length (rows unique)) best_idx').
  { intros start best_idx best_sim Hge Hbi Hbs Hall.
    exists best_idx, best_sim. repeat split; auto.
    rewrite firstn_all2 in Hall by lia. now apply Forall_forall. }
  induction fuel as [|fuel IH]; intros start trace best_idx best_sim
                                       Hfuel Hbi Hbs Hall.
  - cbn. apply (Hdone start); auto. lia.
  - cbn [Assign.loop]. fold n.
    destruct (Nat.ltb_spec start n) as [Hlt|Hge];
      [|cbn; now apply (Hdone start)].
    destruct (body_in_range real unique c start trace best_idx best_sim Hm)
      as (idx & val & Hbody & Hidx & Hval & Hin).
    fold n in Hbody, Hidx, Hval. rewrite Hbody.
    set (stop := Nat.min (start + c) n) in *.
    assert (Hfl : forall {A} (l : list A),
              List.length l = n -> List.length (firstn start l) = start)
      by (intros A l Hl; rewrite length_firstn; lia).
    apply IH.
    + lia.
    + unfold assign_slice. rewrite !length_app, Hfl, Hidx, length_skipn by assumption.
      unfold stop. lia.
    + unfold assign_slice. rewrite !length_app, Hfl, Hval, length_skipn by assumption.
      unfold stop. lia.
    + intros i Hi. unfold assign_slice in Hi.
      assert (Hi' : In i (firstn start best_idx ++ idx)).
      { rewrite app_assoc in Hi.
        destruct (Nat.le_ge_cases (start + c) n) as [Hle|Hgt].
        - rewrite firstn_app in Hi.
          rewrite length_app, Hfl, Hidx in Hi by assumption.
          replace (start + c - (start + (stop - start))) with 0 in Hi
            by (unfold stop; lia).
          cbn [firstn] in Hi. rewrite app_nil_r in Hi.
          now apply in_firstn in Hi.
        - rewrite (skipn_all2 best_idx) in Hi by (unfold stop; lia).
          rewrite app_nil_r in Hi. now apply in_firstn in Hi. }
      apply in_app_or in Hi'. destruct Hi' as [Hi'|Hi'].
      * now apply Hall.
      * rewrite Forall_forall in Hin. now apply Hin.
Qed.

Lemma compute_in_range (real unique : ndarray) (chunk_size : Z) :
  width real = width unique -> rows unique <> [] -> (1 <= chunk_size)%Z ->
  exists best_idx best_sim,
    snd (compute_argmax_clusters real unique chunk_size) = Ok best_idx best_sim /\
    List.length best_idx = List.length (rows real) /\
    List.length best_sim = List.length (rows real) /\
    Forall (fun i => i < List.length (rows unique)) best_idx.
Proof.
  intros Hw Hm Hc. unfold Assign.compute_argmax_clusters, shape.
  rewrite Hw, Nat.eqb_refl. cbn [negb].
  destruct (Z.eqb_spec chunk_size 0) as [Hz|_]; [lia|].
  destruct (Z.ltb_spec chunk_size 0) as [Hneg|_]; [lia|].
  apply (loop_in_range real unique (Z.to_nat chunk_size) Hm); try lia.
  - unfold np_empty. now rewrite length_map, length_seq.
  - unfold np_empty. now rewrite length_map, length_seq.
  - intros i Hi. cbn [firstn] in Hi. contradiction.
Qed.

Lemma loop_never_asserts (real unique : ndarray) (c : nat) :
  forall fuel start st,
    snd (loop fuel real unique c start st) <> AssertionError.
Proof.
  induction fuel as [|fuel IH]; intros start st; cbn [Assign.loop]; [discriminate|].
  destruct (Nat.ltb start (List.length (rows real))); [|discriminate].
  destruct (body real unique c start st); [apply IH|discriminate].
Qed.

(** C8. The call raises the assertion error exactly when the two widths
    differ, and then without having multiplied any chunk. *)
Theorem dimension_mismatch_checked_first :
  forall (real unique : ndarray) (chunk_size : Z),
    (width real <> width unique <->
     snd (compute_argmax_clusters real unique chunk_size) = AssertionError) /\
    (snd (compute_argmax_clusters real unique chunk_size) = AssertionError ->
     fst (compute_argmax_clusters real unique chunk_size) = []).
Proof.
  intros real unique chunk_size.
  unfold Assign.compute_argmax_clusters, shape.
  destruct (Nat.eqb_spec (width real) (width unique)) as [Heq|Hne]; cbn [negb].
  - assert (Hnot : snd (if Z.eqb chunk_size 0 then ([], ValueError)
                        else if Z.ltb chunk_size 0
                             then ([], Ok (np_empty junk_idx (List.length (rows real)))
                                          (np_empty junk_sim (List.length (rows real))))
                             else loop (List.length (rows real)) real unique
                                       (Z.to_nat chunk_size) 0
                                       ([], np_empty junk_idx (List.length (rows real)),
                                        np_empty junk_sim (List.length (rows real))))
                   <> AssertionError).
    { destruct (Z.eqb chunk_size 0); [discriminate|].
      destruct (Z.ltb chunk_size 0); [discriminate|].
      apply loop_never_asserts. }
    split; [split|]; intros H; contradiction.
  - cbn. split; [split|]; auto.
Qed.

(** *** The assignment table *)

(** X20. With equal widths, at least one representative and one path per
    representative, [main] builds the table exactly when there is one
    path per image, and otherwise stops on the length mismatch.  The
    table has one row per image, in the order of the image paths, with
    the computed position and similarity, the path of the representative
    at that position, and that path's base name. *)
Theorem table_pairs_each_image_with_its_nearest :
  forall (unique_embeds : ndarray) (unique_paths : list string)
         (real_embeds : ndarray) (real_paths : list string),
    width real_embeds = width unique_embeds ->
    rows unique_embeds <> [] ->
    List.length unique_paths = List.length (rows unique_embeds) ->
    (List.length real_paths = List.length (rows real_embeds) ->
     exists t best_idx best_sim,
       snd (compute_argmax_clusters real_embeds unique_embeds 65536)
       = Ok best_idx best_sim /\
       main unique_embeds unique_paths real_embeds real_paths = Table t /\
       map image_path t = real_paths /\
       map cluster_index t = best_idx /\
       map similarity t = best_sim /\
       Forall (fun a =>
                 nth_error unique_paths (cluster_index a)
                 = Some (cluster_unique_image a) /\
                 cluster_unique_basename a
                 = Split.basename (cluster_unique_image a)) t) /\
    (List.length real_paths <> List.length (rows real_embeds) ->
     main unique_embeds unique_paths real_embeds real_paths = LengthMismatch).
Proof.
  intros unique unique_paths real real_paths Hw Hm Hup.
  destruct (compute_in_range real unique 65536 Hw Hm ltac:(lia))
    as (bi & bs & Hc & Hbi & Hbs & Hin).
  destruct (lookup_all_in_range unique_paths bi) as (ps & Hps & Hall).
  { now rewrite Hup. }
  split; intros Hrp.
  - exists (make_rows real_paths ps bs bi), bi, bs. split; [exact Hc|].
    unfold Assign.main. rewrite Hc, Hps, Hbi, Hrp, Nat.eqb_refl.
    split; [reflexivity|].
    destruct (make_rows_columns real_paths ps bs bi)
      as (E1 & E2 & E3 & E4 & E5).
    + apply Forall2_length_eq in Hall. congruence.
    + congruence.
    + congruence.
    + cbv zeta in *. set (t := make_rows real_paths ps bs bi) in *.
      repeat split; try assumption.
      assert (Hcols : Forall2 (fun i p => nth_error unique_paths i = Some p)
                        (map cluster_index t) (map cluster_unique_image t))
        by (rewrite E4, E2; exact Hall).
      apply Forall2_maps in Hcols.
      rewrite Forall_forall in *. intros a Ha. split; auto.
  - unfold Assign.main. rewrite Hc, Hps, Hbi.
    now apply Nat.eqb_neq in Hrp as ->.
Qed.

(** *** No representatives *)

(** X21. With equal widths, no representative at all and a chunk size of
    at least 1, the call raises [ValueError] at the first chunk as soon as
    there is one image, and returns two empty arrays when there is none:
    it never returns an unwritten array. *)
Theorem no_representatives_value_error :
  forall (real unique : ndarray) (chunk_size : Z),
    width real = width unique ->
    rows unique = [] ->
    (1 <= chunk_size)%Z ->
    compute_argmax_clusters real unique chunk_size
    = match rows real with
      | [] => ([], Ok [] [])
      | _ :: _ =>
          ([(0, Nat.min (Z.to_nat chunk_size) (List.length (rows real)))],
           ValueError)
      end.
Proof.
  intros real unique chunk_size Hw Hm Hc.
  unfold Assign.compute_argmax_clusters, shape.
  rewrite Hw, Nat.eqb_refl. cbn [negb].
  destruct (Z.eqb_spec chunk_size 0) as [Hz|_]; [lia|].
  destruct (Z.ltb_spec chunk_size 0) as [Hneg|_]; [lia|].
  destruct (rows real) as [|x xs] eqn:Hreal; [reflexivity|].
  cbn [List.length Assign.loop Nat.ltb Nat.leb fst snd app Nat.add].
  unfold Assign.body. rewrite Hreal, Hm. cbn [List.length Nat.add].
  destruct (Z.to_nat chunk_size) as [|c] eqn:Hcn; [lia|].
  cbn [Nat.min]. unfold Dedupe.slice, Assign.matmul_t.
  cbn [Nat.sub skipn firstn List.length seq map argmax_rows argmax].
  reflexivity.
Qed.

(** *** Chunks of a product that does not depend on the chunk *)

Hypothesis independent : chunk_independent inner.

Lemma matmul_t_by_row (a b : list (list float32)) :
  matmul_t a b
  = map (fun r => map (inner [r] b 0) (seq 0 (List.length b))) a.
Proof.
  unfold Assign.matmul_t. apply map_seq_nth_error. intros i r Hr.
  apply map_ext_in. intros j Hj. apply in_seq in Hj. cbn [Nat.add] in *.
  apply (independent a [r] b i 0 j r); [assumption|reflexivity|lia].
Qed.

Lemma matmul_t_slice (a b : list (list float32)) (start stop : nat) :
  matmul_t (Dedupe.slice a start stop) b
  = Dedupe.slice (matmul_t a b) start stop.
Proof. now rewrite !matmul_t_by_row, DedupeFacts.slice_map. Qed.

Lemma body_fills (real unique : ndarray) (c start : nat)
    (trace : list (nat * nat)) :
  rows unique <> [] ->
  start < List.length (rows real) ->
  let n := List.length (rows real) in
  let sims := matmul_t (rows real) (rows unique) in
  let bi := map argmax_or_zero sims in
  let bs := map (fun r => nth (argmax_or_zero r) r zero) sims in
  body real unique c start
       (trace,
        firstn start bi ++ skipn start (np_empty junk_idx n),
        firstn start bs ++ skipn start (np_empty junk_sim n))
  = Some (trace ++ [(start, Nat.min (start + c) n)],
          firstn (start + c) bi ++ skipn (start + c) (np_empty junk_idx n),
          firstn (start + c) bs ++ skipn (start + c) (np_empty junk_sim n)).
Proof.
  intros Hm Hstart n sims bi bs. unfold Assign.body. fold n.
  rewrite matmul_t_slice. fold sims.
  assert (Hsl : Forall (fun r => r <> [])
                  (Dedupe.slice sims start (Nat.min (start + c) n))).
  { pose proof (matmul_t_nonempty (rows real) (rows unique) Hm) as Hall.
    fold sims in Hall. rewrite Forall_forall in *. intros r Hr. apply Hall.
    now apply DedupeFacts.in_slice in Hr. }
  rewrite (argmax_rows_nonempty _ Hsl), take_along_argmax.
  assert (Hn : List.length sims = n) by apply length_matmul_t.
  assert (Hbi : List.length bi = n) by (unfold bi; now rewrite length_map).
  assert (Hbs : List.length bs = n) by (unfold bs; now rewrite length_map).
  assert (Hji : List.length (np_empty junk_idx n) = n)
    by (unfold np_empty; now rewrite length_map, length_seq).
  assert (Hjs : List.length (np_empty junk_sim n) = n)
    by (unfold np_empty; now rewrite length_map, length_seq).
  rewrite <- !DedupeFacts.slice_map. fold bi bs.
  pose proof (assign_slice_next bi (np_empty junk_idx n) start c) as Hi.
  pose proof (assign_slice_next bs (np_empty junk_sim n) start c) as Hs.
  cbv zeta in Hi, Hs. rewrite Hbi in Hi. rewrite Hbs in Hs.
  rewrite Hi, Hs by lia. reflexivity.
Qed.

Lemma loop_fills (real unique : ndarray) (c : nat) :
  rows unique <> [] -> 1 <= c ->
  let n := List.length (rows real) in
  let sims := matmul_t (rows real) (rows unique) in
  let bi := map argmax_or_zero sims in
  let bs := map (fun r => nth (argmax_or_zero r) r zero) sims in
  forall fuel start trace,
    n <= start + fuel ->
    snd (loop fuel real unique c start
              (trace,
               firstn start bi ++ skipn start (np_empty junk_idx n),
               firstn start bs ++ skipn start (np_empty junk_sim n)))
    = Ok bi bs.
Proof.
  intros Hm Hc n sims bi bs.
  assert (Hn : List.length sims = n) by apply length_matmul_t.
  assert (Hdone : forall start, n <= start ->
            Ok (firstn start bi ++ skipn start (np_empty junk_idx n))
               (firstn start bs ++ skipn start (np_empty junk_sim n))
            = Ok bi bs).
  { intros start Hge.
    rewrite !firstn_all2, !skipn_all2, !app_nil_r; auto;
      unfold np_empty, bi, bs;
      rewrite ?length_map, ?length_seq, ?Hn; exact Hge. }
  induction fuel as [|fuel IH]; intros start trace Hfuel.
  - cbn. apply Hdone. lia.
  - cbn [Assign.loop]. fold n. destruct (Nat.ltb_spec start n) as [Hlt|Hge].
    + pose proof (body_fills real unique c start trace Hm Hlt) as Hbody.
      cbv zeta in Hbody. fold n sims bi bs in Hbody. rewrite Hbody.
      apply IH. lia.
    + cbn. now apply Hdone.
Qed.

Lemma compute_returns_argmax (real unique : ndarray) (chunk_size : Z) :
  width real = width unique -> rows unique <> [] -> (1 <= chunk_size)%Z ->
  snd (compute_argmax_clusters real unique chunk_size)
  = Ok (map argmax_or_zero (matmul_t (rows real) (rows unique)))
       (map (fun r => nth (argmax_or_zero r) r zero)
            (matmul_t (rows real) (rows unique))).
Proof.
  intros Hw Hm Hc. unfold Assign.compute_argmax_clusters, shape.
  rewrite Hw, Nat.eqb_refl. cbn [negb].
  destruct (Z.eqb_spec chunk_size 0) as [Hz|_]; [lia|].
  destruct (Z.ltb_spec chunk_size 0) as [Hneg|_]; [lia|].
  apply (loop_fills real unique (Z.to_nat chunk_size) Hm); lia.
Qed.

End Properties.

(** ** The scan finds the first largest entry *)

Lemma argmax_from_spec (l : list float32) :
  forall (pre : list float32) (best_i : nat) (best : float32),
    best_i < List.length pre ->
    nth best_i pre zero = best ->
    (forall j, j < List.length pre -> leb (nth j pre zero) best = true) ->
    (forall j, j < best_i -> leb best (nth j pre zero) = false) ->
    let k := argmax_from best_i best (List.length pre) l in
    k < List.length (pre ++ l) /\
    (forall j, j < List.length (pre ++ l) ->
       no_greater (nth j (pre ++ l) zero) (nth k (pre ++ l) zero) = true) /\
    (forall j, j < k ->
       no_greater (nth k (pre ++ l) zero) (nth j (pre ++ l) zero) = false).
Proof.
  induction l as [|x l IH]; intros pre best_i best Hi Hbest Hmax Hfirst; cbv zeta.
  - cbn [argmax_from]. rewrite app_nil_r, Hbest. split; [assumption|]. split.
    + intros j Hj. unfold no_greater. rewrite (Hmax j Hj). apply orb_true_r.
    + intros j Hj. unfold no_greater. rewrite (Hfirst j Hj).
      destruct (leb_not_nan _ _ (Hmax j ltac:(lia))) as [-> _]. reflexivity.
  - cbn [argmax_from].
    assert (Hlen : List.length (pre ++ [x]) = S (List.length pre))
      by (rewrite length_app; cbn; lia).
    assert (Hx : nth (List.length pre) (pre ++ [x]) zero = x)
      by (rewrite app_nth2, Nat.sub_diag by lia; reflexivity).
    assert (Hbb : leb best best = true)
      by (rewrite <- Hbest at 1; now apply Hmax).
    destruct (leb x best) eqn:Hle.
    + replace (pre ++ x :: l) with ((pre ++ [x]) ++ l)
        by (now rewrite <- app_assoc).
      rewrite <- Hlen. apply IH.
      * lia.
      * now rewrite app_nth1.
      * intros j Hj. destruct (Nat.eq_dec j (List.length pre)) as [->|Hne].
        -- now rewrite Hx.
        -- rewrite app_nth1 by lia. apply Hmax. lia.
      * intros j Hj. rewrite app_nth1 by lia. now apply Hfirst.
    + destruct (isnan x) eqn:Hnan.
      * assert (Hk : nth (List.length pre) (pre ++ x :: l) zero = x)
          by (rewrite app_nth2, Nat.sub_diag by lia; reflexivity).
        rewrite Hk. split; [rewrite length_app; cbn; lia|]. split.
        -- intros j Hj. unfold no_greater. now rewrite Hnan.
        -- intros j Hj. unfold no_greater. rewrite app_nth1 by lia.
           destruct (leb_not_nan _ _ (Hmax j Hj)) as [-> _].
           destruct (leb x (nth j pre zero)) eqn:Hxj; [|reflexivity].
           apply leb_not_nan in Hxj. destruct Hxj as [Hxj _]. congruence.
      * assert (Hbx : leb best x = true).
        { apply leb_total; auto. now destruct (leb_not_nan _ _ Hbb). }
        replace (pre ++ x :: l) with ((pre ++ [x]) ++ l)
          by (now rewrite <- app_assoc).
        rewrite <- Hlen. apply IH.
        -- lia.
        -- exact Hx.
        -- intros j Hj. destruct (Nat.eq_dec j (List.length pre)) as [->|Hne].
           ++ rewrite Hx. now apply leb_refl.
           ++ rewrite app_nth1 by lia.
              apply (leb_trans _ best); [apply Hmax; lia|assumption].
        -- intros j Hj. rewrite app_nth1 by lia.
           destruct (leb x (nth j pre zero)) eqn:Hxj; [|reflexivity].
           rewrite (leb_trans x (nth j pre zero) best Hxj (Hmax j Hj)) in Hle.
           discriminate.
Qed.

Lemma argmax_or_zero_spec (l : list float32) :
  l <> [] ->
  argmax_or_zero l < List.length l /\
  (forall j, j < List.length l ->
     no_greater (nth j l zero) (nth (argmax_or_zero l) l zero) = true) /\
  (forall j, j < argmax_or_zero l ->
     no_greater (nth (argmax_or_zero l) l zero) (nth j l zero) = false).
Proof.
  destruct l as [|x l]; [contradiction|]. intros _.
  unfold argmax_or_zero, argmax. destruct (isnan x) eqn:Hnan.
  - cbn [nth List.length]. split; [lia|]. split.
    + intros j _. unfold no_greater. now rewrite Hnan.
    + intros j Hj. lia.
  - apply (argmax_from_spec l [x] 0 x).
    + cbn. lia.
    + reflexivity.
    + intros j Hj. cbn in Hj. replace j with 0 by lia. now apply leb_refl.
    + intros j Hj. lia.
Qed.

Lemma first_largest_from_spec (row : list float32) (l : list float32) :
  forall i k,
    k < List.length l ->
    is_largest row (nth k l zero) = true ->
    (forall j, j < k -> is_largest row (nth j l zero) = false) ->
    first_largest_from i l row = i + k.
Proof.
  induction l as [|x l IH]; intros i k Hk Hlarge Hfirst; cbn in Hk; [lia|].
  cbn [first_largest_from]. destruct k as [|k].
  - cbn [nth] in Hlarge. rewrite Hlarge. lia.
  - pose proof (Hfirst 0 ltac:(lia)) as H0. cbn [nth] in H0, Hlarge.
    rewrite H0, (IH (S i) k); [lia|lia|assumption|].
    intros j Hj. apply (Hfirst (S j)). lia.
Qed.

(** The scan of the loop and the best match of the specification agree
    on every row that has an entry. *)
Lemma argmax_is_first_largest (row : list float32) :
  row <> [] -> argmax_or_zero row = first_largest row.
Proof.
  intros Hne. destruct (argmax_or_zero_spec row Hne) as (Hk & Hmax & Hfirst).
  symmetry. apply (first_largest_from_spec row row 0 (argmax_or_zero row) Hk).
  - unfold is_largest. apply forallb_forall. intros y Hy.
    destruct (In_nth _ _ zero Hy) as (j & Hj & <-). now apply Hmax.
  - intros j Hj. unfold is_largest.
    destruct (forallb _ row) eqn:Hall; [|reflexivity].
    rewrite forallb_forall in Hall.
    pose proof (Hall (nth (argmax_or_zero row) row zero) (nth_In _ _ Hk)) as H1.
    rewrite (Hfirst j Hj) in H1. discriminate.
Qed.

Section Nearest.

Variable junk_idx : nat -> nat.
Variable junk_sim : nat -> float32.
Variable inner : list (list float32) -> list (list float32) -> nat -> nat -> float32.

Local Abbreviation matmul_t := (matmul_t inner).
Local Abbreviation compute_argmax_clusters :=
  (compute_argmax_clusters junk_idx junk_sim inner).
Local Abbreviation nearest_unchunked := (nearest_unchunked inner).

Lemma compute_returns_nearest (real unique : ndarray) (chunk_size : Z) :
  chunk_independent inner ->
  width real = width unique -> rows unique <> [] -> (1 <= chunk_size)%Z ->
  snd (compute_argmax_clusters real unique chunk_size)
  = Ok (fst (nearest_unchunked real unique))
       (snd (nearest_unchunked real unique)).
Proof.
  intros independent Hw Hm Hc.
  rewrite (compute_returns_argmax junk_idx junk_sim inner independent
             real unique chunk_size Hw Hm Hc).
  unfold Assign.nearest_unchunked. cbn [fst snd].
  pose proof (matmul_t_nonempty inner (rows real) (rows unique) Hm) as Hne.
  rewrite Forall_forall in Hne.
  f_equal; apply map_ext_in; intros r Hr;
    now rewrite (argmax_is_first_largest r (Hne r Hr)).
Qed.


(** X19. Whenever the entry the product computes for an image and a
    representative is the same in every chunk that holds the image, the
    result holds, with equal widths, at least one representative and a
    chunk size of at least 1, for every image a position among the
    representatives and the similarity the product of all images gives
    for that position; no similarity of the image exceeds it and it
    exceeds the similarity to every earlier representative, a NaN
    counting as the largest. *)
Theorem nearest_is_first_maximum :
  forall (real unique : ndarray) (chunk_size : Z),
    chunk_independent inner ->
    width real = width unique ->
    rows unique <> [] ->
    (1 <= chunk_size)%Z ->
    let sim := inner (rows real) (rows unique) in
    exists best_idx best_sim,
      snd (compute_argmax_clusters real unique chunk_size) = Ok best_idx best_sim /\
      List.length best_idx = List.length (rows real) /\
      List.length best_sim = List.length (rows real) /\
      forall i,
        i < List.length (rows real) ->
        exists b,
          nth_error best_idx i = Some b /\
          b < List.length (rows unique) /\
          nth_error best_sim i = Some (sim i b) /\
          (forall j, j < List.length (rows unique) ->
             no_greater (sim i j) (sim i b) = true) /\
          (forall j, j < b -> no_greater (sim i b) (sim i j) = false).
Proof.
  intros real unique chunk_size independent Hw Hm Hc sim.
  eexists _, _.
  split; [exact (compute_returns_argmax junk_idx junk_sim inner independent
                   real unique chunk_size Hw Hm Hc)|].
  rewrite !length_map, length_matmul_t. repeat split.
  intros i Hi.
  set (sims := matmul_t (rows real) (rows unique)).
  assert (Hrow : nth_error sims i = Some (nth i sims [])).
  { apply nth_error_nth'. unfold sims. now rewrite length_matmul_t. }
  set (r := nth i sims []) in *.
  assert (Hin : In r sims) by (eapply nth_error_In; eassumption).
  assert (Hlen : List.length r = List.length (rows unique))
    by (apply (matmul_t_rows inner (rows real) (rows unique)); exact Hin).
  assert (Hr : r <> []).
  { intros E. rewrite E in Hlen. destruct (rows unique); [contradiction|].
    discriminate. }
  assert (Hent : forall j, j < List.length (rows unique) ->
            nth j r zero = sim i j).
  { intros j Hj. unfold r, sims. now apply nth_matmul_t. }
  destruct (argmax_or_zero_spec r Hr) as (Hb & Hmax & Hfirst).
  rewrite Hlen in Hb, Hmax.
  exists (argmax_or_zero r).
  rewrite !nth_error_map, Hrow. cbn [option_map].
  rewrite <- (Hent (argmax_or_zero r) Hb). repeat split; auto.
  - intros j Hj. rewrite <- (Hent j Hj). now apply Hmax.
  - intros j Hj. rewrite <- (Hent j ltac:(lia)). now apply Hfirst.
Qed.

End Nearest.

(** ** The examples *)

Lemma inner_in_order_independent : chunk_independent inner_in_order.
Proof.
  intros a a' b i i' j r Ha Ha' Hj. unfold inner_in_order.
  now rewrite (nth_error_nth a i [] Ha), (nth_error_nth a' i' [] Ha').
Qed.


Lemma nearest_is_first_maximum_witness :
  exists best_idx best_sim,
    snd (compute_argmax_clusters (fun _ => 7) (fun _ => zero) inner_in_order
           example_real example_unique 4) = Ok best_idx best_sim /\
    List.length best_idx = List.length (rows example_real).
Proof.
  destruct (nearest_is_first_maximum (fun _ => 7) (fun _ => zero)
              inner_in_order example_real example_unique 4
              inner_in_order_independent eq_refl
              ltac:(discriminate) ltac:(lia))
    as (best_idx & best_sim & Hrun & Hlen & _).
  exists best_idx, best_sim. split; [exact Hrun|exact Hlen].
Defined.

Lemma table_pairs_each_image_witness :
  (List.length example_real_paths = List.length (rows example_real) ->
   exists t best_idx best_sim,
     snd (compute_argmax_clusters (fun _ => 7) (fun _ => zero) inner_in_order
            example_real example_unique 65536) = Ok best_idx best_sim /\
     main (fun _ => 7) (fun _ => zero) inner_in_order
       example_unique example_unique_paths example_real example_real_paths
     = Table t /\
     map image_path t = example_real_paths /\
     map cluster_index t = best_idx /\
     map similarity t = best_sim /\
     Forall (fun a =>
               nth_error example_unique_paths (cluster_index a)
               = Some (cluster_unique_image a) /\
               cluster_unique_basename a
               = Split.basename (cluster_unique_image a)) t) /\
  (List.length example_real_paths <> List.length (rows example_real) ->
   main (fun _ => 7) (fun _ => zero) inner_in_order
     example_unique example_unique_paths example_real example_real_paths
   = LengthMismatch).
Proof.
  apply (table_pairs_each_image_with_its_nearest (fun _ => 7) (fun _ => zero)
           inner_in_order
           example_unique example_unique_paths example_real example_real_paths).
  - reflexivity.
  - discriminate.
  - reflexivity.
Defined.

Lemma no_representatives_value_error_witness :
  compute_argmax_clusters (fun _ => 7) (fun _ => zero) inner_in_order
    example_real no_unique 4
  = match rows example_real with
    | [] => ([], Ok [] [])
    | _ :: _ =>
        ([(0, Nat.min (Z.to_nat 4) (List.length (rows example_real)))],
         ValueError)
    end.
Proof.
  apply (no_representatives_value_error (fun _ => 7) (fun _ => zero)
           inner_in_order example_real no_unique 4).
  - reflexivity.
  - reflexivity.
  - lia.
Defined.

(** Scenario A of the specification: three representatives, six images
    whose nearest representatives are 0, 0, 1, 1, 2, 2. *)
Example scenario_a :
  exists best_sim,
    snd (compute_argmax_clusters (fun _ => 7) (fun _ => zero) inner_in_order
           example_real example_unique 65536)
    = Ok [0; 0; 1; 1; 2; 2] best_sim.
Proof. eexists. vm_compute. reflexivity. Qed.

(** Rounding decides a tie: the inner product of the image with the
    second representative is [1 + 2^-30] before rounding and [1] after,
    so the first representative, whose similarity is [1] as well, is the
    one returned. *)
Example rounding_makes_a_tie :
  snd (compute_argmax_clusters (fun _ => 7) (fun _ => zero) inner_in_order
         rounding_real rounding_unique 65536)
  = Ok [0] [one].
Proof. vm_compute. reflexivity. Qed.

(** ** Resolving the caches *)

(** X16. The two scripts resolve the real cache alike: when
    [assign_clusters] resolves both caches, [dedupe_by_threshold] resolves
    the same real cache and both returned paths are existing files; when
    [dedupe_by_threshold] finds no real cache, [assign_clusters] fails
    too. *)
Theorem both_scripts_resolve_the_same_real_cache :
  forall (isfile : string -> bool) (cache_dir backend model pretrained : string),
    match resolve_cache_paths isfile cache_dir backend model pretrained with
    | Dedupe.Found (unique_cache, real_cache) =>
        isfile unique_cache = true /\ isfile real_cache = true /\
        Dedupe.resolve_cache_paths isfile cache_dir backend model pretrained
        = Dedupe.Found real_cache
    | Dedupe.FileNotFoundError _ => True
    end /\
    (forall m,
       Dedupe.resolve_cache_paths isfile cache_dir backend model pretrained
       = Dedupe.FileNotFoundError m ->
       exists m',
         resolve_cache_paths isfile cache_dir backend model pretrained
         = Dedupe.FileNotFoundError m').
Proof.
  intros isfile cache_dir backend model pretrained.
  unfold resolve_cache_paths, Dedupe.resolve_cache_paths.
  set (tag := Dedupe.cache_tag backend model pretrained).
  set (legacy := String.append model (String.append "_" pretrained)).
  destruct (isfile (Dedupe.cache_file cache_dir "unique" tag)) eqn:Hu;
    destruct (isfile (Dedupe.cache_file cache_dir "real" tag)) eqn:Hr;
    destruct (String.eqb backend "clip");
    destruct (isfile (Dedupe.cache_file cache_dir "unique" legacy)) eqn:Hlu;
    destruct (isfile (Dedupe.cache_file cache_dir "real" legacy)) eqn:Hlr;
    cbn [negb andb]; rewrite ?Hu, ?Hr, ?Hlu, ?Hlr; cbn [negb andb];
    (split; [auto|intros m Hm; try discriminate; eauto]).
Qed.

End AssignFacts.

(** ** The normalisation of scripts/dedupe_by_threshold.py *)

Module NormalizeFacts.

Import Float32 Float32Facts Normalize.

Local Open Scope list_scope.

(** ** Rows of zeros *)

Lemma add_zeros (s : list float32) :
  Forall (fun a => a = zero) s -> fold_left add s zero = zero.
Proof. induction 1 as [|a s -> _ IH]; [reflexivity|exact IH]. Qed.

Lemma square_of_zero (a : float32) : is_zero a = true -> mul a a = zero.
Proof. destruct a as [[|]| | |]; try discriminate; reflexivity. Qed.

Lemma norm_of_zeros (x : list float32) :
  Forall (fun a => is_zero a = true) x -> norm x = zero.
Proof.
  intros H. unfold norm.
  assert (Hsq : Forall (fun a => a = zero) (map (fun a => mul a a) x)).
  { induction H as [|a x Ha _ IH]; constructor; [now apply square_of_zero|exact IH]. }
  destruct Hsq as [|a s -> Hs]; [reflexivity|].
  cbn [add_reduce]. now rewrite (add_zeros s Hs).
Qed.

Lemma zero_over_floor (a : float32) : is_zero a = true -> div a floor = a.
Proof. destruct a as [[|]| | |]; try discriminate; reflexivity. Qed.

(** ** Rows with a NaN *)

Lemma add_nan_l (s : list float32) : fold_left add s S754_nan = S754_nan.
Proof. induction s as [|a s IH]; [reflexivity|exact IH]. Qed.

Lemma add_nan_r (a : float32) : add a S754_nan = S754_nan.
Proof. now destruct a. Qed.

Lemma add_with_nan (s : list float32) :
  In S754_nan s -> forall acc, fold_left add s acc = S754_nan.
Proof.
  induction s as [|a s IH]; intros Hin acc; [contradiction|].
  cbn [fold_left]. destruct Hin as [->|Hin].
  - rewrite add_nan_r. apply add_nan_l.
  - now apply IH.
Qed.

Lemma norm_with_nan (x : list float32) : In S754_nan x -> norm x = S754_nan.
Proof.
  intros H. unfold norm.
  assert (Hsq : In S754_nan (map (fun a => mul a a) x))
    by (apply in_map_iff; exists S754_nan; now split).
  destruct (map (fun a => mul a a) x) as [|a s]; [contradiction|].
  cbn [add_reduce]. destruct Hsq as [->|Hsq].
  - now rewrite add_nan_l.
  - now rewrite add_with_nan.
Qed.

Lemma div_by_nan (a : float32) : div a S754_nan = S754_nan.
Proof. now destruct a. Qed.

(** ** Which divisor *)

Lemma finite_over_infinity (a : float32) :
  is_finite a = true -> is_zero (div a infinity) = true.
Proof. destruct a; try discriminate; reflexivity. Qed.



End NormalizeFacts.
